(** * Verification of the metadata pipeline of [app.py]

    The development embeds, from the Python source, the rule-based QA
    validator [qa_check], the two-protocol generation client
    [call_openai_metadata] and the per-job orchestrator [worker] with its job
    registry, and proves the properties the design document states about them.

    Python [str] values are sequences of Unicode code points; they are modelled
    as lists of code points, so that [len], [strip], [splitlines] and the
    regular expression of the validator count and classify characters the way
    the interpreter does. *)

From Stdlib Require Import ZArith NArith QArith Qround Lia List Ascii String DecimalN.
From stdpp Require Import base tactics option list gmap.

Set Default Proof Using "Type".

(** ** Python strings *)

Definition char := N.
Definition str := list char.

(** An ASCII literal of the source as a [str]. *)
Definition lit (s : string) : str := map N_of_ascii (list_ascii_of_string s).

Section Unicode.
Local Open Scope N_scope.

  (** [str.isspace] on one code point; the same set is what [\s] matches in a
      [str] pattern (Unicode database 14.0). *)
Definition isspace (c : char) : bool :=
    ((9 <=? c) && (c <=? 13)) || ((28 <=? c) && (c <=? 32))
    || (c =? 0x85) || (c =? 0xa0) || (c =? 0x1680)
    || ((0x2000 <=? c) && (c <=? 0x200a))
    || (c =? 0x2028) || (c =? 0x2029) || (c =? 0x202f) || (c =? 0x205f)
    || (c =? 0x3000).

  (** The line boundaries of [str.splitlines]. *)
Definition is_linebreak (c : char) : bool :=
    ((10 <=? c) && (c <=? 13)) || ((28 <=? c) && (c <=? 30))
    || (c =? 0x85) || (c =? 0x2028) || (c =? 0x2029).

  (** First code point of every block of ten decimal digits (category Nd):
      the characters [\d] matches and [int] reads. *)
Definition decimal_blocks : list N :=
    [ 0x30; 0x660; 0x6f0; 0x7c0; 0x966; 0x9e6; 0xa66; 0xae6; 0xb66; 0xbe6;
      0xc66; 0xce6; 0xd66; 0xde6; 0xe50; 0xed0; 0xf20; 0x1040; 0x1090;
      0x17e0; 0x1810; 0x1946; 0x19d0; 0x1a80; 0x1a90; 0x1b50; 0x1bb0;
      0x1c40; 0x1c50; 0xa620; 0xa8d0; 0xa900; 0xa9d0; 0xa9f0; 0xaa50;
      0xabf0; 0xff10; 0x104a0; 0x10d30; 0x11066; 0x110f0; 0x11136; 0x111d0;
      0x112f0; 0x11450; 0x114d0; 0x11650; 0x116c0; 0x11730; 0x118e0;
      0x11950; 0x11c50; 0x11d50; 0x11da0; 0x16a60; 0x16ac0; 0x16b50;
      0x1d7ce; 0x1d7d8; 0x1d7e2; 0x1d7ec; 0x1d7f6; 0x1e140; 0x1e2f0;
      0x1e950; 0x1fbf0 ].

Fixpoint digit_in (blocks : list N) (c : char) : option N :=
    match blocks with
    | [] => None
    | b :: blocks' =>
        if (b <=? c) && (c <? b + 10) then Some (c - b) else digit_in blocks' c
    end.

  (** The value of a decimal digit, [None] for any other character. *)
Definition digit_value (c : char) : option N := digit_in decimal_blocks c.

Definition isdigit (c : char) : bool :=
    match digit_value c with Some _ => true | None => false end.

  (** [str.lower] on one code point.  The letters A to Z, the dotted capital I
      (U+0130) and the Kelvin sign (U+212A) are the only code points whose
      lower-case form contains an ASCII character.  Every other cased letter
      maps to a code point outside ASCII; the model leaves those in place,
      which no comparison with an ASCII literal can tell apart. *)
Definition lower_char (c : char) : str :=
    if (65 <=? c) && (c <=? 90) then [c + 32]
    else if c =? 0x130 then [0x69; 0x307]
    else if c =? 0x212a then [0x6b]
    else [c].
End Unicode.

Definition lower (s : str) : str := flat_map lower_char s.

Fixpoint lstrip (s : str) : str :=
  match s with
  | c :: s' => if isspace c then lstrip s' else s
  | [] => []
  end.

Definition rstrip (s : str) : str := rev (lstrip (rev s)).

(** [s.strip()] *)
Definition strip (s : str) : str := rstrip (lstrip s).

(** [s.rstrip(chars)] with an explicit character set. *)
Fixpoint lstrip_chars (chars : str) (s : str) : str :=
  match s with
  | c :: s' => if existsb (N.eqb c) chars then lstrip_chars chars s' else s
  | [] => []
  end.

Definition rstrip_chars (chars : str) (s : str) : str :=
  rev (lstrip_chars chars (rev s)).

(** [s.splitlines()]: [cur] is the line being read, in reverse.  A carriage
    return directly followed by a line feed is one boundary; a boundary at the
    very end opens no further line. *)
Fixpoint splitlines_from (cur : str) (s : str) : list str :=
  match s with
  | [] => match cur with [] => [] | _ => [rev cur] end
  | c :: s' =>
      if is_linebreak c then
        match s' with
        | d :: s'' =>
            if (c =? 13)%N && (d =? 10)%N
            then rev cur :: splitlines_from [] s''
            else rev cur :: splitlines_from [] s'
        | [] => [rev cur]
        end
      else splitlines_from (c :: cur) s'
  end.

Definition splitlines (s : str) : list str := splitlines_from [] s.

(** [s.startswith(p)] *)
Fixpoint startswith (p s : str) : bool :=
  match p, s with
  | [], _ => true
  | _ :: _, [] => false
  | a :: p', b :: s' => (a =? b)%N && startswith p' s'
  end.

(** [needle in hay] *)
Fixpoint contains (needle hay : str) : bool :=
  startswith needle hay ||
  match hay with
  | [] => false
  | _ :: hay' => contains needle hay'
  end.

(** [s.split(sep)] for a separator of one character. *)
Fixpoint split_from (sep : char) (cur : str) (s : str) : list str :=
  match s with
  | [] => [rev cur]
  | c :: s' =>
      if (c =? sep)%N then rev cur :: split_from sep [] s'
      else split_from sep (c :: cur) s'
  end.

Definition split (sep : char) (s : str) : list str := split_from sep [] s.

Definition nl : str := [10%N].

(** ["\n".join(lines)] *)
Fixpoint join (sep : str) (parts : list str) : str :=
  match parts with
  | [] => []
  | [p] => p
  | p :: parts' => p ++ sep ++ join sep parts'
  end.

(** Decimal text of a natural number, [str(n)]. *)
Fixpoint chars_of_uint (u : Decimal.uint) : str :=
  match u with
  | Decimal.Nil => []
  | Decimal.D0 u => 48%N :: chars_of_uint u
  | Decimal.D1 u => 49%N :: chars_of_uint u
  | Decimal.D2 u => 50%N :: chars_of_uint u
  | Decimal.D3 u => 51%N :: chars_of_uint u
  | Decimal.D4 u => 52%N :: chars_of_uint u
  | Decimal.D5 u => 53%N :: chars_of_uint u
  | Decimal.D6 u => 54%N :: chars_of_uint u
  | Decimal.D7 u => 55%N :: chars_of_uint u
  | Decimal.D8 u => 56%N :: chars_of_uint u
  | Decimal.D9 u => 57%N :: chars_of_uint u
  end.

Definition str_of_N (n : N) : str := chars_of_uint (N.to_uint n).
Definition str_of_nat (n : nat) : str := str_of_N (N.of_nat n).

(** [int(s)] on a non-empty string of decimal digits.  [None] stands for the
    ValueError raised on a string that is not a number; signs, blanks and
    underscores, which [int] also reads, never reach it in this program. *)
Fixpoint int_digits (acc : N) (s : str) : option N :=
  match s with
  | [] => Some acc
  | c :: s' =>
      match digit_value c with
      | Some d => int_digits (10 * acc + d)%N s'
      | None => None
      end
  end.

Definition py_int (s : str) : option Z :=
  match s with
  | [] => None
  | _ => Z.of_N <$> int_digits 0%N s
  end.


(** ** The QA validator *)

Record validated_link := ValidatedLink {
  url : str;
  ok : bool;
  title : str;
  reason : str;
}.

(** The violations [qa_check] can report; [render] gives the text the source
    appends to [issues] for each. *)
Inductive issue :=
| DashFound
| MissingLabel (lab : str)
| NoTitleText (lab : str)
| TitleLength (L : nat) (lab : str)
| WatchNextNotProvided
| WatchNextNoValidLinks
| TagsNotDetected
| TagsTooLong (n : nat)
| TimestampsNotIncreasing
| TooManyTimestamps (n : nat).

Definition em_dash : char := 0x2014%N.
Definition en_dash : char := 0x2013%N.

Definition render (i : issue) : str :=
  match i with
  | DashFound =>
      lit "Contains an em dash/en dash (" ++ [em_dash] ++ lit "/"
      ++ [en_dash] ++ lit ")."
  | MissingLabel lab => lit "Missing title label: " ++ lab
  | NoTitleText lab => lit "No title text found after " ++ lab
  | TitleLength L lab =>
      lit "Title length " ++ str_of_nat L ++ lit " after " ++ lab
      ++ lit " (must be 60" ++ [en_dash] ++ lit "75)."
  | WatchNextNotProvided =>
      lit "Watch Next present but links were not provided."
  | WatchNextNoValidLinks =>
      lit "Watch Next present but no valid links remained."
  | TagsNotDetected =>
      lit "Tags line not detected (expected one comma-separated line at the end)."
  | TagsTooLong n =>
      lit "Tags line is " ++ str_of_nat n ++ lit " chars (must be <= 500)."
  | TimestampsNotIncreasing =>
      lit "Education Problems timestamps are not strictly increasing or contain duplicates."
  | TooManyTimestamps n =>
      lit "Education Problems has " ++ str_of_nat n
      ++ lit " lines (must be up to 8 when justified)."
  end.

Definition required_labels : list str :=
  [ lit "Option 1 (Highest SEO Reach)";
    lit "Option 2 (Parent High-Intent)";
    lit "Option 3 (Authority Explainer)" ].

(** Index of the first element satisfying [p]: the [for i, x in enumerate]
    loops that stop with [break] at the first hit. *)
Fixpoint find_index {A} (p : A → bool) (l : list A) : option nat :=
  match l with
  | [] => None
  | x :: l' => if p x then Some 0 else S <$> find_index p l'
  end.

(** [not line.strip()] *)
Definition is_blank (line : str) : bool :=
  match strip line with [] => true | _ => false end.

(** [while j < len(lines) and not lines[j].strip(): j += 1], run on the lines
    from index [j] on. *)
Fixpoint skip_blank (rest : list str) (j : nat) : nat :=
  match rest with
  | [] => j
  | line :: rest' => if is_blank line then skip_blank rest' (S j) else j
  end.

(** The em dash and en dash rule. *)
Definition dash_issues (txt : str) : list issue :=
  if contains [em_dash] txt || contains [en_dash] txt then [DashFound] else [].

(** One pass of the first loop over [required_labels]. *)
Definition missing_label_issues (txt : str) (lab : str) : list issue :=
  if negb (contains lab txt) then [MissingLabel lab] else [].

(** One pass of the title-length loop. *)
Definition title_issues (lines : list str) (lab : str) : list issue :=
  match find_index (λ line, bool_decide (strip line = lab)) lines with
  | None => []
  | Some idx =>
      let j := skip_blank (drop (idx + 1) lines) (idx + 1) in
      match lines !! j with
      | None => [NoTitleText lab]
      | Some line =>
          let title := strip line in
          let L := length title in
          if (L <? 60) || (75 <? L) then [TitleLength L lab] else []
      end
  end.

Definition has_watch_next (lines : list str) : bool :=
  existsb (λ l, startswith (lit "watch next") (lower (strip l))) lines.

Definition valid_count (validated_links : list validated_link) : nat :=
  length (filter (λ x, ok x = true) validated_links).

Definition watch_next_issues (lines : list str) (link_mode : str)
    (validated_links : list validated_link) : list issue :=
  (if bool_decide (link_mode ≠ lit "provided") && has_watch_next lines
   then [WatchNextNotProvided] else [])
  ++
  (if bool_decide (link_mode = lit "provided")
      && (valid_count validated_links =? 0) && has_watch_next lines
   then [WatchNextNoValidLinks] else []).

Definition tags_issues (non_empty : list str) : list issue :=
  match last non_empty with
  | None => []
  | Some last =>
      if negb (contains (lit ",") last) then [TagsNotDetected]
      else if 500 <? length last then [TagsTooLong (length last)]
      else []
  end.

(** [.+] needs one character that is not a line feed. *)
Definition re_any_plus (s : str) : bool :=
  match s with
  | c :: _ => negb (c =? 10)%N
  | [] => false
  end.

(** [\s*.+], with the backtracking of the greedy [\s+]. *)
Fixpoint re_ws_star_any_plus (s : str) : bool :=
  re_any_plus s ||
  match s with
  | c :: s' => isspace c && re_ws_star_any_plus s'
  | [] => false
  end.

(** [re.match(r"^(\d{2}:\d{2})\s+.+", s)], returning [m.group(1)]. *)
Definition match_timestamp (s : str) : option str :=
  match s with
  | d1 :: d2 :: c :: d3 :: d4 :: w :: rest =>
      if isdigit d1 && isdigit d2 && (c =? 58)%N && isdigit d3 && isdigit d4
         && isspace w && re_ws_star_any_plus rest
      then Some [d1; d2; c; d3; d4]
      else None
  | _ => None
  end.

(** [None] is the ValueError of a malformed argument. *)
Definition _mmss_to_sec (x : str) : option Z :=
  match split 58%N x with
  | [m; s] => m' ← py_int m; s' ← py_int s; Some (m' * 60 + s')%Z
  | _ => None
  end.

(** The timestamp lines after the first line that starts with "type". *)
Definition collect_timestamps (lines : list str) : list str :=
  match find_index (λ line, startswith (lit "type") (lower (strip line))) lines with
  | Some type_idx =>
      omap (λ line, match_timestamp (strip line)) (drop (type_idx + 1) lines)
  | None => []
  end.

(** [any(secs[i] >= secs[i + 1] for i in range(len(secs) - 1))] *)
Definition not_increasing (secs : list Z) : bool :=
  existsb (λ i, (nth i secs 0 >=? nth (i + 1) secs 0)%Z)
          (seq 0 (length secs - 1)).

Definition timestamp_issues (ts : list str) : option (list issue) :=
  match ts with
  | [] => Some []
  | _ =>
      secs ← mapM _mmss_to_sec ts;
      Some ((if not_increasing secs then [TimestampsNotIncreasing] else [])
            ++ (if 8 <? length ts then [TooManyTimestamps (length ts)] else []))
  end.

(** The violations in the order the source appends them.  [None] means that
    an exception escapes, which can only come from [_mmss_to_sec]. *)
Definition qa_violations (output_text : str) (link_mode : str)
    (validated_links : list validated_link) : option (list issue) :=
  let txt := output_text in
  let lines := map (rstrip_chars [10%N]) (splitlines txt) in
  let non_empty := map strip (filter (λ l, is_blank l = false) lines) in
  ts_issues ← timestamp_issues (collect_timestamps lines);
  Some (dash_issues txt
        ++ concat (map (missing_label_issues txt) required_labels)
        ++ concat (map (title_issues lines) required_labels)
        ++ watch_next_issues lines link_mode validated_links
        ++ tags_issues non_empty
        ++ ts_issues).

Definition qa_check (output_text : str) (link_mode : str)
    (validated_links : list validated_link) : option (list str) :=
  map render <$> qa_violations output_text link_mode validated_links.


(** ** Results of calls that may raise *)

(** [Raised msg] is an exception [e] with [str(e) = msg]; every handler of
    the program looks at nothing but that text. *)
Inductive outcome (A : Type) :=
| Returned (a : A)
| Raised (msg : str).
Arguments Returned {A} a.
Arguments Raised {A} msg.

(** ** The generation client *)

Inductive protocol := Responses | ChatCompletions.

(** One call to the generation service: the protocol, the model and what came
    back ([output_text] of a response, resp. the [content] of the first
    choice, either of which may be [None]). *)
Record attempt := Attempt {
  att_protocol : protocol;
  att_model : str;
  att_result : outcome (option str);
}.

(** The per-job part of the request; the system prompt is a constant.  The
    user message is kept as its three parts. *)
Record payload := Payload {
  pl_link_mode : str;
  pl_validated_links : list validated_link;
  pl_transcript : str;
}.

Definition scope_marker : str := lit "api.responses.write".

Definition empty_chat_response : str := lit "Empty response from chat.completions.".

Definition missing_key_message : str :=
  lit "OPENAI_API_KEY is missing. Go to Settings and save your API key.".

Definition remediation_hint : str :=
  lit "If you see missing scopes (example: api.responses.write), create a Project API key with All permissions "
  ++ lit "or enable Write access for the Responses API in your key permissions.".

(** The text of the RuntimeError raised at the end of
    [call_openai_metadata]. *)
Definition request_failed (last_err : str) : str :=
  lit "OpenAI request failed." ++ nl ++ nl
  ++ lit "Last error: " ++ last_err ++ nl ++ nl
  ++ remediation_hint.

Section Generation.
  (** The generation service is outside the program: it is any pair of
      functions over a state [S] of its own, so that the answer to a call may
      depend on everything sent before. *)
Variable S : Type.

Record service := Service {
    responses_create : str → payload → str → S → outcome (option str) * S;
    chat_completions_create : str → payload → S → outcome (option str) * S;
  }.

Variable client : service.

  (** The first loop: [Some text] when a call returned, [None] when the loop
      ended or was left by [break]; then [last_err], the state of the service
      and the calls made. *)
Fixpoint responses_pass (msg : payload) (effort : str) (models : list str)
      (last_err : str) (s : S) : option str * str * S * list attempt :=
    match models with
    | [] => (None, last_err, s, [])
    | model_name :: models' =>
        let '(r, s') := responses_create client model_name msg effort s in
        let a := Attempt Responses model_name r in
        match r with
        | Returned text => (Some (strip (default [] text)), last_err, s', [a])
        | Raised e =>
            if contains scope_marker e then (None, e, s', [a])
            else
              let '(res, err, s'', log) :=
                responses_pass msg effort models' e s' in
              (res, err, s'', a :: log)
        end
    end.

  (** The second loop. *)
Fixpoint chat_pass (msg : payload) (models : list str) (last_err : str)
      (s : S) : option str * str * S * list attempt :=
    match models with
    | [] => (None, last_err, s, [])
    | model_name :: models' =>
        let '(r, s') := chat_completions_create client model_name msg s in
        let a := Attempt ChatCompletions model_name r in
        let continue err :=
          let '(res, err', s'', log) := chat_pass msg models' err s' in
          (res, err', s'', a :: log) in
        match r with
        | Returned content =>
            match strip (default [] content) with
            | [] => continue empty_chat_response
            | out => (Some out, last_err, s', [a])
            end
        | Raised e => continue e
        end
    end.

Definition models_to_try (cfg : gmap str str) : list str :=
    let primary :=
      strip (default (lit "gpt-5.2-thinking") (cfg !! lit "OPENAI_MODEL")) in
    let fallbacks :=
      filter (λ m, m ≠ [])
        (map strip
           (split 44%N (default [] (cfg !! lit "OPENAI_FALLBACK_MODELS")))) in
    primary :: filter (λ m, m ≠ primary) fallbacks.

Definition reasoning_effort (cfg : gmap str str) : str :=
    let effort :=
      lower (strip (match cfg !! lit "REASONING_EFFORT" with
                    | Some (_ :: _ as e) => e
                    | _ => lit "high"
                    end)) in
    if bool_decide (effort ∈ [lit "low"; lit "medium"; lit "high"])
    then effort else lit "high".

  (** The result, the state of the service afterwards and the calls made, in
      order. *)
Definition call_openai_metadata (transcript : str) (link_mode : str)
      (validated_links : list validated_link) (cfg : gmap str str) (s : S)
      : outcome str * S * list attempt :=
    let msg := Payload link_mode validated_links transcript in
    let models := models_to_try cfg in
    let api_key := strip (default [] (cfg !! lit "OPENAI_API_KEY")) in
    let effort := reasoning_effort cfg in
    match api_key with
    | [] => (Raised missing_key_message, s, [])
    | _ =>
        let '(res1, last_err, s1, log1) :=
          responses_pass msg effort models [] s in
        match res1 with
        | Some text => (Returned text, s1, log1)
        | None =>
            let '(res2, last_err, s2, log2) :=
              chat_pass msg models last_err s1 in
            match res2 with
            | Some out => (Returned out, s2, log1 ++ log2)
            | None => (Raised (request_failed last_err), s2, log1 ++ log2)
            end
        end
    end.
End Generation.

Arguments Service {S} _ _.
Arguments responses_create {S} _ _ _ _ _.
Arguments chat_completions_create {S} _ _ _ _.
Arguments responses_pass {S} _ _ _ _ _ _.
Arguments chat_pass {S} _ _ _ _ _.
Arguments call_openai_metadata {S} _ _ _ _ _ _.

(** ** Link parsing *)

Definition parse_links (text : str) : list str :=
  let lines := filter (λ l, l ≠ []) (map strip (splitlines text)) in
  filter (λ l, startswith (lit "http://") l || startswith (lit "https://") l = true)
         lines.

(** ** Jobs *)

Record job := Job {
  job_id : str;
  progress : Z;
  stage : str;
  done : bool;
  error : option str;
  transcript : str;
  metadata : str;
  qa_issues : list str;
  qa_pass : option bool;
}.

(** A keyword argument of [update_job]. *)
Inductive kwarg :=
| KwProgress (p : Z)
| KwStage (s : str)
| KwDone (b : bool)
| KwError (e : str)
| KwTranscript (t : str)
| KwMetadata (m : str)
| KwQaIssues (l : list str)
| KwQaPass (b : bool).

Definition set_field (j : job) (kw : kwarg) : job :=
  match kw with
  | KwProgress p => Job (job_id j) p (stage j) (done j) (error j) (transcript j) (metadata j) (qa_issues j) (qa_pass j)
  | KwStage s => Job (job_id j) (progress j) s (done j) (error j) (transcript j) (metadata j) (qa_issues j) (qa_pass j)
  | KwDone b => Job (job_id j) (progress j) (stage j) b (error j) (transcript j) (metadata j) (qa_issues j) (qa_pass j)
  | KwError e => Job (job_id j) (progress j) (stage j) (done j) (Some e) (transcript j) (metadata j) (qa_issues j) (qa_pass j)
  | KwTranscript t => Job (job_id j) (progress j) (stage j) (done j) (error j) t (metadata j) (qa_issues j) (qa_pass j)
  | KwMetadata m => Job (job_id j) (progress j) (stage j) (done j) (error j) (transcript j) m (qa_issues j) (qa_pass j)
  | KwQaIssues l => Job (job_id j) (progress j) (stage j) (done j) (error j) (transcript j) (metadata j) l (qa_pass j)
  | KwQaPass b => Job (job_id j) (progress j) (stage j) (done j) (error j) (transcript j) (metadata j) (qa_issues j) (Some b)
  end.

(** [jobs[job_id].update(kwargs)] *)
Definition dict_update (j : job) (kwargs : list kwarg) : job :=
  foldl set_field j kwargs.

(** The registry [jobs], and [update_job] on it: an unknown id changes
    nothing. *)
Definition update_job_in (jobs : gmap str job) (id : str)
    (kwargs : list kwarg) : gmap str job :=
  match jobs !! id with
  | Some j => <[id := dict_update j kwargs]> jobs
  | None => jobs
  end.

Definition ellipsis : char := 0x2026%N.

(** The record [api_start] stores before it starts the worker. *)
Definition new_job (id : str) : job :=
  {| job_id := id;
     progress := 1;
     stage := lit "Queued" ++ [ellipsis];
     done := false;
     error := None;
     transcript := [];
     metadata := [];
     qa_issues := [];
     qa_pass := None |}.

Definition hard_stop_message : str :=
  lit "I can see the uploaded video file." ++ nl
  ++ lit "Have you checked the sheet for uploaded video links?" ++ nl
  ++ lit "Please check the reporting sheet. You can find the uploaded video links from the reporting sheet. Use YouTube channel filters. Then copy and paste all the YouTube links from the sheet.".

Definition empty_transcript_message : str :=
  lit "Transcript is empty. Check the audio track in your file.".

(** ** Transcript lines and progress *)

(** A speech segment.  Times are the rationals the floating-point values
    stand for; arithmetic on them is exact here. *)
Record segment := Segment {
  seg_start : Q;
  seg_end : Q;
  seg_text : str;
}.

(** [int(x)] on a number: truncation towards zero. *)
Definition int_of_Q (x : Q) : Z := Z.quot (Qnum x) (Zpos (Qden x)).

(** [format(n, "02d")] *)
Definition format_02d (n : Z) : str :=
  let digits := str_of_N (Z.abs_N n) in
  if (n <? 0)%Z then 45%N :: digits
  else if length digits <? 2 then 48%N :: digits
  else digits.

(** The transcript line of a segment:
    [f"{int(s.start//60):02d}:{int(s.start%60):02d} {s.text.strip()}"]. *)
Definition transcript_line (s : segment) : str :=
  let minutes := Qfloor (seg_start s / 60) in
  let seconds := int_of_Q (seg_start s - 60 * inject_Z minutes) in
  format_02d minutes ++ lit ":" ++ format_02d seconds ++ lit " "
  ++ strip (seg_text s).

(** [20 + int(55 * min(1.0, float(s.end) / dur))], over the rationals: the
    source divides and multiplies in binary floating point, whose rounding
    can move the integer part by one (end 3 and duration 11 give 34 in the
    source and 35 here).  Nothing below depends on the exact integer: the
    properties use the bound [_ ≤ 75] only, which holds of the rounded
    result as well, [min(1.0, _)] being at most 1 before the product. *)
Definition segment_progress (dur : Q) (s : segment) : Z :=
  let ratio := (seg_end s / dur)%Q in
  let covered := if Qlt_le_dec ratio 1 then ratio else 1%Q in
  (20 + int_of_Q (55 * covered))%Z.

(** ** The worker *)

Inductive callee :=
| MakeTempDir
| CopyUpload
| ExtractAudio
| ProbeDuration
| LoadWhisper
| Transcribe
| ValidateLinks
| LoadConfig
| QaCheck
| CleanupTempDir
| Unlink.

(** What a run of the worker does, in order: updates of the registry, calls
    to the collaborators, and the calls of the generation client. *)
Inductive event :=
| EvUpdate (id : str) (kwargs : list kwarg)
| EvCall (c : callee)
| EvGenerate (attempts : list attempt).

Section Worker.
Variable S : Type.

  (** What the surroundings answer during one run.  [temporary_directory] is
      the making of the temporary directory and [cleanup] its removal when
      the [with] block is left.  The segments come from a lazy generator:
      [transcribe] hands over those it yields and, possibly, the exception
      that ends the iteration. *)
Record env := Env {
    temporary_directory : outcome unit;
    copy_upload : outcome unit;
    extract_audio_wav_16k_mono : outcome unit;
    ffprobe_duration : Q;
    get_whisper : outcome unit;
    transcribe : outcome (list segment * option str);
    fetch_links : list str → outcome (list validated_link);
    load_runtime_config : outcome (gmap str str);
    client : service S;
    cleanup : outcome unit;
    unlink : outcome unit;
  }.

Record world := World {
    jobs : gmap str job;
    trace : list event;
    svc : S;
  }.

  (** Computations of the worker: they change the world and return or
      raise. *)
Definition M (A : Type) : Type := world → outcome A * world.

Definition ret {A} (a : A) : M A := λ w, (Returned a, w).

Definition raise {A} (msg : str) : M A := λ w, (Raised msg, w).

Definition bind {A B} (m : M A) (k : A → M B) : M B :=
    λ w, match m w with
         | (Returned a, w') => k a w'
         | (Raised msg, w') => (Raised msg, w')
         end.

  (** A call to a collaborator with the answer [r]. *)
Definition call {A} (c : callee) (r : outcome A) : M A :=
    λ w, (r, World (jobs w) (trace w ++ [EvCall c]) (svc w)).

Definition update_job (id : str) (kwargs : list kwarg) : M unit :=
    λ w, (Returned tt,
          World (update_job_in (jobs w) id kwargs)
                (trace w ++ [EvUpdate id kwargs]) (svc w)).
End Worker.

Arguments ret {S A} a.
Arguments raise {S A} msg.
Arguments bind {S A B} m k.
Arguments call {S A} c r.
Arguments update_job {S} id kwargs.
Arguments World {S} _ _ _.
Arguments jobs {S} _.
Arguments trace {S} _.
Arguments svc {S} _.
Arguments temporary_directory {S} _.
Arguments copy_upload {S} _.
Arguments extract_audio_wav_16k_mono {S} _.
Arguments ffprobe_duration {S} _.
Arguments get_whisper {S} _.
Arguments transcribe {S} _.
Arguments fetch_links {S} _ _.
Arguments load_runtime_config {S} _.
Arguments client {S} _.
Arguments cleanup {S} _.
Arguments unlink {S} _.

Notation "'let*' x ':=' m 'in' k" := (bind m (λ x, k))
  (at level 10, x pattern, m at level 100, k at level 200).
Notation "m ';;' k" := (bind m (λ _, k))
  (at level 100, k at level 200, right associativity).

Definition transcribing : str := lit "Transcribing audio" ++ [ellipsis].

(** The text of the ValueError that [int] would raise inside [qa_check];
    by [qa_check_returns] none is ever raised there. *)
Definition value_error_message : str := lit "invalid literal for int() with base 10".

(** The segment loop: [lines] and [last_pct] are the loop's variables. *)
Fixpoint transcribe_loop {S} (id : str) (dur : Q) (segments : list segment)
    (lines : list str) (last_pct : Z) : M S (list str) :=
  match segments with
  | [] => ret lines
  | s :: segments' =>
      let lines := lines ++ [transcript_line s] in
      if Qlt_le_dec 0 dur then
        let p := segment_progress dur s in
        if (last_pct <? p)%Z then
          update_job id [KwProgress p; KwStage transcribing] ;;
          transcribe_loop id dur segments' lines p
        else transcribe_loop id dur segments' lines last_pct
      else transcribe_loop id dur segments' lines last_pct
  end.

(** [validate_links]: without URLs nothing is fetched. *)
Definition validate_links {S} (e : env S) (urls : list str)
    : M S (list validated_link) :=
  call ValidateLinks
    (match urls with [] => Returned [] | _ => fetch_links e urls end).

(** The call of the generation client, on the service of the run. *)
Definition generate {S} (e : env S) (transcript link_mode : str)
    (validated : list validated_link) (cfg : gmap str str) : M S str :=
  λ w,
    let '(r, s', attempts) :=
      call_openai_metadata (client e) transcript link_mode validated cfg (svc w) in
    (r, World (jobs w) (trace w ++ [EvGenerate attempts]) s').

(** [with tempfile.TemporaryDirectory() as td: body]: the directory is made,
    the body runs, and the directory is removed whether the body returns or
    raises; an exception of the removal takes the place of the one in
    flight. *)
Definition with_temporary_directory {S A} (e : env S) (body : M S A) : M S A :=
  call MakeTempDir (temporary_directory e) ;;
  λ w, let '(r, w1) := body w in
       match call CleanupTempDir (cleanup e) w1 with
       | (Returned _, w2) => (r, w2)
       | (Raised msg, w2) => (Raised msg, w2)
       end.

(** The body of the [with] block of [worker]. *)
Definition in_temporary_directory {S} (e : env S)
    (id link_mode links_text : str) : M S unit :=
  call CopyUpload (copy_upload e) ;;
  call ExtractAudio (extract_audio_wav_16k_mono e) ;;
  let* dur := call ProbeDuration (Returned (ffprobe_duration e)) in
  update_job id
    [ KwProgress 15;
      KwStage (lit "Loading speech model" ++ [ellipsis]
               ++ lit " (first run may take time)") ] ;;
  call LoadWhisper (get_whisper e) ;;
  update_job id [KwProgress 20; KwStage transcribing] ;;
  let* yielded := call Transcribe (transcribe e) in
  let* lines := transcribe_loop id dur yielded.1 [] 20 in
  match yielded.2 with Some msg => raise msg | None => ret tt end ;;
  let transcript := strip (join nl lines) in
  match transcript with [] => raise empty_transcript_message | _ => ret tt end ;;
  update_job id [KwProgress 80; KwStage (lit "Validating links" ++ [ellipsis])] ;;
  let urls := parse_links links_text in
  let* validated :=
    if bool_decide (link_mode = lit "provided") && bool_decide (urls ≠ [])
    then validate_links e urls else ret [] in
  update_job id [KwProgress 88; KwStage (lit "Generating metadata" ++ [ellipsis])] ;;
  let* cfg := call LoadConfig (load_runtime_config e) in
  let* metadata := generate e transcript link_mode validated cfg in
  update_job id [KwProgress 96; KwStage (lit "Final process check" ++ [ellipsis])] ;;
  let* issues :=
    call QaCheck
      (match qa_check metadata link_mode validated with
       | Some issues => Returned issues
       | None => Raised value_error_message
       end) in
  update_job id [KwQaIssues issues; KwQaPass (length issues =? 0)] ;;
  update_job id
    [ KwProgress 100; KwStage (lit "Done."); KwDone true;
      KwTranscript transcript; KwMetadata metadata ].

(** The body of the [try] block of [worker]. *)
Definition worker_body {S} (e : env S)
    (id uploaded_path link_mode links_text : str) : M S unit :=
  if bool_decide (link_mode = lit "not_provided") then
    update_job id
      [ KwProgress 100; KwStage (lit "Stopped (Hard Stop)."); KwDone true;
        KwTranscript []; KwMetadata hard_stop_message; KwQaPass true;
        KwQaIssues [] ]
  else
    update_job id [KwProgress 5; KwStage (lit "Extracting audio" ++ [ellipsis])] ;;
    with_temporary_directory e (in_temporary_directory e id link_mode links_text).

(** [worker]: the [try] block, the handler of any exception, and the removal
    of the upload, whose failure is ignored. *)
Definition worker {S} (e : env S)
    (id uploaded_path link_mode links_text : str) (w : world S) : world S :=
  let '(r, w1) := worker_body e id uploaded_path link_mode links_text w in
  let w2 :=
    match r with
    | Returned _ => w1
    | Raised msg =>
        (update_job id
           [KwDone true; KwError msg; KwStage (lit "Error"); KwProgress 100]
           w1).2
    end in
  (call Unlink (unlink e) w2).2.

(** The registry after the updates of a trace. *)
Fixpoint replay (jobs : gmap str job) (tr : list event) : gmap str job :=
  match tr with
  | [] => jobs
  | EvUpdate id kwargs :: tr' => replay (update_job_in jobs id kwargs) tr'
  | _ :: tr' => replay jobs tr'
  end.

(** The value of [progress] of job [id] after each update of a trace. *)
Fixpoint progress_log (jobs : gmap str job) (id : str) (tr : list event)
    : list Z :=
  match tr with
  | [] => []
  | EvUpdate i kwargs :: tr' =>
      let jobs' := update_job_in jobs i kwargs in
      match jobs' !! id with
      | Some j => progress j :: progress_log jobs' id tr'
      | None => progress_log jobs' id tr'
      end
  | _ :: tr' => progress_log jobs id tr'
  end.

(** ** Vocabulary of the statements, and sample data *)

(** What is left to read after the boundary [c]. *)
Definition after_break (c : char) (s' : str) : str :=
  match s' with
  | d :: s'' => if (c =? 13)%N && (d =? 10)%N then s'' else s'
  | [] => []
  end.

Definition ascii_digit (c : char) : Prop := (48 ≤ c ≤ 57)%N.

(** [non_empty] of the source. *)
Definition non_empty_lines (txt : str) : list str :=
  map strip (filter (λ l, is_blank l = false) (splitlines txt)).

(** The rule a violation belongs to. *)
Definition rule_of (i : issue) : nat :=
  match i with
  | DashFound => 0
  | MissingLabel _ => 1
  | NoTitleText _ | TitleLength _ _ => 2
  | WatchNextNotProvided | WatchNextNoValidLinks => 3
  | TagsNotDetected | TagsTooLong _ => 4
  | TimestampsNotIncreasing | TooManyTimestamps _ => 5
  end.

(** The violations of a run, rule by rule. *)
Record qa_run := QaRun {
  run_dash : list issue;
  run_missing : list issue;
  run_titles : list issue;
  run_watch : list issue;
  run_tags : list issue;
  run_timestamps : list issue;
}.

Definition run_all (r : qa_run) : list issue :=
  run_dash r ++ run_missing r ++ run_titles r ++ run_watch r ++ run_tags r
  ++ run_timestamps r.

Definition run_rule (r : qa_run) (k : nat) : list issue :=
  match k with
  | 0 => run_dash r
  | 1 => run_missing r
  | 2 => run_titles r
  | 3 => run_watch r
  | 4 => run_tags r
  | _ => run_timestamps r
  end.

Definition run_sorted (r : qa_run) : Prop :=
  Forall (λ i, rule_of i = 0) (run_dash r)
  ∧ Forall (λ i, rule_of i = 1) (run_missing r)
  ∧ Forall (λ i, rule_of i = 2) (run_titles r)
  ∧ Forall (λ i, rule_of i = 3) (run_watch r)
  ∧ Forall (λ i, rule_of i = 4) (run_tags r)
  ∧ Forall (λ i, rule_of i = 5) (run_timestamps r).

Definition qa_run_of (txt lm : str) (vl : list validated_link)
    (ts_issues : list issue) : qa_run :=
  {| run_dash := dash_issues txt;
     run_missing := concat (map (missing_label_issues txt) required_labels);
     run_titles := concat (map (title_issues (splitlines txt)) required_labels);
     run_watch := watch_next_issues (splitlines txt) lm vl;
     run_tags := tags_issues (non_empty_lines txt);
     run_timestamps := ts_issues |}.

(** [x] is the character [y] of a lower-case literal, or its capital. *)
Definition same_letter (x y : char) : Prop :=
  x = y ∨ ((65 ≤ x ≤ 90)%N ∧ (x + 32)%N = y).

(** [s] begins with [p], case ignored. *)
Definition starts_ignoring_case (p s : str) : Prop :=
  ∃ a r, s = a ++ r ∧ Forall2 same_letter a p.

(** The characters of a literal on which [lower] decides the comparison the
    plain way: ASCII, no capital, and neither i nor k. *)
Definition plain_lower (y : char) : Prop :=
  (y < 128)%N ∧ ¬ (65 ≤ y ≤ 90)%N ∧ y ≠ 0x69%N ∧ y ≠ 0x6b%N.

Definition comma : char := 44%N.

(** [issues.count(x)] *)
Definition occurrences (x : str) (issues : list str) : nat :=
  length (filter (λ y, y = x) issues).

Global Instance issue_eq_dec : EqDecision issue.
Proof. solve_decision. Defined.

Definition label1 : str := lit "Option 1 (Highest SEO Reach)".

Definition embedded_label_text : str :=
  lit "Use Option 1 (Highest SEO Reach) as the title".

(** A text with the first label, a blank line, a title of [n] characters and
    a tags line. *)
Definition titled_text (n : nat) : str :=
  label1 ++ nl ++ lit "  " ++ nl ++ repeat 120%N n ++ nl ++ lit "maths, algebra".

(** A text whose last line that is not blank has [n] characters, the first of
    them a comma when [with_comma] is set. *)
Definition tagged_text (with_comma : bool) (n : nat) : str :=
  lit "intro" ++ nl
  ++ (if with_comma then comma :: repeat 120%N (n - 1) else repeat 120%N n)
  ++ nl ++ lit "   " ++ nl.



(** A text with a "Type" line followed by two timestamp lines. *)
Definition timed_text (t1 t2 : str) : str :=
  lit "Problems" ++ nl ++ lit "TYPE of question" ++ nl
  ++ t1 ++ lit " first" ++ nl ++ lit "no timestamp here" ++ nl
  ++ t2 ++ lit " second" ++ nl ++ lit "maths, algebra".

(** The text an attempt hands back: any returned text under the first
    protocol, a returned text that is not empty under the second. *)
Definition attempt_text (a : attempt) : option str :=
  match att_result a with
  | Raised _ => None
  | Returned x =>
      let out := strip (default [] x) in
      match att_protocol a, out with
      | ChatCompletions, [] => None
      | _, _ => Some out
      end
  end.

(** The error recorded for an attempt that handed back no text. *)
Definition attempt_error (a : attempt) : str :=
  match att_result a with
  | Raised e => e
  | Returned _ => empty_chat_response
  end.

(** [last_err] after the attempts [log], [d] being its value before. *)
Definition last_error (d : str) (log : list attempt) : str :=
  match last log with
  | Some a => attempt_error a
  | None => d
  end.

(** A failure of the first protocol that names the missing scope. *)
Definition scope_failure (a : attempt) : Prop :=
  att_protocol a = Responses
  ∧ ∃ e, att_result a = Raised e ∧ contains scope_marker e = true.

(** A failure that does not. *)
Definition plain_failure (a : attempt) : Prop :=
  ∃ e, att_result a = Raised e ∧ contains scope_marker e = false.

Definition attempt_key (a : attempt) : protocol * str :=
  (att_protocol a, att_model a).

(** The attempts of a log are the answers of the service, each call made in
    the state the call before left. *)
Inductive served {S} (cl : service S) (msg : payload) (effort : str)
  : S → list attempt → S → Prop :=
| served_nil s : served cl msg effort s [] s
| served_responses s model r s' log s'' :
    responses_create cl model msg effort s = (r, s') →
    served cl msg effort s' log s'' →
    served cl msg effort s (Attempt Responses model r :: log) s''
| served_chat s model r s' log s'' :
    chat_completions_create cl model msg s = (r, s') →
    served cl msg effort s' log s'' →
    served cl msg effort s (Attempt ChatCompletions model r :: log) s''.

(** A service that answers by model name and counts the calls. *)
Definition named_service (first second : str → outcome (option str))
    : service nat :=
  Service (λ model _ _ n, (first model, S n)) (λ model _ n, (second model, S n)).

Definition demo_cfg : gmap str str :=
  <[lit "OPENAI_API_KEY" := lit "sk-test"]>
    (<[lit "OPENAI_MODEL" := lit "m1"]>
       (<[lit "OPENAI_FALLBACK_MODELS" := lit "m2, m1 ,m3"]> ∅)).

(** Settings that name the fallback "m2" three times. *)
Definition repeated_cfg : gmap str str :=
  <[lit "OPENAI_API_KEY" := lit "sk-test"]>
    (<[lit "OPENAI_MODEL" := lit "m1"]>
       (<[lit "OPENAI_FALLBACK_MODELS" := lit "m2,m2,m3,m2"]> ∅)).

(** The first protocol is refused for want of the scope on the first model;
    the second protocol answers nothing on the first model and a text on the
    second. *)
Definition scope_client : service nat :=
  named_service
    (λ _, Raised (lit "You have insufficient permissions. Missing scopes: api.responses.write"))
    (λ model, if bool_decide (model = lit "m2")
              then Returned (Some (lit " a title "))
              else Returned None).

Definition scope_log : list attempt :=
  [ Attempt Responses (lit "m1")
      (Raised (lit "You have insufficient permissions. Missing scopes: api.responses.write"));
    Attempt ChatCompletions (lit "m1") (Returned None);
    Attempt ChatCompletions (lit "m2") (Returned (Some (lit " a title "))) ].

Definition demo_env : env nat :=
  {| temporary_directory := Returned tt;
     copy_upload := Returned tt;
     extract_audio_wav_16k_mono := Returned tt;
     ffprobe_duration := 10;
     get_whisper := Returned tt;
     transcribe := Returned ([], None);
     fetch_links := λ _, Returned [];
     load_runtime_config := Returned demo_cfg;
     client := scope_client;
     cleanup := Returned tt;
     unlink := Returned tt |}.

(** The surroundings of [demo_env], but the temporary directory cannot be
    removed. *)
Definition cleanup_fails_env : env nat :=
  {| temporary_directory := Returned tt;
     copy_upload := Returned tt;
     extract_audio_wav_16k_mono := Returned tt;
     ffprobe_duration := 10;
     get_whisper := Returned tt;
     transcribe := Returned ([], None);
     fetch_links := λ _, Returned [];
     load_runtime_config := Returned demo_cfg;
     client := scope_client;
     cleanup := Raised (lit "[Errno 16] Device or resource busy");
     unlink := Returned tt |}.

Definition demo_id : str := lit "0123456789".

Definition demo_world : world nat :=
  World (<[demo_id := new_job demo_id]> ∅) [] 0.

(** A list of values that never go down, starting from [lo]. *)
Fixpoint ascending (lo : Z) (l : list Z) : Prop :=
  match l with
  | [] => True
  | p :: l' => (lo ≤ p)%Z ∧ ascending p l'
  end.

(** The state of a run seen from the job [id]: the registry is what the
    updates of the trace make of [jobs0], the progress values written so far
    never went down, and the current one lies between [lo] and [hi]. *)
Definition tracked {S : Type} (jobs0 : gmap str job) (id : str) (j0 : job)
    (lo hi : Z) (w : world S) : Prop :=
  jobs w = replay jobs0 (trace w)
  ∧ ascending (progress j0) (progress_log jobs0 id (trace w))
  ∧ ∃ j, jobs w !! id = Some j
         ∧ progress j
           = default (progress j0) (last (progress_log jobs0 id (trace w)))
         ∧ (lo ≤ progress j ≤ hi)%Z.

(** [m] takes a state with progress in [lo, hi] to one with progress in
    [lo', hi'] when it returns, and to one with progress at most 100 when it
    raises. *)
Definition hoare {S : Type} (jobs0 : gmap str job) (id : str) (j0 : job) {A}
    (lo hi : Z) (m : M S A) (lo' hi' : Z) : Prop :=
  ∀ w, tracked jobs0 id j0 lo hi w →
    match m w with
    | (Returned _, w') => tracked jobs0 id j0 lo' hi' w'
    | (Raised _, w') => tracked jobs0 id j0 (progress j0) 100 w'
    end.

(** A run over three segments of a recording of ten seconds; the second
    segment ends before the first, the third past the end. *)
Definition talk_env : env nat :=
  {| temporary_directory := Returned tt;
     copy_upload := Returned tt;
     extract_audio_wav_16k_mono := Returned tt;
     ffprobe_duration := 10;
     get_whisper := Returned tt;
     transcribe :=
       Returned ([ Segment 0 5 (lit " Hello. ");
                   Segment (5 # 2) 3 (lit "Welcome back.");
                   Segment 65 (25 # 2) (lit "Goodbye.") ], None);
     fetch_links := λ _, Returned [];
     load_runtime_config := Returned demo_cfg;
     client := scope_client;
     cleanup := Returned tt;
     unlink := Raised (lit "permission denied") |}.


(** A list of violations in the order of the rules. *)
Definition rule_ordered (l : list issue) : Prop :=
  ∀ i j a b, i ≤ j → l !! i = Some a → l !! j = Some b → rule_of a ≤ rule_of b.

(** [format_02d n] is two decimal digits with the values [n / 10] and
    [n mod 10]; checked below for every [n] under 100. *)
Definition two_digit_ok (n : nat) : bool :=
  match format_02d (Z.of_nat n) with
  | [a; b] =>
      bool_decide (digit_value a = Some (N.of_nat (n / 10))
                   ∧ digit_value b = Some (N.of_nat (n mod 10)))
  | _ => false
  end.

(** The keyword arguments of the two last updates of a successful run and of
    the hard stop. *)
Definition qa_kwargs (issues : list str) : list kwarg :=
  [KwQaIssues issues; KwQaPass (length issues =? 0)].

Definition done_kwargs (transcript metadata : str) : list kwarg :=
  [ KwProgress 100; KwStage (lit "Done."); KwDone true;
    KwTranscript transcript; KwMetadata metadata ].

Definition hard_stop_kwargs : list kwarg :=
  [ KwProgress 100; KwStage (lit "Stopped (Hard Stop)."); KwDone true;
    KwTranscript []; KwMetadata hard_stop_message; KwQaPass true;
    KwQaIssues [] ].

Definition error_kwargs (msg : str) : list kwarg :=
  [KwDone true; KwError msg; KwStage (lit "Error"); KwProgress 100].

(** Two records that differ at most in [progress] and [stage]. *)
Definition same_results (j j' : job) : Prop :=
  job_id j' = job_id j ∧ done j' = done j ∧ error j' = error j
  ∧ transcript j' = transcript j ∧ metadata j' = metadata j
  ∧ qa_issues j' = qa_issues j ∧ qa_pass j' = qa_pass j.

(** The worlds a run passes through before the results are stored: the job
    is there, with the results it had. *)
Definition running {S : Type} (id : str) (j0 : job) (w : world S) : Prop :=
  ∃ j, jobs w !! id = Some j ∧ same_results j0 j.

(** [m] keeps the property [I] of the world, whether it returns or raises. *)
Definition keeps {S A : Type} (I : world S → Prop) (m : M S A) : Prop :=
  ∀ w, I w → I (m w).2.

(** A list of values that go up at every step, starting above [lo]. *)
Fixpoint climbing (lo : Z) (l : list Z) : Prop :=
  match l with
  | [] => True
  | p :: l' => (lo < p)%Z ∧ climbing p l'
  end.

(** ** Link validation in detail *)

Module Links.

(** What [h.get(u)] hands back: [r.status_code] and [r.text]. *)
Record response := Response {
  status_code : N;
  text : str;
}.

Definition quote : char := 34%N.

Definition og_title_prefix : str :=
  lit "property=" ++ [quote] ++ lit "og:title" ++ [quote].

Definition og_content_prefix : str := lit "content=" ++ [quote].

(** The characters before the first quote, [None] without a quote. *)
Fixpoint until_quote (s : str) : option str :=
  match s with
  | [] => None
  | c :: s' => if (c =? quote)%N then Some [] else cons c <$> until_quote s'
  end.

(** The end of the pattern, from [content=] on, giving the group: a longest
    run of characters other than the quote, of one character at least,
    before a quote. *)
Definition og_content (s : str) : option str :=
  if startswith og_content_prefix s then
    match until_quote (drop (length og_content_prefix) s) with
    | Some (c :: t) => Some (c :: t)
    | _ => None
    end
  else None.

(** [\s*] and the end of the pattern, with the backtracking of the greedy
    [\s+]. *)
Fixpoint og_ws_star_content (s : str) : option str :=
  match s with
  | c :: s' =>
      if isspace c then
        match og_ws_star_content s' with
        | Some t => Some t
        | None => og_content s
        end
      else og_content s
  | [] => og_content s
  end.

(** The pattern at the start of [s]. *)
Definition match_og_title (s : str) : option str :=
  if startswith og_title_prefix s then
    match drop (length og_title_prefix) s with
    | w :: rest => if isspace w then og_ws_star_content rest else None
    | [] => None
    end
  else None.

(** [re.search(r'property=.og:title.\s+content=.([^.]+).', html)] with the
    quote for each of the four dots and in the class, returning [m.group(1)]:
    the match that starts first. *)
Fixpoint search_og_title (html : str) : option str :=
  match match_og_title html with
  | Some t => Some t
  | None =>
      match html with
      | [] => None
      | _ :: html' => search_og_title html'
      end
  end.

(** The body of the loop of [validate_links] for the URL [u], given what the
    request gave. *)
Definition check_link (u : str) (r : outcome response) : validated_link :=
  match r with
  | Raised msg => ValidatedLink u false [] msg
  | Returned r =>
      if bool_decide (status_code r ≠ 200%N) then
        ValidatedLink u false [] (lit "HTTP " ++ str_of_N (status_code r))
      else
        let html := text r in
        let low := lower html in
        if contains (lit "video unavailable") low
           || contains (lit "private video") low
        then ValidatedLink u false [] (lit "Unavailable/private")
        else
          ValidatedLink u true
            (match search_og_title html with
             | Some t => strip t
             | None => []
             end) []
  end.

Section Client.
Context {S : Type}.
(** [h.get(u, ...)] on the network in the state [s]. *)
Variable get : str → S → outcome response * S.

Fixpoint check_links (urls : list str) (s : S) : list validated_link * S :=
  match urls with
  | [] => ([], s)
  | u :: urls' =>
      let '(r, s1) := get u s in
      let '(results, s2) := check_links urls' s1 in
      (check_link u r :: results, s2)
  end.

(** [validate_links]; [open_client] is what the construction of
    [httpx.Client] does. *)
Definition validate_links (open_client : outcome unit) (urls : list str) (s : S)
    : outcome (list validated_link) * S :=
  match urls with
  | [] => (Returned [], s)
  | _ =>
      match open_client with
      | Raised msg => (Raised msg, s)
      | Returned _ =>
          let '(results, s') := check_links urls s in (Returned results, s')
      end
  end.
End Client.

End Links.

(** ** The stored settings *)

Module Config.

(** The file [ft_config.json] as [load_runtime_config] finds it.  For a file
    that holds a JSON object, [data] gives for each key [None] for a null
    and [Some (str(v))] for any other value [v]. *)
Inductive config_file :=
| Missing
| Unreadable
| NotAnObject
| Object (data : gmap str (option str)).

(** [os.getenv(k) or dflt] and [request.form.get(k) or dflt] *)
Definition get_or (m : gmap str str) (k : str) (dflt : str) : str :=
  match m !! k with
  | Some (c :: v) => c :: v
  | _ => dflt
  end.

Definition efforts : list str := [lit "low"; lit "medium"; lit "high"].

(** [load_runtime_config]; [None] stands for the KeyError of
    [cfg["REASONING_EFFORT"]]. *)
Definition load_runtime_config (environ : gmap str str) (file : config_file)
    : option (gmap str str) :=
  let cfg : gmap str str :=
    <[lit "REASONING_EFFORT" :=
        lower (strip (get_or environ (lit "REASONING_EFFORT") (lit "high")))]>
    (<[lit "OPENAI_FALLBACK_MODELS" :=
         strip (get_or environ (lit "OPENAI_FALLBACK_MODELS")
                  (lit "gpt-5-mini,gpt-4o"))]>
     (<[lit "OPENAI_MODEL" :=
          strip (get_or environ (lit "OPENAI_MODEL") (lit "gpt-5.2-thinking"))]>
      (<[lit "OPENAI_API_KEY" :=
           strip (get_or environ (lit "OPENAI_API_KEY") [])]> ∅))) in
  let cfg :=
    match file with
    | Object data => ((λ v, strip (default [] v)) <$> data) ∪ cfg
    | _ => cfg
    end in
  effort ← cfg !! lit "REASONING_EFFORT";
  Some (if bool_decide (effort ∈ efforts) then cfg
        else <[lit "REASONING_EFFORT" := lit "high"]> cfg).

(** [save_runtime_config(new_cfg)].  [write] is what
    [CONFIG_PATH.write_text] does: when it returns, the file holds the JSON
    object with the entries of [new_cfg]; when it raises, the exception
    leaves the function and [failed] is what is left of the file.  A fault of
    [os.chmod] is swallowed. *)
Definition save_runtime_config (new_cfg : gmap str str)
    (write : outcome unit) (failed : config_file)
    : outcome unit * config_file :=
  match write with
  | Returned _ => (Returned tt, Object (Some <$> new_cfg))
  | Raised msg => (Raised msg, failed)
  end.

(** The settings [settings_post] makes of the form. *)
Definition form_settings (form : gmap str str) : gmap str str :=
  <[lit "REASONING_EFFORT" :=
      lower (strip (get_or form (lit "REASONING_EFFORT") (lit "high")))]>
  (<[lit "OPENAI_FALLBACK_MODELS" :=
       strip (get_or form (lit "OPENAI_FALLBACK_MODELS") [])]>
   (<[lit "OPENAI_MODEL" := strip (get_or form (lit "OPENAI_MODEL") [])]>
    (<[lit "OPENAI_API_KEY" := strip (get_or form (lit "OPENAI_API_KEY") [])]>
       ∅))).

(** [settings_post]: the message shown, or the exception that leaves the
    handler, and the file afterwards. *)
Definition settings_post (form : gmap str str) (file : config_file)
    (write : outcome unit) (failed : config_file)
    : outcome str * config_file :=
  let new_cfg := form_settings form in
  match new_cfg !! lit "OPENAI_API_KEY" with
  | Some (_ :: _) =>
      match save_runtime_config new_cfg write failed with
      | (Returned _, file') => (Returned (lit "Saved."), file')
      | (Raised msg, file') => (Raised msg, file')
      end
  | _ => (Returned (lit "API key is required."), file)
  end.

End Config.

(** ** The routes of the jobs *)

Module Api.

(** The two entries of [health_check] that [api_start] reads. *)
Record health := Health {
  ffmpeg : bool;
  ffprobe : bool;
}.

(** What [api_start] reads of the request: the name of the uploaded file,
    [None] without a part "file" and [Some []] for an upload without a
    name, and the two fields of the form. *)
Record start_request := StartRequest {
  filename : option str;
  linkMode : option str;
  links : option str;
}.

Inductive reply :=
| BadRequest (error : str)
| NotFound (error : str)
| ServerError (msg : str)
| JobStarted (job_id : str)
| JobStatus (j : job).

Definition allowed_ext : list str :=
  [lit ".mp4"; lit ".m4a"; lit ".wav"; lit ".webm"].

(** [request.form.get(k) or dflt] *)
Definition field_or (v : option str) (dflt : str) : str :=
  match v with
  | Some (c :: s) => c :: s
  | _ => dflt
  end.

(** The arguments of the thread [api_start] starts:
    [job_id], [uploaded_path], [link_mode] and [links_text]. *)
Record started := Started {
  started_job_id : str;
  uploaded_path : str;
  link_mode : str;
  links_text : str;
}.

Section Start.
(** [Path(name).suffix] and [str(TMP_DIR)]. *)
Variable suffix : str → str.
Variable tmp_dir : str.

(** [api_start] as the login check calls it.  [job_id] is the text of
    [uuid.uuid4().hex[:10]], [save] what [f.save] does and [start] what
    [t.start()] does, after the record of the job has been stored; an
    exception that leaves the handler is the reply [ServerError].  The result
    is the reply, the registry and the thread started, if any. *)
Definition api_start (h : health) (environ : gmap str str)
    (file : Config.config_file) (req : start_request) (job_id : str)
    (save start : outcome unit) (jobs : gmap str job)
    : reply * gmap str job * option started :=
  if negb (ffmpeg h) || negb (ffprobe h) then
    (BadRequest (lit "ffmpeg/ffprobe not found. Install: sudo apt update && sudo apt install -y ffmpeg"),
     jobs, None)
  else
    match Config.load_runtime_config environ file with
    | None => (ServerError (lit "REASONING_EFFORT"), jobs, None)
    | Some cfg =>
        match cfg !! lit "OPENAI_API_KEY" with
        | Some (_ :: _) =>
            match filename req with
            | None => (BadRequest (lit "No file uploaded"), jobs, None)
            | Some [] => (BadRequest (lit "Empty filename"), jobs, None)
            | Some name =>
                let ext := lower (suffix name) in
                if bool_decide (ext ∈ allowed_ext) then
                  let link_mode :=
                    strip (field_or (linkMode req) (lit "checked_no_links")) in
                  let links_text := field_or (links req) [] in
                  let uploaded_path := tmp_dir ++ lit "/" ++ job_id ++ ext in
                  match save with
                  | Raised msg => (ServerError msg, jobs, None)
                  | Returned _ =>
                      let jobs := <[job_id := new_job job_id]> jobs in
                      match start with
                      | Raised msg => (ServerError msg, jobs, None)
                      | Returned _ =>
                          (JobStarted job_id, jobs,
                           Some (Started job_id uploaded_path link_mode
                                   links_text))
                      end
                  end
                else
                  (BadRequest (lit "Unsupported file type: " ++ ext
                               ++ lit ". Use mp4, m4a, wav, webm."),
                   jobs, None)
            end
        | _ =>
            (BadRequest (lit "OPENAI_API_KEY missing. Go to Settings and save your API key."),
             jobs, None)
        end
    end.
End Start.

(** [api_status] *)
Definition api_status (job_id : str) (jobs : gmap str job) : reply :=
  match jobs !! job_id with
  | Some j => JobStatus j
  | None => NotFound (lit "Unknown job id")
  end.

End Api.

(** * Properties *)

(** ** Checks of the string model on concrete values *)

Example splitlines_ex1 :
  splitlines (lit "ab" ++ [10%N] ++ [13%N; 10%N] ++ lit "c" ++ [10%N])
  = [lit "ab"; []; lit "c"].
Proof. reflexivity. Qed.

Example splitlines_ex2 : splitlines [] = [] ∧ splitlines nl = [[]].
Proof. split; reflexivity. Qed.

Example strip_ex1 : strip (lit "  a b " ++ [0xa0%N]) = lit "a b".
Proof. reflexivity. Qed.

Example lower_ex1 : lower (lit "Watch NEXT") = lit "watch next".
Proof. reflexivity. Qed.

Example py_int_ex1 : py_int (lit "07") = Some 7%Z.
Proof. reflexivity. Qed.

Example match_timestamp_ex1 :
  match_timestamp (lit "01:30 intro") = Some (lit "01:30")
  ∧ match_timestamp (lit "01:30") = None
  ∧ match_timestamp (lit "1:30 intro") = None
  ∧ _mmss_to_sec (lit "01:30") = Some 90%Z.
Proof. vm_compute. done. Qed.

Example format_02d_ex1 :
  format_02d 7 = lit "07" ∧ format_02d 123 = lit "123" ∧ format_02d 0 = lit "00".
Proof. vm_compute. done. Qed.

(** ** Strings *)

Lemma lstrip_nil_iff s : lstrip s = [] ↔ Forall (λ c, isspace c = true) s.
Proof.
  induction s as [|c s IH]; simpl.
  - split; auto.
  - destruct (isspace c) eqn:Hc.
    + rewrite IH. split.
      * intros H. constructor; auto.
      * intros H. inversion H; auto.
    + split; [discriminate|]. intros H. inversion H; congruence.
Qed.

Lemma lstrip_suffix s : ∃ ws, s = ws ++ lstrip s ∧ Forall (λ c, isspace c = true) ws.
Proof.
  induction s as [|c s (ws & Hs & Hws)]; simpl.
  - exists []. auto.
  - destruct (isspace c) eqn:Hc.
    + exists (c :: ws). split; [simpl; congruence|constructor; auto].
    + exists []. auto.
Qed.

Lemma lstrip_head_not_space s c r : lstrip s = c :: r → isspace c = false.
Proof.
  induction s as [|d s IH]; simpl; [discriminate|].
  destruct (isspace d) eqn:Hd; [auto|]. intros [= -> _]. done.
Qed.

(** [strip] removes blanks at both ends and nothing else. *)
Lemma strip_decompose s :
  ∃ ws1 ws2, s = ws1 ++ strip s ++ ws2
             ∧ Forall (λ c, isspace c = true) ws1
             ∧ Forall (λ c, isspace c = true) ws2.
Proof.
  destruct (lstrip_suffix s) as (ws1 & Hs & Hws1).
  destruct (lstrip_suffix (rev (lstrip s))) as (ws2 & Hr & Hws2).
  exists ws1, (rev ws2). split_and!; [|done|].
  - unfold strip, rstrip. rewrite <- rev_app_distr, <- Hr, rev_involutive. done.
  - apply Forall_forall. intros c Hc. apply list_elem_of_In, in_rev in Hc.
    rewrite Forall_forall in Hws2. apply Hws2, list_elem_of_In. done.
Qed.

Lemma strip_nil_iff s : strip s = [] ↔ Forall (λ c, isspace c = true) s.
Proof.
  split.
  - intros H. destruct (strip_decompose s) as (ws1 & ws2 & Hs & H1 & H2).
    rewrite H in Hs. rewrite Hs. apply Forall_app. auto.
  - intros H. unfold strip.
    apply lstrip_nil_iff in H. rewrite H. reflexivity.
Qed.

Lemma is_blank_true s : is_blank s = true ↔ strip s = [].
Proof. unfold is_blank. destruct (strip s); split; congruence. Qed.

Lemma is_blank_false s : is_blank s = false ↔ strip s ≠ [].
Proof. unfold is_blank. destruct (strip s); split; congruence. Qed.

(** A character that is not a blank survives [strip]. *)
Lemma strip_keeps s c : c ∈ s → isspace c = false → c ∈ strip s.
Proof.
  intros Hin Hc. destruct (strip_decompose s) as (ws1 & ws2 & Hs & H1 & H2).
  rewrite Hs in Hin. rewrite !elem_of_app in Hin.
  rewrite Forall_forall in H1, H2.
  destruct Hin as [Hin|[Hin|Hin]]; [|done|].
  - apply H1 in Hin. congruence.
  - apply H2 in Hin. congruence.
Qed.

Lemma strip_subset s c : c ∈ strip s → c ∈ s.
Proof.
  intros Hin. destruct (strip_decompose s) as (ws1 & ws2 & Hs & _).
  rewrite Hs, !elem_of_app. auto.
Qed.

Lemma startswith_spec p s : startswith p s = true ↔ ∃ r, s = p ++ r.
Proof.
  revert s. induction p as [|a p IH]; intros s; simpl.
  - split; eauto.
  - destruct s as [|b s].
    + split; [discriminate|]. intros (r & Hr). discriminate.
    + rewrite andb_true_iff, N.eqb_eq, IH. split.
      * intros (-> & r & ->). eauto.
      * intros (r & [= -> ->]). eauto.
Qed.

(** [contains] is the substring test. *)
Lemma contains_spec needle hay :
  contains needle hay = true ↔ ∃ pre post, hay = pre ++ needle ++ post.
Proof.
  induction hay as [|c hay IH]; simpl.
  - rewrite orb_false_r, startswith_spec. split.
    + intros (r & Hr). exists [], r. done.
    + intros (pre & post & H). symmetry in H.
      apply app_eq_nil in H as [-> H]. eauto.
  - rewrite orb_true_iff, startswith_spec, IH. split.
    + intros [(r & Hr)|(pre & post & ->)].
      * exists [], r. done.
      * exists (c :: pre), post. done.
    + intros (pre & post & H). destruct pre as [|d pre]; simpl in H.
      * left. eauto.
      * right. injection H as _ H. eauto.
Qed.

Lemma contains_elem c p hay : contains (c :: p) hay = true → c ∈ hay.
Proof.
  rewrite contains_spec. intros (pre & post & ->).
  rewrite elem_of_app. right. simpl. left.
Qed.

Lemma contains_singleton c hay : contains [c] hay = true ↔ c ∈ hay.
Proof.
  split; [apply contains_elem|].
  intros H. apply list_elem_of_split in H as (pre & post & ->).
  apply contains_spec. exists pre, post. done.
Qed.

(** ** Lines *)

Lemma splitlines_from_cons cur c s' :
  splitlines_from cur (c :: s')
  = if is_linebreak c then rev cur :: splitlines_from [] (after_break c s')
    else splitlines_from (c :: cur) s'.
Proof.
  simpl. destruct (is_linebreak c); [|done].
  destruct s' as [|d s'']; simpl; [done|].
  destruct ((c =? 13)%N && (d =? 10)%N); done.
Qed.

Lemma after_break_length c s' : length (after_break c s') ≤ length s'.
Proof.
  destruct s' as [|d s'']; simpl; [lia|].
  destruct ((c =? 13)%N && (d =? 10)%N); simpl; lia.
Qed.

Lemma after_break_suffix c s' : ∃ skipped, s' = skipped ++ after_break c s'.
Proof.
  destruct s' as [|d s'']; simpl; [by exists []|].
  destruct ((c =? 13)%N && (d =? 10)%N); [by exists [d]|by exists []].
Qed.

(** Induction along the way [splitlines_from] reads its input. *)
Lemma splitlines_from_ind (P : str → str → Prop) :
  (∀ cur, P cur []) →
  (∀ cur c s', is_linebreak c = true → P [] (after_break c s') → P cur (c :: s')) →
  (∀ cur c s', is_linebreak c = false → P (c :: cur) s' → P cur (c :: s')) →
  ∀ s cur, P cur s.
Proof.
  intros Hnil Hbreak Hchar s.
  remember (length s) as n eqn:Hn. revert s Hn.
  induction n as [n IH] using lt_wf_ind. intros s Hn cur.
  destruct s as [|c s']; [apply Hnil|].
  destruct (is_linebreak c) eqn:Hc.
  - apply Hbreak; [done|].
    apply (IH (length (after_break c s'))); [|done].
    pose proof (after_break_length c s'). simpl in Hn. lia.
  - apply Hchar; [done|].
    apply (IH (length s')); [simpl in Hn; lia|done].
Qed.

Lemma elem_of_rev_iff {A} (l : list A) x : x ∈ rev l ↔ x ∈ l.
Proof. rewrite !list_elem_of_In. symmetry. apply in_rev. Qed.

Lemma splitlines_from_nil cur :
  splitlines_from cur [] = match cur with [] => [] | _ => [rev cur] end.
Proof. done. Qed.

(** No line holds a boundary character. *)
Lemma splitlines_from_no_break s cur line c :
  Forall (λ c, is_linebreak c = false) cur →
  line ∈ splitlines_from cur s → c ∈ line → is_linebreak c = false.
Proof.
  revert line c. pattern cur, s. revert s cur.
  apply splitlines_from_ind.
  - intros cur line c Hcur Hline Hc. rewrite splitlines_from_nil in Hline.
    destruct cur as [|d cur]; [by apply elem_of_nil in Hline|].
    apply list_elem_of_singleton in Hline as ->.
    rewrite Forall_forall in Hcur. apply Hcur. by apply elem_of_rev_iff.
  - intros cur c s' Hbr IH line d Hcur Hline Hd.
    rewrite splitlines_from_cons, Hbr in Hline.
    apply elem_of_cons in Hline as [->|Hline].
    + rewrite Forall_forall in Hcur. apply Hcur. by apply elem_of_rev_iff.
    + eapply IH; eauto.
  - intros cur c s' Hbr IH line d Hcur Hline Hd.
    rewrite splitlines_from_cons, Hbr in Hline.
    eapply IH; eauto.
Qed.

Lemma splitlines_no_break s line c :
  line ∈ splitlines s → c ∈ line → is_linebreak c = false.
Proof. apply splitlines_from_no_break. constructor. Qed.

(** Every character that is not a boundary lies on some line. *)
Lemma splitlines_from_covers s cur c :
  is_linebreak c = false → c ∈ cur ∨ c ∈ s →
  ∃ line, line ∈ splitlines_from cur s ∧ c ∈ line.
Proof.
  intros Hc. pattern cur, s. revert s cur.
  apply splitlines_from_ind.
  - intros cur [Hin|Hin]; [|by apply elem_of_nil in Hin].
    rewrite splitlines_from_nil.
    destruct cur as [|d cur]; [by apply elem_of_nil in Hin|].
    exists (rev (d :: cur)). split; [by apply list_elem_of_singleton|].
    by apply elem_of_rev_iff.
  - intros cur b s' Hbr IH Hin.
    rewrite splitlines_from_cons, Hbr.
    destruct Hin as [Hin|Hin].
    + exists (rev cur). split; [left|]. by apply elem_of_rev_iff.
    + apply elem_of_cons in Hin as [->|Hin]; [congruence|].
      destruct (after_break_suffix b s') as (skipped & Hs').
      assert (c ∈ after_break b s') as Hin'.
      { destruct s' as [|d s'']; simpl in *; [done|].
        destruct ((b =? 13)%N && (d =? 10)%N) eqn:Hcr; [|done].
        apply elem_of_cons in Hin as [->|Hin]; [|done].
        apply andb_true_iff in Hcr as [_ Hd]. apply N.eqb_eq in Hd as ->.
        discriminate. }
      destruct IH as (line & Hline & Hcl); [by right|].
      exists line. split; [by right|done].
  - intros cur b s' Hbr IH Hin.
    rewrite splitlines_from_cons, Hbr.
    apply IH. rewrite elem_of_cons.
    destruct Hin as [Hin|Hin]; [by left; right|].
    apply elem_of_cons in Hin as [->|Hin]; [by left; left|by right].
Qed.

Lemma splitlines_covers s c :
  c ∈ s → is_linebreak c = false → ∃ line, line ∈ splitlines s ∧ c ∈ line.
Proof. intros Hin Hc. apply splitlines_from_covers; auto. Qed.

(** Every line is a piece of the text. *)
Lemma splitlines_from_infix s cur line :
  line ∈ splitlines_from cur s → ∃ pre post, rev cur ++ s = pre ++ line ++ post.
Proof.
  revert line. pattern cur, s. revert s cur.
  apply splitlines_from_ind.
  - intros cur line Hline. rewrite splitlines_from_nil in Hline.
    destruct cur as [|d cur]; [by apply elem_of_nil in Hline|].
    apply list_elem_of_singleton in Hline as ->.
    exists [], []. by rewrite !app_nil_r.
  - intros cur c s' Hbr IH line Hline.
    rewrite splitlines_from_cons, Hbr in Hline.
    apply elem_of_cons in Hline as [->|Hline].
    + exists [], (c :: s'). done.
    + destruct (IH _ Hline) as (pre & post & Heq). simpl in Heq.
      destruct (after_break_suffix c s') as (skipped & Hs').
      exists (rev cur ++ c :: skipped ++ pre), post.
      rewrite Hs' at 1. rewrite Heq.
      rewrite <- ?app_assoc; simpl; rewrite <- ?app_assoc; done.
  - intros cur c s' Hbr IH line Hline.
    rewrite splitlines_from_cons, Hbr in Hline.
    destruct (IH _ Hline) as (pre & post & Heq).
    exists pre, post. rewrite <- Heq. simpl. by rewrite <- app_assoc.
Qed.

Lemma splitlines_infix s line :
  line ∈ splitlines s → ∃ pre post, s = pre ++ line ++ post.
Proof. apply (splitlines_from_infix s []). Qed.

(** [rstrip("\n")] finds nothing to remove on a line of [splitlines]. *)
Lemma rstrip_chars_nl_id line :
  (∀ c, c ∈ line → is_linebreak c = false) → rstrip_chars nl line = line.
Proof.
  intros H. unfold rstrip_chars.
  destruct (rev line) as [|c r] eqn:Hrev.
  - apply (f_equal (@rev _)) in Hrev. by rewrite rev_involutive in Hrev.
  - assert (is_linebreak c = false) as Hc.
    { apply H, elem_of_rev_iff. rewrite Hrev. left. }
    assert (lstrip_chars nl (c :: r) = c :: r) as ->.
    { simpl. destruct (c =? 10)%N eqn:Hc10; [|done].
      apply N.eqb_eq in Hc10 as ->. discriminate. }
    rewrite <- Hrev. apply rev_involutive.
Qed.

Lemma lines_of_text txt : map (rstrip_chars nl) (splitlines txt) = splitlines txt.
Proof.
  rewrite <- (map_id (splitlines txt)) at 2.
  apply map_ext_in. intros line Hline.
  apply rstrip_chars_nl_id. intros c Hc.
  eapply splitlines_no_break; [apply list_elem_of_In|]; done.
Qed.

(** A piece of a line of the text is a piece of the text. *)
Lemma line_substring txt line :
  line ∈ splitlines txt → contains (strip line) txt = true.
Proof.
  intros Hline. apply contains_spec.
  destruct (splitlines_infix _ _ Hline) as (pre & post & ->).
  destruct (strip_decompose line) as (ws1 & ws2 & Hs & _).
  exists (pre ++ ws1), (ws2 ++ post).
  rewrite Hs at 1. rewrite <- ?app_assoc; simpl; rewrite <- ?app_assoc; done.
Qed.

(** ** The text of a violation determines the violation *)

Lemma chars_of_uint_digits u : Forall ascii_digit (chars_of_uint u).
Proof.
  induction u; simpl; constructor; auto; unfold ascii_digit; lia.
Qed.

Lemma chars_of_uint_inj u v : chars_of_uint u = chars_of_uint v → u = v.
Proof.
  revert v. induction u; intros v; destruct v; simpl; intros H;
    try discriminate; try done; injection H as H; f_equal; auto.
Qed.

Lemma str_of_nat_inj n m : str_of_nat n = str_of_nat m → n = m.
Proof.
  unfold str_of_nat, str_of_N. intros H.
  apply chars_of_uint_inj, DecimalN.Unsigned.to_uint_inj in H.
  by apply Nat2N.inj.
Qed.

Lemma str_of_nat_digits n : Forall ascii_digit (str_of_nat n).
Proof. apply chars_of_uint_digits. Qed.

(** Two digit strings that are each followed by a character that is not a
    digit end at the same place. *)
Lemma digits_then_inj d1 d2 x y r1 r2 :
  Forall ascii_digit d1 → Forall ascii_digit d2 →
  ¬ ascii_digit x → ¬ ascii_digit y →
  d1 ++ x :: r1 = d2 ++ y :: r2 → d1 = d2 ∧ r1 = r2.
Proof.
  intros H1. revert d2. induction H1 as [|a d1 Ha H1 IH]; intros d2 H2 Hx Hy Heq.
  - destruct d2 as [|b d2]; simpl in Heq.
    + injection Heq as _ Heq. done.
    + injection Heq as -> _. inversion H2; done.
  - destruct d2 as [|b d2]; simpl in Heq.
    + injection Heq as -> _. done.
    + injection Heq as -> Heq. inversion H2; subst.
      destruct (IH d2) as [-> ->]; done.
Qed.

Lemma space_not_digit : ¬ ascii_digit 32%N.
Proof. unfold ascii_digit. lia. Qed.

Lemma render_inj a b : render a = render b → a = b.
Proof.
  destruct a, b; intros H; try discriminate H; try done.
  - apply app_inv_head in H. congruence.
  - apply app_inv_head in H. congruence.
  - cbn [render] in H. apply app_inv_head in H.
    change (lit " after ") with (32%N :: lit "after ") in H.
    apply digits_then_inj in H as [HL H];
      auto using str_of_nat_digits, space_not_digit.
    apply str_of_nat_inj in HL as ->.
    apply app_inv_head, app_inv_tail in H. congruence.
  - cbn [render] in H. apply app_inv_head in H.
    change (lit " chars (must be <= 500).")
      with (32%N :: lit "chars (must be <= 500).") in H.
    apply digits_then_inj in H as [HL _];
      auto using str_of_nat_digits, space_not_digit.
    apply str_of_nat_inj in HL as ->. done.
  - cbn [render] in H. apply app_inv_head in H.
    change (lit " lines (must be up to 8 when justified).")
      with (32%N :: lit "lines (must be up to 8 when justified).") in H.
    apply digits_then_inj in H as [HL _];
      auto using str_of_nat_digits, space_not_digit.
    apply str_of_nat_inj in HL as ->. done.
Qed.

Global Instance render_Inj : Inj (=) (=) render.
Proof. intros a b. apply render_inj. Qed.

Lemma In_render i l : In (render i) (map render l) ↔ In i l.
Proof.
  rewrite in_map_iff. split.
  - intros (x & Hx & Hin). apply render_inj in Hx as ->. done.
  - intros Hin. eauto.
Qed.

(** ** Timestamps *)

Lemma isdigit_value c : isdigit c = true → ∃ v, digit_value c = Some v.
Proof. unfold isdigit. destruct (digit_value c); [eauto|discriminate]. Qed.

Lemma isdigit_not_colon c : isdigit c = true → (c =? 58)%N = false.
Proof.
  intros H. destruct (N.eqb_spec c 58) as [->|]; [|done].
  vm_compute in H. discriminate.
Qed.

(** What the pattern accepts: two digits, a colon, two digits, a blank, and
    after further blanks at least one character that is not a line feed. *)
Lemma match_timestamp_spec s t :
  match_timestamp s = Some t ↔
  ∃ d1 d2 d3 d4 w rest,
    s = d1 :: d2 :: 58%N :: d3 :: d4 :: w :: rest
    ∧ isdigit d1 = true ∧ isdigit d2 = true
    ∧ isdigit d3 = true ∧ isdigit d4 = true
    ∧ isspace w = true ∧ re_ws_star_any_plus rest = true
    ∧ t = [d1; d2; 58%N; d3; d4].
Proof.
  unfold match_timestamp. split.
  - destruct s as [|d1 [|d2 [|c [|d3 [|d4 [|w rest]]]]]]; try discriminate.
    destruct (isdigit d1 && isdigit d2 && (c =? 58)%N && isdigit d3
              && isdigit d4 && isspace w && re_ws_star_any_plus rest) eqn:H;
      [|discriminate].
    intros [= <-]. repeat (apply andb_true_iff in H as [H ?]).
    assert (c = 58%N) as -> by by apply N.eqb_eq.
    exists d1, d2, d3, d4, w, rest. done.
  - intros (d1 & d2 & d3 & d4 & w & rest & -> & H1 & H2 & H3 & H4 & Hw & Hr & ->).
    by rewrite H1, H2, H3, H4, Hw, Hr.
Qed.

(** The seconds of a timestamp: minutes times sixty plus seconds. *)
Lemma mmss_to_sec_digits d1 d2 d3 d4 v1 v2 v3 v4 :
  digit_value d1 = Some v1 → digit_value d2 = Some v2 →
  digit_value d3 = Some v3 → digit_value d4 = Some v4 →
  _mmss_to_sec [d1; d2; 58%N; d3; d4]
  = Some ((10 * Z.of_N v1 + Z.of_N v2) * 60 + (10 * Z.of_N v3 + Z.of_N v4))%Z.
Proof.
  intros H1 H2 H3 H4.
  assert (∀ d v, digit_value d = Some v → (d =? 58)%N = false) as Hcolon.
  { intros d v Hd. apply isdigit_not_colon. unfold isdigit. by rewrite Hd. }
  unfold _mmss_to_sec, split. simpl.
  rewrite (Hcolon _ _ H1), (Hcolon _ _ H2), (Hcolon _ _ H3), (Hcolon _ _ H4).
  simpl. rewrite H1, H2, H3, H4. simpl. f_equal. lia.
Qed.

Lemma match_timestamp_sec s t :
  match_timestamp s = Some t → is_Some (_mmss_to_sec t).
Proof.
  intros (d1 & d2 & d3 & d4 & w & rest & _ & H1 & H2 & H3 & H4 & _ & _ & ->)
    %match_timestamp_spec.
  apply isdigit_value in H1 as (v1 & H1). apply isdigit_value in H2 as (v2 & H2).
  apply isdigit_value in H3 as (v3 & H3). apply isdigit_value in H4 as (v4 & H4).
  erewrite mmss_to_sec_digits by done. eauto.
Qed.

Lemma collect_timestamps_matched lines t :
  t ∈ collect_timestamps lines → ∃ s, match_timestamp s = Some t.
Proof.
  unfold collect_timestamps.
  destruct (find_index _ lines); [|intros H; by apply elem_of_nil in H].
  intros (line & _ & H)%list_elem_of_omap. eauto.
Qed.

(** No ValueError can leave the timestamp rule. *)
Lemma timestamp_issues_total lines :
  is_Some (timestamp_issues (collect_timestamps lines)).
Proof.
  unfold timestamp_issues.
  destruct (collect_timestamps lines) as [|t ts] eqn:Hts; [eauto|].
  rewrite <- Hts.
  destruct (mapM_is_Some_2 _mmss_to_sec (collect_timestamps lines)) as [secs ->].
  - apply Forall_forall. intros x (s & Hs)%collect_timestamps_matched.
    by eapply match_timestamp_sec.
  - rewrite Hts. simpl. eauto.
Qed.

(** ** The structure of the result of [qa_check] *)

(** [qa_check] always returns, and returns the violations of the six rules
    one rule after the other. *)
Lemma qa_check_returns txt lm vl :
  ∃ ts_issues,
    timestamp_issues (collect_timestamps (splitlines txt)) = Some ts_issues
    ∧ qa_check txt lm vl
      = Some (map render
                (dash_issues txt
                 ++ concat (map (missing_label_issues txt) required_labels)
                 ++ concat (map (title_issues (splitlines txt)) required_labels)
                 ++ watch_next_issues (splitlines txt) lm vl
                 ++ tags_issues (non_empty_lines txt)
                 ++ ts_issues)).
Proof.
  destruct (timestamp_issues_total (splitlines txt)) as [tsi Htsi].
  exists tsi. split; [done|].
  unfold qa_check, qa_violations, non_empty_lines.
  rewrite lines_of_text, Htsi. done.
Qed.

Lemma dash_issues_rule txt : Forall (λ i, rule_of i = 0) (dash_issues txt).
Proof. unfold dash_issues. destruct (_ || _); repeat constructor. Qed.

Lemma missing_label_issues_rule txt labs :
  Forall (λ i, rule_of i = 1) (concat (map (missing_label_issues txt) labs)).
Proof.
  induction labs as [|lab labs IH]; simpl; [constructor|].
  apply Forall_app. split; [|done].
  unfold missing_label_issues. destruct (negb _); repeat constructor.
Qed.

Lemma title_issues_shape lines lab i :
  In i (title_issues lines lab) →
  i = NoTitleText lab ∨ ∃ L, i = TitleLength L lab.
Proof.
  unfold title_issues. destruct (find_index _ lines); [|done].
  destruct (lines !! _); simpl.
  - destruct (_ || _); simpl; [|done]. intros [<-|[]]. eauto.
  - intros [<-|[]]. eauto.
Qed.

Lemma title_issues_rule lines labs :
  Forall (λ i, rule_of i = 2) (concat (map (title_issues lines) labs)).
Proof.
  induction labs as [|lab labs IH]; simpl; [constructor|].
  apply Forall_app. split; [|done].
  apply Forall_forall. intros i Hi%list_elem_of_In%title_issues_shape.
  destruct Hi as [->|[L ->]]; done.
Qed.

Lemma watch_next_issues_rule lines lm vl :
  Forall (λ i, rule_of i = 3) (watch_next_issues lines lm vl).
Proof.
  unfold watch_next_issues. apply Forall_app.
  split; destruct (_ && _); repeat constructor.
Qed.

Lemma tags_issues_rule ne : Forall (λ i, rule_of i = 4) (tags_issues ne).
Proof.
  unfold tags_issues. destruct (last ne); [|constructor].
  destruct (negb _); [repeat constructor|].
  destruct (_ <? _); repeat constructor.
Qed.

Lemma timestamp_issues_rule ts l :
  timestamp_issues ts = Some l → Forall (λ i, rule_of i = 5) l.
Proof.
  unfold timestamp_issues. destruct ts as [|t ts]; [intros [= <-]; constructor|].
  destruct (mapM _ _) as [secs|]; simpl; [|discriminate].
  intros [= <-]. apply Forall_app.
  split; [destruct (not_increasing _)|destruct (_ <? _)]; repeat constructor.
Qed.

Lemma not_in_other_rule i k l : Forall (λ j, rule_of j = k) l → rule_of i ≠ k → ¬ In i l.
Proof.
  intros Hl Hk Hin. rewrite Forall_forall in Hl.
  apply list_elem_of_In, Hl in Hin. done.
Qed.

(** A violation is reported exactly when its own rule reports it. *)
Lemma in_run_all r i :
  run_sorted r → In i (run_all r) ↔ In i (run_rule r (rule_of i)).
Proof.
  intros (H0 & H1 & H2 & H3 & H4 & H5). unfold run_all.
  rewrite !in_app_iff.
  pose proof (not_in_other_rule i _ _ H0). pose proof (not_in_other_rule i _ _ H1).
  pose proof (not_in_other_rule i _ _ H2). pose proof (not_in_other_rule i _ _ H3).
  pose proof (not_in_other_rule i _ _ H4). pose proof (not_in_other_rule i _ _ H5).
  destruct i; simpl in *;
    repeat match goal with
           | H : ?a ≠ ?b → _ |- _ =>
               first [specialize (H ltac:(discriminate)) | clear H]
           end;
    tauto.
Qed.

(** The form in which the rules below use [qa_check_returns]. *)
Lemma qa_check_run txt lm vl :
  ∃ ts_issues,
    timestamp_issues (collect_timestamps (splitlines txt)) = Some ts_issues
    ∧ qa_check txt lm vl = Some (map render (run_all (qa_run_of txt lm vl ts_issues)))
    ∧ run_sorted (qa_run_of txt lm vl ts_issues).
Proof.
  destruct (qa_check_returns txt lm vl) as (tsi & Htsi & Heq).
  exists tsi. split_and!; [done|done|].
  unfold run_sorted, qa_run_of;
    cbn [run_dash run_missing run_titles run_watch run_tags run_timestamps].
  split_and!;
    [ apply dash_issues_rule | apply missing_label_issues_rule
    | apply title_issues_rule | apply watch_next_issues_rule
    | apply tags_issues_rule | by eapply timestamp_issues_rule ].
Qed.

Lemma qa_check_in txt lm vl :
  ∃ ts_issues issues,
    timestamp_issues (collect_timestamps (splitlines txt)) = Some ts_issues
    ∧ qa_check txt lm vl = Some issues
    ∧ issues = map render (run_all (qa_run_of txt lm vl ts_issues))
    ∧ ∀ i, In (render i) issues
           ↔ In i (run_rule (qa_run_of txt lm vl ts_issues) (rule_of i)).
Proof.
  destruct (qa_check_run txt lm vl) as (tsi & Htsi & Heq & Hsorted).
  exists tsi, (map render (run_all (qa_run_of txt lm vl tsi))).
  split_and!; [done..|].
  intros i. rewrite In_render. by apply in_run_all.
Qed.

(** ** Case-insensitive prefixes *)

Lemma startswith_lower p s :
  Forall plain_lower p →
  startswith p (lower s) = true ↔ starts_ignoring_case p s.
Proof.
  intros Hp. revert s. induction Hp as [|y p Hy Hp IH]; intros s.
  - simpl. split; [|done]. intros _. exists [], s. split; [done|constructor].
  - destruct Hy as (Hlt & Hcap & Hi & Hk).
    destruct s as [|c s].
    + simpl. split; [discriminate|].
      intros (a & r & Hs & Ha). symmetry in Hs. apply app_eq_nil in Hs as [-> _].
      inversion Ha.
    + assert (startswith (y :: p) (lower (c :: s)) = true
              ↔ same_letter c y ∧ startswith p (lower s) = true) as ->.
      { unfold lower. simpl. fold (lower s). unfold lower_char, same_letter.
        destruct ((65 <=? c)%N && (c <=? 90)%N) eqn:Hc.
        - apply andb_true_iff in Hc as [?%N.leb_le ?%N.leb_le].
          simpl. rewrite andb_true_iff, N.eqb_eq. split.
          + intros [<- ?]. split; [right; lia|done].
          + intros [[->|[_ <-]] ?]; [lia|done].
        - assert (¬ (65 ≤ c ≤ 90)%N) as Hc'.
          { intros [? ?]. apply andb_false_iff in Hc as [?%N.leb_gt|?%N.leb_gt]; lia. }
          destruct (N.eqb_spec c 0x130) as [->|?].
          { simpl. destruct (N.eqb_spec y 0x69); [done|]. simpl.
            split; [discriminate|]. intros [[Heq|[? _]] _]; lia. }
          destruct (N.eqb_spec c 0x212a) as [->|?].
          { simpl. destruct (N.eqb_spec y 0x6b); [done|]. simpl.
            split; [discriminate|]. intros [[Heq|[? _]] _]; lia. }
          simpl. rewrite andb_true_iff, N.eqb_eq. split.
          + intros [<- ?]. split; [by left|done].
          + intros [[->|[? _]] ?]; done. }
      rewrite IH. split.
      * intros (Hc & a & r & -> & Ha). exists (c :: a), r.
        split; [done|by constructor].
      * intros (a & r & Hs & Ha). inversion Ha as [|c' y' a' p' Hc Ha']; subst.
        injection Hs as -> ->. split; [done|]. by exists a', r.
Qed.

Lemma plain_watch_next : Forall plain_lower (lit "watch next").
Proof. repeat constructor; unfold plain_lower; vm_compute; intuition discriminate. Qed.

Lemma plain_type : Forall plain_lower (lit "type").
Proof. repeat constructor; unfold plain_lower; vm_compute; intuition discriminate. Qed.

Lemma has_watch_next_spec lines :
  has_watch_next lines = true
  ↔ ∃ l, In l lines ∧ starts_ignoring_case (lit "watch next") (strip l).
Proof.
  unfold has_watch_next. rewrite existsb_exists.
  split; intros (l & Hl & H); exists l; (split; [done|]);
    by apply (startswith_lower _ _ plain_watch_next).
Qed.

Lemma valid_count_zero vl : valid_count vl = 0 ↔ ∀ x, In x vl → ok x = false.
Proof.
  unfold valid_count. rewrite length_zero_iff_nil.
  induction vl as [|x vl IH]; simpl.
  - split; [intros _ ? []|done].
  - rewrite filter_cons. destruct (decide (ok x = true)) as [Hx|Hx].
    + split; [discriminate|]. intros H. specialize (H x (or_introl eq_refl)).
      congruence.
    + rewrite IH. split.
      * intros H y [<-|Hy]; [by destruct (ok x)|auto].
      * intros H y Hy. auto.
Qed.

(** C7: a "Watch Next" line is a line that, blanks aside, begins with
    "watch next" in any case.  "Watch Next present but links were not
    provided." is reported exactly when there is such a line and the link
    mode is not "provided"; "Watch Next present but no valid links remained."
    exactly when there is such a line, the link mode is "provided" and no
    validated link has [ok] set. *)
Theorem watch_next_rule (txt lm : str) (vl : list validated_link) :
  ∃ issues,
    qa_check txt lm vl = Some issues
    ∧ (In (render WatchNextNotProvided) issues
       ↔ (∃ l, In l (splitlines txt)
               ∧ starts_ignoring_case (lit "watch next") (strip l))
         ∧ lm ≠ lit "provided")
    ∧ (In (render WatchNextNoValidLinks) issues
       ↔ (∃ l, In l (splitlines txt)
               ∧ starts_ignoring_case (lit "watch next") (strip l))
         ∧ lm = lit "provided"
         ∧ ∀ x, In x vl → ok x = false).
Proof.
  destruct (qa_check_in txt lm vl) as (tsi & issues & _ & Heq & _ & Hin).
  exists issues. split; [done|].
  rewrite !Hin. cbn [rule_of run_rule qa_run_of run_watch].
  unfold watch_next_issues. rewrite <- has_watch_next_spec, <- valid_count_zero.
  destruct (has_watch_next (splitlines txt)) eqn:Hw;
    destruct (decide (lm = lit "provided")) as [Hlm|Hlm].
  - rewrite (bool_decide_eq_false_2 (lm ≠ _)) by (intros ?; done).
    rewrite (bool_decide_eq_true_2 (lm = _)) by done.
    destruct (valid_count vl) as [|n] eqn:Hn; simpl; split; split;
      intuition (try discriminate; try done).
  - rewrite (bool_decide_eq_true_2 (lm ≠ _)) by done.
    rewrite (bool_decide_eq_false_2 (lm = _)) by done.
    simpl. split; split; intuition (try discriminate; try done).
  - rewrite !andb_false_r. simpl. split; split; intuition (try discriminate; try done).
  - rewrite !andb_false_r. simpl. split; split; intuition (try discriminate; try done).
Qed.

(** ** Finding lines *)

Lemma find_index_none {A} (p : A → bool) l :
  (∀ x, In x l → p x = false) → find_index p l = None.
Proof.
  induction l as [|x l IH]; simpl; [done|]. intros H.
  rewrite (H x) by auto. rewrite IH by auto. done.
Qed.

Lemma find_index_first {A} (p : A → bool) pre x post :
  (∀ y, In y pre → p y = false) → p x = true →
  find_index p (pre ++ x :: post) = Some (length pre).
Proof.
  intros Hpre Hx. induction pre as [|y pre IH]; simpl.
  - by rewrite Hx.
  - rewrite (Hpre y) by (by left). rewrite IH; [done|].
    intros z Hz. apply Hpre. by right.
Qed.

Lemma skip_blank_gap gap line post j :
  (∀ l, In l gap → strip l = []) → strip line ≠ [] →
  skip_blank (gap ++ line :: post) j = j + length gap.
Proof.
  revert j. induction gap as [|g gap IH]; intros j Hgap Hline; simpl.
  - apply is_blank_false in Hline. rewrite Hline. lia.
  - rewrite (proj2 (is_blank_true g)) by (apply Hgap; by left).
    rewrite IH; [lia| |done]. intros l Hl. apply Hgap. by right.
Qed.

Lemma skip_blank_all_blank rest j :
  (∀ l, In l rest → strip l = []) → skip_blank rest j = j + length rest.
Proof.
  revert j. induction rest as [|g rest IH]; intros j Hrest; simpl; [lia|].
  rewrite (proj2 (is_blank_true g)) by (apply Hrest; by left).
  rewrite IH; [lia|]. intros l Hl. apply Hrest. by right.
Qed.

(** The title rule when the label heads a line and a title line follows. *)
Lemma title_issues_found lab pre line gap title_line post :
  (∀ l, In l pre → strip l ≠ lab) → strip line = lab →
  (∀ l, In l gap → strip l = []) → strip title_line ≠ [] →
  title_issues (pre ++ line :: gap ++ title_line :: post) lab
  = let L := length (strip title_line) in
    if (L <? 60) || (75 <? L) then [TitleLength L lab] else [].
Proof.
  intros Hpre Hline Hgap Htitle. unfold title_issues.
  rewrite (find_index_first _ pre line).
  - assert (drop (length pre + 1) (pre ++ line :: gap ++ title_line :: post)
            = gap ++ title_line :: post) as ->.
    { rewrite (cons_middle line), app_assoc.
      replace (length pre + 1) with (length (pre ++ [line]))
        by (rewrite length_app; simpl; lia).
      apply drop_app_length. }
    rewrite skip_blank_gap by done.
    assert ((pre ++ line :: gap ++ title_line :: post)
              !! (length pre + 1 + length gap) = Some title_line) as ->.
    { rewrite (cons_middle line), !app_assoc.
      apply list_lookup_middle. rewrite !length_app. simpl. lia. }
    done.
  - intros y Hy. apply bool_decide_eq_false_2. by apply Hpre.
  - by apply bool_decide_eq_true_2.
Qed.

Lemma in_title_issues_concat lines labs L lab :
  In lab labs →
  In (TitleLength L lab) (concat (map (title_issues lines) labs))
  ↔ In (TitleLength L lab) (title_issues lines lab).
Proof.
  intros Hlab. rewrite in_concat. split.
  - intros (l & (lab' & <- & _)%in_map_iff & Hin).
    destruct (title_issues_shape _ _ _ Hin) as [?|[L' [= _ ->]]]; done.
  - intros Hin. exists (title_issues lines lab). split; [|done].
    apply in_map_iff. eauto.
Qed.

(** C5: when a label heads a line (the first such line is meant) and the next
    line that is not blank is [title_line], a title-length violation for that
    label is reported exactly when the title text, the line without the blanks
    around it, is shorter than 60 or longer than 75 characters; the reported
    length is that of the title text.  The other labels play no part. *)
Theorem title_length_rule (txt lm : str) (vl : list validated_link)
    (lab : str) (pre : list str) (line : str) (gap : list str)
    (title_line : str) (post : list str) :
  In lab required_labels →
  splitlines txt = pre ++ line :: gap ++ title_line :: post →
  (∀ l, In l pre → strip l ≠ lab) → strip line = lab →
  (∀ l, In l gap → strip l = []) → strip title_line ≠ [] →
  ∃ issues,
    qa_check txt lm vl = Some issues
    ∧ ((∃ L, In (render (TitleLength L lab)) issues)
       ↔ length (strip title_line) < 60 ∨ 75 < length (strip title_line))
    ∧ (∀ L, In (render (TitleLength L lab)) issues
            → L = length (strip title_line)).
Proof.
  intros Hlab Hlines Hpre Hline Hgap Htitle.
  destruct (qa_check_in txt lm vl) as (tsi & issues & _ & Heq & _ & Hin).
  exists issues. split; [done|].
  assert (∀ L, In (render (TitleLength L lab)) issues
               ↔ ((length (strip title_line) <? 60)
                  || (75 <? length (strip title_line))) = true
                 ∧ L = length (strip title_line)) as Hchar.
  { intros L. rewrite Hin. cbn [rule_of run_rule qa_run_of run_titles].
    rewrite in_title_issues_concat by done.
    rewrite Hlines, title_issues_found by done. cbn zeta.
    destruct (_ || _); simpl; [|intuition discriminate].
    split; [intros [[= ->]|[]]; done|intros [_ ->]; by left]. }
  assert (((length (strip title_line) <? 60)
           || (75 <? length (strip title_line))) = true
          ↔ length (strip title_line) < 60 ∨ 75 < length (strip title_line))
    as Hrange.
  { rewrite orb_true_iff, !Nat.ltb_lt. done. }
  split.
  - rewrite <- Hrange. split.
    + intros (L & HL). by apply Hchar in HL as [? _].
    + intros H. exists (length (strip title_line)). by apply Hchar.
  - intros L HL. by apply Hchar in HL as [_ ?].
Qed.

(** ** The tags line *)

Lemma filter_all_blank (post : list str) :
  (∀ l, In l post → strip l = []) → filter (λ l, is_blank l = false) post = [].
Proof.
  induction post as [|l post IH]; intros H; [done|].
  rewrite filter_cons.
  destruct (decide (is_blank l = false)) as [Hl|Hl].
  - apply is_blank_false in Hl. destruct Hl. apply H. by left.
  - apply IH. intros l' Hl'. apply H. by right.
Qed.

Lemma non_empty_last (pre : list str) (last_line : str) (post : list str) :
  strip last_line ≠ [] → (∀ l, In l post → strip l = []) →
  last (map strip (filter (λ l, is_blank l = false) (pre ++ last_line :: post)))
  = Some (strip last_line).
Proof.
  intros Hlast Hpost.
  rewrite filter_app, filter_cons.
  destruct (decide (is_blank last_line = false)) as [_|Hn];
    [|destruct Hn; by apply is_blank_false].
  rewrite (filter_all_blank post) by done.
  rewrite map_app. simpl. apply last_snoc.
Qed.

(** C6: with [last_line] the last line that is not blank and [tags] that line
    without the blanks around it, "Tags line not detected" is reported exactly
    when [tags] holds no comma, and "Tags line is n chars" exactly when it
    holds a comma and is longer than 500 characters, [n] being its length; a
    tags line with a comma and 500 characters gives neither. *)
Theorem tags_rule (txt lm : str) (vl : list validated_link)
    (pre : list str) (last_line : str) (post : list str) :
  splitlines txt = pre ++ last_line :: post →
  strip last_line ≠ [] → (∀ l, In l post → strip l = []) →
  ∃ issues,
    qa_check txt lm vl = Some issues
    ∧ (In (render TagsNotDetected) issues ↔ ¬ In comma (strip last_line))
    ∧ (∀ n, In (render (TagsTooLong n)) issues
            ↔ In comma (strip last_line)
              ∧ 500 < length (strip last_line)
              ∧ n = length (strip last_line))
    ∧ (In comma (strip last_line) → length (strip last_line) = 500 →
       ¬ In (render TagsNotDetected) issues
       ∧ ∀ n, ¬ In (render (TagsTooLong n)) issues).
Proof.
  intros Hlines Hlast Hpost.
  destruct (qa_check_in txt lm vl) as (tsi & issues & _ & Heq & _ & Hin).
  exists issues. split; [done|].
  assert (tags_issues (non_empty_lines txt)
          = if negb (contains (lit ",") (strip last_line)) then [TagsNotDetected]
            else if 500 <? length (strip last_line)
                 then [TagsTooLong (length (strip last_line))] else []) as Htags.
  { unfold tags_issues, non_empty_lines. by rewrite Hlines, non_empty_last. }
  assert (contains (lit ",") (strip last_line) = true
          ↔ In comma (strip last_line)) as Hcomma.
  { rewrite <- list_elem_of_In. apply (contains_singleton comma). }
  assert (In (render TagsNotDetected) issues ↔ ¬ In comma (strip last_line)) as H1.
  { rewrite Hin. cbn [rule_of run_rule qa_run_of run_tags]. rewrite Htags.
    rewrite <- Hcomma. destruct (contains _ _); simpl.
    - destruct (_ <? _); simpl; intuition discriminate.
    - intuition discriminate. }
  assert (∀ n, In (render (TagsTooLong n)) issues
               ↔ In comma (strip last_line)
                 ∧ 500 < length (strip last_line)
                 ∧ n = length (strip last_line)) as H2.
  { intros n. rewrite Hin. cbn [rule_of run_rule qa_run_of run_tags].
    rewrite Htags, <- Hcomma. destruct (contains _ _); simpl.
    - destruct (Nat.ltb_spec 500 (length (strip last_line))); simpl.
      + split; [intros [[= <-]|[]]; auto|intros (_ & _ & ->); by left].
      + split; [done|]. intros (_ & ? & _). lia.
    - split; [intros [?|[]]; discriminate|intros [? _]; discriminate]. }
  split_and!; [done|done|].
  intros Hc Hlen. split; [rewrite H1; tauto|].
  intros n. rewrite H2. lia.
Qed.

(** ** Missing labels *)

Lemma occurrences_render i l :
  occurrences (render i) (map render l) = length (filter (λ j, j = i) l).
Proof.
  unfold occurrences. induction l as [|j l IH]; [done|].
  cbn [map]. rewrite !filter_cons.
  destruct (decide (render j = render i)) as [H|H], (decide (j = i)) as [H'|H'];
    simpl; try (rewrite IH; done).
  - apply render_inj in H. done.
  - subst. done.
Qed.

Lemma filter_other_rule i k l :
  Forall (λ j, rule_of j = k) l → rule_of i ≠ k → filter (λ j, j = i) l = [].
Proof.
  intros Hl Hk. induction Hl as [|j l Hj Hl IH]; [done|].
  rewrite filter_cons. destruct (decide (j = i)) as [->|_]; done.
Qed.

Lemma count_missing txt labs lab :
  List.NoDup labs → In lab labs →
  length (filter (λ j, j = MissingLabel lab)
            (concat (map (missing_label_issues txt) labs)))
  = if contains lab txt then 0 else 1.
Proof.
  induction 1 as [|lab' labs Hnotin Hnodup IH]; [done|].
  intros Hin. cbn [map concat]. rewrite filter_app, length_app.
  destruct (decide (lab' = lab)) as [->|Hne].
  - assert (filter (λ j, j = MissingLabel lab)
              (concat (map (missing_label_issues txt) labs)) = []) as ->.
    { clear IH Hin Hnodup. induction labs as [|l labs IH]; [done|].
      cbn [map concat]. rewrite filter_app, IH by (intros ?; apply Hnotin; by right).
      unfold missing_label_issues. destruct (negb _); [|done].
      rewrite filter_cons. destruct (decide _) as [[= ->]|_]; [|done].
      destruct Hnotin. by left. }
    unfold missing_label_issues. destruct (contains lab txt); simpl; [done|].
    rewrite filter_cons. destruct (decide _); done.
  - destruct Hin as [?|Hin]; [done|]. rewrite IH by done.
    unfold missing_label_issues. destruct (negb (contains lab' txt)); [|done].
    rewrite filter_cons. destruct (decide _) as [[= ->]|_]; done.
Qed.

Lemma required_labels_nodup : List.NoDup required_labels.
Proof.
  unfold required_labels.
  repeat (constructor; [simpl; intuition discriminate|]). constructor.
Qed.

(** C4, as the code has it: a label is required to occur in the text, as a
    substring at any place.  Each of the three labels that does not occur is
    reported missing once; a label that occurs is not reported, and a label
    that heads a line of its own occurs. *)
Theorem missing_label_rule (txt lm : str) (vl : list validated_link) (lab : str) :
  In lab required_labels →
  ∃ issues,
    qa_check txt lm vl = Some issues
    ∧ ((∃ pre post, txt = pre ++ lab ++ post)
       → occurrences (render (MissingLabel lab)) issues = 0)
    ∧ (¬ (∃ pre post, txt = pre ++ lab ++ post)
       → occurrences (render (MissingLabel lab)) issues = 1)
    ∧ ((∃ line, In line (splitlines txt) ∧ strip line = lab)
       → occurrences (render (MissingLabel lab)) issues = 0).
Proof.
  intros Hlab.
  destruct (qa_check_run txt lm vl) as (tsi & _ & Heq & Hsorted).
  exists (map render (run_all (qa_run_of txt lm vl tsi))). split; [done|].
  assert (occurrences (render (MissingLabel lab))
            (map render (run_all (qa_run_of txt lm vl tsi)))
          = if contains lab txt then 0 else 1) as ->.
  { rewrite occurrences_render. unfold run_all.
    destruct Hsorted as (H0 & H1 & H2 & H3 & H4 & H5).
    rewrite !filter_app, !length_app.
    rewrite (filter_other_rule _ _ _ H0), (filter_other_rule _ _ _ H2),
      (filter_other_rule _ _ _ H3), (filter_other_rule _ _ _ H4),
      (filter_other_rule _ _ _ H5) by done.
    cbn [qa_run_of run_missing length].
    rewrite count_missing by auto using required_labels_nodup. lia. }
  split_and!.
  - intros H%contains_spec. by rewrite H.
  - intros H. destruct (contains lab txt) eqn:Hc; [|done].
    destruct H. by apply contains_spec.
  - intros (line & Hline%list_elem_of_In%line_substring & <-). by rewrite Hline.
Qed.

(** ** Timestamps after the "Type" line *)








(** ** Text without any line that is not blank *)

Lemma linebreak_isspace c : is_linebreak c = true → isspace c = true.
Proof.
  unfold is_linebreak, isspace.
  rewrite !orb_true_iff, !andb_true_iff, !N.leb_le, !N.eqb_eq. lia.
Qed.

Lemma blank_text_chars txt c :
  (∀ line, In line (splitlines txt) → strip line = []) →
  c ∈ txt → isspace c = true.
Proof.
  intros Hblank Hc. destruct (isspace c) eqn:Hsp; [done|].
  destruct (splitlines_covers txt c) as (line & Hline & Hcl); [done| |].
  - destruct (is_linebreak c) eqn:Hbr; [|done].
    apply linebreak_isspace in Hbr. congruence.
  - apply (strip_keeps _ _ Hcl) in Hsp.
    rewrite (Hblank line) in Hsp by by apply list_elem_of_In.
    by apply elem_of_nil in Hsp.
Qed.

Lemma blank_text_contains txt c p :
  (∀ line, In line (splitlines txt) → strip line = []) →
  isspace c = false → contains (c :: p) txt = false.
Proof.
  intros Hblank Hc. destruct (contains (c :: p) txt) eqn:H; [|done].
  apply contains_elem, (blank_text_chars _ _ Hblank) in H. congruence.
Qed.

(** C10: a text in which every line is blank, the empty text included, gets
    the three missing-label violations and nothing else. *)
Theorem blank_text_result (txt lm : str) (vl : list validated_link) :
  (∀ line, In line (splitlines txt) → strip line = []) →
  qa_check txt lm vl
  = Some (map (λ lab, render (MissingLabel lab)) required_labels).
Proof.
  intros Hblank.
  destruct (qa_check_returns txt lm vl) as (tsi & Htsi & ->).
  assert (∀ (p : str → bool) (lab : str),
            (∀ l, strip l = [] → p l = false) →
            find_index p (splitlines txt) = None) as Hfind.
  { intros p _ Hp. apply find_index_none. intros l Hl. by apply Hp, Hblank. }
  assert (dash_issues txt = []) as ->.
  { unfold dash_issues. by rewrite !blank_text_contains. }
  assert (concat (map (missing_label_issues txt) required_labels)
          = map MissingLabel required_labels) as ->.
  { unfold required_labels, missing_label_issues. cbn [map concat].
    change (lit "Option 1 (Highest SEO Reach)")
      with (79%N :: lit "ption 1 (Highest SEO Reach)").
    change (lit "Option 2 (Parent High-Intent)")
      with (79%N :: lit "ption 2 (Parent High-Intent)").
    change (lit "Option 3 (Authority Explainer)")
      with (79%N :: lit "ption 3 (Authority Explainer)").
    by rewrite !blank_text_contains. }
  assert (concat (map (title_issues (splitlines txt)) required_labels) = []) as ->.
  { unfold title_issues, required_labels. cbn [map concat].
    rewrite !(Hfind _ []); [done|..];
      intros l Hl; apply bool_decide_eq_false_2; rewrite Hl; discriminate. }
  assert (watch_next_issues (splitlines txt) lm vl = []) as ->.
  { unfold watch_next_issues.
    assert (has_watch_next (splitlines txt) = false) as ->.
    { apply not_true_is_false.
      intros (l & Hl & Hs)%existsb_exists. by rewrite (Hblank l Hl) in Hs. }
    by rewrite !andb_false_r. }
  assert (tags_issues (non_empty_lines txt) = []) as ->.
  { unfold non_empty_lines. by rewrite filter_all_blank. }
  assert (tsi = []) as ->.
  { unfold collect_timestamps in Htsi. rewrite (Hfind _ []) in Htsi.
    - simpl in Htsi. congruence.
    - intros l Hl. by rewrite Hl. }
  cbn [app]. rewrite app_nil_r, map_map. done.
Qed.

Lemma blank_text_result_witness :
  qa_check (lit "  " ++ nl ++ [9%N] ++ nl ++ nl) (lit "provided") []
  = Some [ lit "Missing title label: Option 1 (Highest SEO Reach)";
           lit "Missing title label: Option 2 (Parent High-Intent)";
           lit "Missing title label: Option 3 (Authority Explainer)" ].
Proof.
  apply (blank_text_result (lit "  " ++ nl ++ [9%N] ++ nl ++ nl)).
  intros line Hline. vm_compute in Hline.
  destruct Hline as [<-|[<-|[<-|[]]]]; reflexivity.
Defined.

(** The empty text. *)
Example blank_text_empty :
  qa_check [] (lit "provided") []
  = Some (map (λ lab, render (MissingLabel lab)) required_labels)
  ∧ qa_check [] (lit "checked_no_links") []
    = Some (map (λ lab, render (MissingLabel lab)) required_labels).
Proof. vm_compute. done. Qed.

(** ** Concrete runs of the validator *)

(** C4 as stated fails: the first label stands on no line of its own, it is
    only part of a longer line, and yet it is not reported missing. *)
Lemma missing_label_not_standalone :
  (∀ line, In line (splitlines embedded_label_text) → strip line ≠ label1)
  ∧ qa_check embedded_label_text (lit "checked_no_links") []
    = Some [ lit "Missing title label: Option 2 (Parent High-Intent)";
             lit "Missing title label: Option 3 (Authority Explainer)";
             lit "Tags line not detected (expected one comma-separated line at the end)." ]
  ∧ ¬ In (render (MissingLabel label1))
        [ lit "Missing title label: Option 2 (Parent High-Intent)";
          lit "Missing title label: Option 3 (Authority Explainer)";
          lit "Tags line not detected (expected one comma-separated line at the end)." ].
Proof.
  split_and!.
  - intros line Hline. vm_compute in Hline. destruct Hline as [<-|[]].
    vm_compute. discriminate.
  - vm_compute. reflexivity.
  - vm_compute. intuition discriminate.
Qed.

Lemma missing_label_rule_witness :
  ∃ issues,
    qa_check embedded_label_text (lit "checked_no_links") [] = Some issues
    ∧ ((∃ pre post, embedded_label_text = pre ++ label1 ++ post)
       → occurrences (render (MissingLabel label1)) issues = 0)
    ∧ (¬ (∃ pre post, embedded_label_text = pre ++ label1 ++ post)
       → occurrences (render (MissingLabel label1)) issues = 1)
    ∧ ((∃ line, In line (splitlines embedded_label_text) ∧ strip line = label1)
       → occurrences (render (MissingLabel label1)) issues = 0).
Proof.
  apply (missing_label_rule embedded_label_text (lit "checked_no_links") []
           label1).
  left. reflexivity.
Defined.

Lemma title_length_rule_witness :
  ∃ issues,
    qa_check (titled_text 76) (lit "provided") [] = Some issues
    ∧ ((∃ L, In (render (TitleLength L label1)) issues)
       ↔ length (strip (repeat 120%N 76)) < 60
         ∨ 75 < length (strip (repeat 120%N 76)))
    ∧ (∀ L, In (render (TitleLength L label1)) issues
            → L = length (strip (repeat 120%N 76))).
Proof.
  apply (title_length_rule (titled_text 76) (lit "provided") [] label1
           [] label1 [lit "  "] (repeat 120%N 76) [lit "maths, algebra"]).
  - left. reflexivity.
  - vm_compute. reflexivity.
  - intros l [].
  - vm_compute. reflexivity.
  - intros l [<-|[]]. vm_compute. reflexivity.
  - vm_compute. discriminate.
Defined.

(** Titles of 60 and of 75 characters pass; 59 and 76 are reported. *)
Example title_length_bounds :
  qa_check (titled_text 60) (lit "provided") []
  = Some [ lit "Missing title label: Option 2 (Parent High-Intent)";
           lit "Missing title label: Option 3 (Authority Explainer)" ]
  ∧ qa_check (titled_text 75) (lit "provided") []
    = Some [ lit "Missing title label: Option 2 (Parent High-Intent)";
             lit "Missing title label: Option 3 (Authority Explainer)" ]
  ∧ qa_check (titled_text 59) (lit "provided") []
    = Some [ lit "Missing title label: Option 2 (Parent High-Intent)";
             lit "Missing title label: Option 3 (Authority Explainer)";
             lit "Title length 59 after Option 1 (Highest SEO Reach) (must be 60"
               ++ [en_dash] ++ lit "75)." ]
  ∧ qa_check (titled_text 76) (lit "provided") []
    = Some [ lit "Missing title label: Option 2 (Parent High-Intent)";
             lit "Missing title label: Option 3 (Authority Explainer)";
             lit "Title length 76 after Option 1 (Highest SEO Reach) (must be 60"
               ++ [en_dash] ++ lit "75)." ].
Proof. vm_compute. done. Qed.

Lemma tags_rule_witness :
  ∃ issues,
    qa_check (tagged_text true 501) (lit "provided") [] = Some issues
    ∧ (In (render TagsNotDetected) issues
       ↔ ¬ In comma (strip (comma :: repeat 120%N 500)))
    ∧ (∀ n, In (render (TagsTooLong n)) issues
            ↔ In comma (strip (comma :: repeat 120%N 500))
              ∧ 500 < length (strip (comma :: repeat 120%N 500))
              ∧ n = length (strip (comma :: repeat 120%N 500)))
    ∧ (In comma (strip (comma :: repeat 120%N 500)) →
       length (strip (comma :: repeat 120%N 500)) = 500 →
       ¬ In (render TagsNotDetected) issues
       ∧ ∀ n, ¬ In (render (TagsTooLong n)) issues).
Proof.
  apply (tags_rule (tagged_text true 501) (lit "provided") []
           [lit "intro"] (comma :: repeat 120%N 500) [lit "   "]).
  - vm_compute. reflexivity.
  - vm_compute. discriminate.
  - intros l [<-|[]]. vm_compute. reflexivity.
Defined.

(** A tags line of 500 characters with a comma passes, one of 501 does not,
    and one without a comma is reported whatever its length. *)
Example tags_bounds :
  qa_check (tagged_text true 500) (lit "provided") []
  = Some (map (λ lab, render (MissingLabel lab)) required_labels)
  ∧ qa_check (tagged_text true 501) (lit "provided") []
    = Some (map (λ lab, render (MissingLabel lab)) required_labels
            ++ [lit "Tags line is 501 chars (must be <= 500)."])
  ∧ qa_check (tagged_text false 3) (lit "provided") []
    = Some (map (λ lab, render (MissingLabel lab)) required_labels
            ++ [lit "Tags line not detected (expected one comma-separated line at the end)."])
  ∧ qa_check (tagged_text false 600) (lit "provided") []
    = Some (map (λ lab, render (MissingLabel lab)) required_labels
            ++ [lit "Tags line not detected (expected one comma-separated line at the end)."]).
Proof. vm_compute. done. Qed.


(** The two sequences of the design document, and one with a repeated
    timestamp. *)
Example timestamp_order :
  qa_check (timed_text (lit "00:10") (lit "00:09")) (lit "provided") []
  = Some (map (λ lab, render (MissingLabel lab)) required_labels
          ++ [lit "Education Problems timestamps are not strictly increasing or contain duplicates."])
  ∧ qa_check (timed_text (lit "00:10") (lit "00:15")) (lit "provided") []
    = Some (map (λ lab, render (MissingLabel lab)) required_labels)
  ∧ qa_check (timed_text (lit "01:05") (lit "01:05")) (lit "provided") []
    = Some (map (λ lab, render (MissingLabel lab)) required_labels
            ++ [lit "Education Problems timestamps are not strictly increasing or contain duplicates."]).
Proof. vm_compute. done. Qed.

(** Nine timestamp lines in increasing order. *)
Example timestamp_count :
  qa_check
    (lit "Type" ++ nl
     ++ concat (map (λ t, t ++ lit " step" ++ nl)
                  [ lit "00:01"; lit "00:02"; lit "00:03"; lit "00:04";
                    lit "00:05"; lit "00:06"; lit "00:07"; lit "00:08";
                    lit "00:09" ])
     ++ lit "maths, algebra")
    (lit "provided") []
  = Some (map (λ lab, render (MissingLabel lab)) required_labels
          ++ [lit "Education Problems has 9 lines (must be up to 8 when justified)."]).
Proof. vm_compute. done. Qed.

(** The two cases of the design document for a "Watch Next" heading. *)
Example watch_next_cases :
  qa_check (lit "Watch Next" ++ nl ++ lit "maths, algebra") (lit "provided") []
  = Some (map (λ lab, render (MissingLabel lab)) required_labels
          ++ [lit "Watch Next present but no valid links remained."])
  ∧ qa_check (lit "Watch Next" ++ nl ++ lit "maths, algebra")
      (lit "checked_no_links") []
    = Some (map (λ lab, render (MissingLabel lab)) required_labels
            ++ [lit "Watch Next present but links were not provided."])
  ∧ qa_check (lit "  WATCH next:" ++ nl ++ lit "maths, algebra") (lit "provided")
      [ValidatedLink (lit "https://example.org") true [] []]
    = Some (map (λ lab, render (MissingLabel lab)) required_labels).
Proof. vm_compute. done. Qed.

(** ** The generation client *)

Lemma served_app {S} (cl : service S) msg effort s l1 s1 l2 s2 :
  served cl msg effort s l1 s1 → served cl msg effort s1 l2 s2 →
  served cl msg effort s (l1 ++ l2) s2.
Proof.
  induction 1; intros H2; simpl; [done| |].
  - eapply served_responses; eauto.
  - eapply served_chat; eauto.
Qed.

Lemma plain_failure_no_text a : plain_failure a → attempt_text a = None.
Proof. intros (e & He & _). unfold attempt_text. by rewrite He. Qed.

Lemma last_error_snoc d log a : last_error d (log ++ [a]) = attempt_error a.
Proof. unfold last_error. by rewrite last_snoc. Qed.

Lemma last_error_cons d a log :
  last_error d (a :: log) = last_error (attempt_error a) log.
Proof.
  unfold last_error. destruct log as [|b log]; [done|].
  rewrite last_cons_cons.
  destruct (last (b :: log)) eqn:H; [done|]. by apply last_None in H.
Qed.

Section GenerationProofs.
Context {S : Type} (cl : service S) (msg : payload) (effort : str).

Local Ltac split4 := split; [|split; [|split]].

(** The first loop.  It goes through the models in order; it stops at the
    first call that returns, with its text, or at the first failure that
    names the missing scope; otherwise it reaches the end of the list. *)
Lemma responses_pass_spec models last_err s res err s' log :
  responses_pass cl msg effort models last_err s = (res, err, s', log) →
  served cl msg effort s log s'
  ∧ length log ≤ length models
  ∧ map attempt_key log = map (pair Responses) (take (length log) models)
  ∧ match res with
    | Some t =>
        ∃ pre a, log = pre ++ [a] ∧ Forall plain_failure pre
                 ∧ attempt_text a = Some t
    | None =>
        err = last_error last_err log
        ∧ ((length log = length models ∧ Forall plain_failure log)
           ∨ ∃ pre a, log = pre ++ [a] ∧ Forall plain_failure pre
                      ∧ scope_failure a)
    end.
Proof.
  revert last_err s res err s' log.
  induction models as [|m models IH]; intros last_err s res err s' log H.
  - injection H as <- <- <- <-.
    split4; [apply served_nil|done|done|].
    split; [done|]. left. split; [done|constructor].
  - cbn [responses_pass] in H.
    destruct (responses_create cl m msg effort s) as [r s1] eqn:Hcall.
    destruct r as [text|e].
    + injection H as <- <- <- <-.
      split4; [eapply served_responses; [done|apply served_nil]
              |simpl; lia|done|].
      exists [], (Attempt Responses m (Returned text)).
      split; [done|]. split; [constructor|done].
    + destruct (contains scope_marker e) eqn:Hscope.
      * injection H as <- <- <- <-.
        split4; [eapply served_responses; [done|apply served_nil]
                |simpl; lia|done|].
        split; [done|]. right.
        exists [], (Attempt Responses m (Raised e)).
        split; [done|]. split; [constructor|]. split; [done|eauto].
      * destruct (responses_pass cl msg effort models e s1)
          as [[[res' err'] s''] log'] eqn:Hrec.
        injection H as <- <- <- <-.
        destruct (IH _ _ _ _ _ _ Hrec) as (Hserved & Hlen & Hkeys & Hres).
        assert (plain_failure (Attempt Responses m (Raised e))) as Hplain
          by (exists e; done).
        split4; [eapply served_responses; done|simpl; lia
                |simpl; by rewrite Hkeys|].
        destruct res' as [t|].
        -- destruct Hres as (pre & a & -> & Hpre & Ha).
           exists (Attempt Responses m (Raised e) :: pre), a.
           split; [done|]. split; [by constructor|done].
        -- destruct Hres as (-> & Hend). split.
           { by rewrite last_error_cons. }
           destruct Hend as [[Hl Hall]|(pre & a & -> & Hpre & Ha)].
           ++ left. split; [simpl; lia|by constructor].
           ++ right. exists (Attempt Responses m (Raised e) :: pre), a.
              split; [done|]. split; [by constructor|done].
Qed.

(** The second loop.  It goes through the models in order and stops at the
    first call that returns a text that is not empty; a call that raises or
    returns nothing is recorded and the loop goes on. *)
Lemma chat_pass_spec models last_err s res err s' log :
  chat_pass cl msg models last_err s = (res, err, s', log) →
  served cl msg effort s log s'
  ∧ length log ≤ length models
  ∧ map attempt_key log = map (pair ChatCompletions) (take (length log) models)
  ∧ match res with
    | Some t =>
        ∃ pre a, log = pre ++ [a]
                 ∧ Forall (λ a, attempt_text a = None) pre
                 ∧ attempt_text a = Some t
    | None =>
        err = last_error last_err log
        ∧ length log = length models
        ∧ Forall (λ a, attempt_text a = None) log
    end.
Proof.
  revert last_err s res err s' log.
  induction models as [|m models IH]; intros last_err s res err s' log H.
  - injection H as <- <- <- <-.
    split4; [apply served_nil|done|done|].
    split; [done|]. split; [done|constructor].
  - cbn [chat_pass] in H.
    destruct (chat_completions_create cl m msg s) as [r s1] eqn:Hcall.
    assert (∀ e_rec,
              attempt_text (Attempt ChatCompletions m r) = None →
              attempt_error (Attempt ChatCompletions m r) = e_rec →
              (let '(res0, err', s'', log0) := chat_pass cl msg models e_rec s1 in
               (res0, err', s'', Attempt ChatCompletions m r :: log0))
              = (res, err, s', log) →
              served cl msg effort s log s'
              ∧ length log ≤ length (m :: models)
              ∧ map attempt_key log
                = map (pair ChatCompletions) (take (length log) (m :: models))
              ∧ match res with
                | Some t =>
                    ∃ pre a, log = pre ++ [a]
                             ∧ Forall (λ a, attempt_text a = None) pre
                             ∧ attempt_text a = Some t
                | None =>
                    err = last_error last_err log
                    ∧ length log = length (m :: models)
                    ∧ Forall (λ a, attempt_text a = None) log
                end) as Hcontinue.
    { intros e_rec Hnone Herr Hrest.
      destruct (chat_pass cl msg models e_rec s1)
        as [[[res' err'] s''] log'] eqn:Hrec.
      injection Hrest as <- <- <- <-.
      destruct (IH _ _ _ _ _ _ Hrec) as (Hserved & Hlen & Hkeys & Hres).
      split4; [eapply served_chat; done|simpl; lia|simpl; by rewrite Hkeys|].
      destruct res' as [t|].
      - destruct Hres as (pre & a & -> & Hpre & Ha).
        exists (Attempt ChatCompletions m r :: pre), a.
        split; [done|]. split; [by constructor|done].
      - destruct Hres as (-> & Hl & Hall).
        split; [by rewrite last_error_cons, Herr|].
        split; [simpl; lia|by constructor]. }
    destruct r as [content|e].
    + destruct (strip (default [] content)) as [|c out] eqn:Hout.
      * apply (Hcontinue empty_chat_response); [|done|done].
        unfold attempt_text. simpl. by rewrite Hout.
      * injection H as <- <- <- <-.
        split4; [eapply served_chat; [done|apply served_nil]
                |simpl; lia|done|].
        exists [], (Attempt ChatCompletions m (Returned content)).
        split; [done|]. split; [constructor|].
        unfold attempt_text. simpl. by rewrite Hout.
    + by apply (Hcontinue e).
Qed.
End GenerationProofs.

Lemma keys_protocol (P : protocol) (log : list attempt) (ms : list str) :
  map attempt_key log = map (pair P) ms →
  Forall (λ a, att_protocol a = P) log.
Proof.
  revert ms. induction log as [|a log IH]; intros ms H; [constructor|].
  destruct ms as [|m ms]; [discriminate|].
  injection H as Hp _ H. constructor; [done|by eapply IH].
Qed.

Lemma scope_failure_not_plain a : scope_failure a → plain_failure a → False.
Proof. intros (_ & e & He & Hs) (e' & He' & Hp). congruence. Qed.

Lemma scope_failure_no_text a : scope_failure a → attempt_text a = None.
Proof. intros (_ & e & He & _). unfold attempt_text. by rewrite He. Qed.

Lemma last_error_app d l1 l2 :
  l2 ≠ [] → last_error d (l1 ++ l2) = last_error [] l2.
Proof.
  intros Hl2. unfold last_error. rewrite last_app.
  destruct (last l2) eqn:H; [done|]. by apply last_None in H.
Qed.

(** The two loops of [call_openai_metadata] put together. *)
Lemma call_openai_metadata_passes {S} (cl : service S) transcript lm vl cfg
    s res s' log :
  strip (default [] (cfg !! lit "OPENAI_API_KEY")) ≠ [] →
  call_openai_metadata cl transcript lm vl cfg s = (res, s', log) →
  ∃ log1 log2,
    log = log1 ++ log2
    ∧ served cl (Payload lm vl transcript) (reasoning_effort cfg) s log s'
    ∧ 1 ≤ length log1 ≤ length (models_to_try cfg)
    ∧ length log2 ≤ length (models_to_try cfg)
    ∧ map attempt_key log1
      = map (pair Responses) (take (length log1) (models_to_try cfg))
    ∧ map attempt_key log2
      = map (pair ChatCompletions) (take (length log2) (models_to_try cfg))
    ∧ ((∃ pre a t, log1 = pre ++ [a] ∧ Forall plain_failure pre
                   ∧ attempt_text a = Some t ∧ log2 = [] ∧ res = Returned t)
       ∨ (((length log1 = length (models_to_try cfg) ∧ Forall plain_failure log1)
           ∨ ∃ pre a, log1 = pre ++ [a] ∧ Forall plain_failure pre
                      ∧ scope_failure a)
          ∧ ((∃ pre a t, log2 = pre ++ [a]
                         ∧ Forall (λ a, attempt_text a = None) pre
                         ∧ attempt_text a = Some t ∧ res = Returned t)
             ∨ (length log2 = length (models_to_try cfg)
                ∧ Forall (λ a, attempt_text a = None) log2
                ∧ res = Raised (request_failed (last_error [] log)))))).
Proof.
  intros Hkey Hcall. unfold call_openai_metadata in Hcall.
  destruct (strip (default [] (cfg !! lit "OPENAI_API_KEY"))) as [|k key];
    [done|].
  assert (1 ≤ length (models_to_try cfg)) as Hmodels
    by (unfold models_to_try; simpl; lia).
  destruct (responses_pass cl _ _ _ _ s) as [[[res1 err1] s1] log1] eqn:H1.
  apply (responses_pass_spec cl _ (reasoning_effort cfg)) in H1
    as (Hserved1 & Hlen1 & Hkeys1 & Hres1).
  destruct res1 as [t|].
  - injection Hcall as <- <- <-.
    destruct Hres1 as (pre & a & -> & Hpre & Ha).
    exists (pre ++ [a]), []. rewrite app_nil_r.
    split; [done|]. split; [done|].
    split; [rewrite length_app in *; simpl in *; lia|].
    split; [simpl; lia|]. split; [done|]. split; [done|].
    left. exists pre, a, t. done.
  - destruct Hres1 as (-> & Hend1).
    destruct (chat_pass cl _ _ _ s1) as [[[res2 err2] s2] log2] eqn:H2.
    apply (chat_pass_spec cl _ (reasoning_effort cfg)) in H2
      as (Hserved2 & Hlen2 & Hkeys2 & Hres2).
    assert (1 ≤ length log1) as Hlog1.
    { destruct Hend1 as [[-> _]|(pre & a & -> & _)]; [done|].
      rewrite length_app. simpl. lia. }
    exists log1, log2.
    assert (log = log1 ++ log2 ∧ s' = s2) as [-> ->]
      by (destruct res2; injection Hcall as <- <- <-; done).
    split; [done|]. split; [by eapply served_app|].
    split; [lia|]. split; [done|]. split; [done|]. split; [done|].
    right. split; [done|].
    destruct res2 as [t|].
    + injection Hcall as <-. left.
      destruct Hres2 as (pre & a & -> & Hpre & Ha). exists pre, a, t. done.
    + injection Hcall as <-. right.
      destruct Hres2 as (-> & Hl2 & Hall). split; [done|]. split; [done|].
      assert (log2 ≠ []) as Hne by (intros ->; simpl in Hl2; lia).
      rewrite (last_error_app [] log1 log2 Hne).
      unfold last_error. destruct (last log2) eqn:Hlast; [done|].
      by apply last_None in Hlast.
Qed.

Lemma lookup_snoc_inv {A} (pre : list A) (x : A) i y :
  (pre ++ [x]) !! i = Some y → pre !! i = Some y ∨ (i = length pre ∧ y = x).
Proof.
  intros H. destruct (decide (i < length pre)) as [Hi|Hi].
  - left. by rewrite lookup_app_l in H.
  - right. rewrite lookup_app_r in H by lia.
    destruct (i - length pre) as [|k] eqn:Hk; simpl in H; [|done].
    injection H as <-. split; [lia|done].
Qed.

Lemma plain_failures_no_text l :
  Forall plain_failure l → Forall (λ a, attempt_text a = None) l.
Proof.
  intros H. eapply Forall_impl; [done|]. intros a. apply plain_failure_no_text.
Qed.

(** C1: the list of models is the primary model followed by the fallbacks
    other than the primary model, in the order of the setting; a fallback
    that is named more than once stays in the list as often.  With a key
    configured, the calls made are the first protocol over the
    first [n1] models of the list followed by the second protocol over the
    first [n2] models of the same list, each answered by the service in turn.
    A text is returned exactly when the last call made handed back a text and
    none before it did.  A failure of the first protocol that names the
    missing scope is the last call of the first pass, and the second pass
    follows it; the first pass is cut short by nothing else than that or a
    returned text.  The RuntimeError "OpenAI request failed" is raised exactly
    when no call handed back a text and the second pass went through every
    model; it carries the error of the last call and the hint on key
    permissions. *)
Theorem generation_attempts {S} (cl : service S) (transcript lm : str)
    (vl : list validated_link) (cfg : gmap str str) (s : S)
    (res : outcome str) (s' : S) (log : list attempt) :
  strip (default [] (cfg !! lit "OPENAI_API_KEY")) ≠ [] →
  call_openai_metadata cl transcript lm vl cfg s = (res, s', log) →
  let primary :=
    strip (default (lit "gpt-5.2-thinking") (cfg !! lit "OPENAI_MODEL")) in
  let fallbacks :=
    filter (λ m, m ≠ [])
      (map strip (split comma (default [] (cfg !! lit "OPENAI_FALLBACK_MODELS")))) in
  ∃ n1 n2,
    models_to_try cfg = primary :: filter (λ m, m ≠ primary) fallbacks
    ∧ served cl (Payload lm vl transcript) (reasoning_effort cfg) s log s'
    ∧ 1 ≤ n1 ≤ length (models_to_try cfg)
    ∧ n2 ≤ length (models_to_try cfg)
    ∧ map attempt_key log
      = map (pair Responses) (take n1 (models_to_try cfg))
        ++ map (pair ChatCompletions) (take n2 (models_to_try cfg))
    ∧ (∀ t, res = Returned t
            ↔ ∃ pre a, log = pre ++ [a]
                       ∧ Forall (λ a, attempt_text a = None) pre
                       ∧ attempt_text a = Some t)
    ∧ (∀ i a, log !! i = Some a → scope_failure a → i + 1 = n1 ∧ 1 ≤ n2)
    ∧ (n1 < length (models_to_try cfg) →
       ∃ a, log !! (n1 - 1) = Some a
            ∧ (scope_failure a ∨ is_Some (attempt_text a)))
    ∧ (∀ err, res = Raised err
              ↔ Forall (λ a, attempt_text a = None) log
                ∧ n2 = length (models_to_try cfg)
                ∧ err = request_failed (last_error [] log)
                      ∧ err = lit "OpenAI request failed." ++ nl ++ nl
                              ++ lit "Last error: " ++ last_error [] log
                              ++ nl ++ nl ++ remediation_hint).
Proof.
  intros Hkey Hcall primary fallbacks.
  destruct (call_openai_metadata_passes cl _ _ _ _ _ _ _ _ Hkey Hcall)
    as (log1 & log2 & -> & Hserved & Hn1 & Hn2 & Hkeys1 & Hkeys2 & Hcases).
  exists (length log1), (length log2).
  split; [reflexivity|].
  split; [done|]. split; [done|]. split; [done|].
  split; [by rewrite map_app, Hkeys1, Hkeys2|].
  pose proof (keys_protocol _ _ _ Hkeys2) as Hchat.
  (* what the run came to *)
  assert ((∃ t0 pre a, res = Returned t0 ∧ log1 ++ log2 = pre ++ [a]
                       ∧ Forall (λ a, attempt_text a = None) pre
                       ∧ attempt_text a = Some t0)
          ∨ (res = Raised (request_failed (last_error [] (log1 ++ log2)))
             ∧ Forall (λ a, attempt_text a = None) (log1 ++ log2)
             ∧ length log2 = length (models_to_try cfg))) as Hsum.
  { destruct Hcases as [(pre & a & t & -> & Hpre & Ha & -> & ->)|[Hfirst Hsecond]].
    - left. exists t, pre, a. rewrite app_nil_r.
      auto using plain_failures_no_text.
    - assert (Forall (λ a, attempt_text a = None) log1) as Hnone1.
      { destruct Hfirst as [[_ Hall]|(pre & a & -> & Hpre & Ha)].
        - by apply plain_failures_no_text.
        - apply Forall_app. split; [by apply plain_failures_no_text|].
          constructor; [by apply scope_failure_no_text|constructor]. }
      destruct Hsecond as [(pre & a & t & -> & Hpre & Ha & ->)|(Hl & Hall & ->)].
      + left. exists t, (log1 ++ pre), a. rewrite app_assoc.
        split_and!; [done|done| |done]. by apply Forall_app.
      + right. split_and!; [done| |done]. by apply Forall_app. }
  split.
  { intros t. destruct Hsum as [(t0 & pre & a & -> & Hlog & Hpre & Ha)|(-> & Hall & _)].
    - split.
      + intros [= <-]. eauto.
      + intros (pre' & a' & Hlog' & _ & Ha'). rewrite Hlog in Hlog'.
        apply app_inj_tail in Hlog' as [_ <-]. congruence.
    - split; [discriminate|].
      intros (pre' & a' & Hlog' & _ & Ha'). rewrite Hlog' in Hall.
      apply Forall_app in Hall as [_ Hall]. inversion Hall; congruence. }
  split.
  { intros i a Hi Hscope.
    destruct (decide (i < length log1)) as [Hlt|Hge].
    - rewrite lookup_app_l in Hi by done.
      destruct Hcases as [(pre & a0 & t & -> & Hpre & Ha0 & _)|[Hfirst Hsecond]].
      + apply lookup_snoc_inv in Hi as [Hi|[_ ->]].
        * destruct (scope_failure_not_plain a Hscope).
          by eapply Forall_lookup_1.
        * apply scope_failure_no_text in Hscope. congruence.
      + assert (1 ≤ length log2).
        { destruct Hsecond as [(pre & a2 & t & -> & _)|(-> & _)]; [|lia].
          rewrite length_app. simpl. lia. }
        destruct Hfirst as [[_ Hall]|(pre & a1 & -> & Hpre & Ha1)].
        * destruct (scope_failure_not_plain a Hscope).
          by eapply Forall_lookup_1.
        * apply lookup_snoc_inv in Hi as [Hi|[-> ->]].
          -- destruct (scope_failure_not_plain a Hscope).
             by eapply Forall_lookup_1.
          -- rewrite length_app. simpl. lia.
    - rewrite lookup_app_r in Hi by lia.
      destruct Hscope as [Hp _].
      pose proof (Forall_lookup_1 _ _ _ _ Hchat Hi) as Hp'. simpl in Hp'.
      congruence. }
  split.
  { intros Hshort.
    destruct Hcases as [(pre & a0 & t & -> & Hpre & Ha0 & _)|[Hfirst _]].
    - exists a0. split; [|right; eauto].
      rewrite lookup_app_l by (rewrite length_app; simpl; lia).
      apply list_lookup_middle. rewrite length_app. simpl. lia.
    - destruct Hfirst as [[Hl _]|(pre & a1 & -> & Hpre & Ha1)]; [lia|].
      exists a1. split; [|by left].
      rewrite lookup_app_l by (rewrite length_app; simpl; lia).
      apply list_lookup_middle. rewrite length_app. simpl. lia. }
  intros err. destruct Hsum as [(t0 & pre & a & -> & Hlog & Hpre & Ha)|(-> & Hall & Hl)].
  - split; [discriminate|]. intros (Hall & _). rewrite Hlog in Hall.
    apply Forall_app in Hall as [_ Hall]. inversion Hall; congruence.
  - split.
    + intros [= <-]. done.
    + intros (_ & _ & -> & _). done.
Qed.

Example models_to_try_demo : models_to_try demo_cfg = [lit "m1"; lit "m2"; lit "m3"].
Proof. vm_compute. reflexivity. Qed.

Lemma generation_attempts_witness :
  let primary :=
    strip (default (lit "gpt-5.2-thinking") (demo_cfg !! lit "OPENAI_MODEL")) in
  let fallbacks :=
    filter (λ m, m ≠ [])
      (map strip
         (split comma (default [] (demo_cfg !! lit "OPENAI_FALLBACK_MODELS")))) in
  ∃ n1 n2,
    models_to_try demo_cfg = primary :: filter (λ m, m ≠ primary) fallbacks
    ∧ served scope_client (Payload (lit "provided") [] (lit "00:00 hello"))
      (reasoning_effort demo_cfg) 0 scope_log 3
    ∧ 1 ≤ n1 ≤ length (models_to_try demo_cfg)
    ∧ n2 ≤ length (models_to_try demo_cfg)
    ∧ map attempt_key scope_log
      = map (pair Responses) (take n1 (models_to_try demo_cfg))
        ++ map (pair ChatCompletions) (take n2 (models_to_try demo_cfg))
    ∧ (∀ t, Returned (lit "a title") = Returned t
            ↔ ∃ pre a, scope_log = pre ++ [a]
                       ∧ Forall (λ a, attempt_text a = None) pre
                       ∧ attempt_text a = Some t)
    ∧ (∀ i a, scope_log !! i = Some a → scope_failure a → i + 1 = n1 ∧ 1 ≤ n2)
    ∧ (n1 < length (models_to_try demo_cfg) →
       ∃ a, scope_log !! (n1 - 1) = Some a
            ∧ (scope_failure a ∨ is_Some (attempt_text a)))
    ∧ (∀ err, @Returned str (lit "a title") = Raised err
              ↔ Forall (λ a, attempt_text a = None) scope_log
                ∧ n2 = length (models_to_try demo_cfg)
                ∧ err = request_failed (last_error [] scope_log)
                      ∧ err = lit "OpenAI request failed." ++ nl ++ nl
                              ++ lit "Last error: " ++ last_error [] scope_log
                              ++ nl ++ nl ++ remediation_hint).
Proof.
  apply (generation_attempts scope_client (lit "00:00 hello") (lit "provided")
           [] demo_cfg 0 (Returned (lit "a title")) 3 scope_log).
  - vm_compute. discriminate.
  - vm_compute. reflexivity.
Defined.

(** C1 as stated fails: the fallbacks are not deduplicated.  A fallback named
    three times stays three times in the list, and when every call fails it
    is called three times under each protocol. *)
Lemma fallbacks_not_deduplicated :
  models_to_try repeated_cfg
  = [lit "m1"; lit "m2"; lit "m2"; lit "m3"; lit "m2"]
  ∧ ¬ NoDup (models_to_try repeated_cfg)
  ∧ map attempt_key
      (call_openai_metadata
         (named_service (λ _, Raised (lit "rate limit")) (λ _, Returned None))
         (lit "00:00 hello") (lit "provided") [] repeated_cfg 0).2
    = [ (Responses, lit "m1"); (Responses, lit "m2"); (Responses, lit "m2");
        (Responses, lit "m3"); (Responses, lit "m2");
        (ChatCompletions, lit "m1"); (ChatCompletions, lit "m2");
        (ChatCompletions, lit "m2"); (ChatCompletions, lit "m3");
        (ChatCompletions, lit "m2") ].
Proof.
  split_and!.
  - vm_compute. reflexivity.
  - apply (bool_decide_unpack _). vm_compute. exact I.
  - vm_compute. reflexivity.
Qed.

(** The first protocol succeeds on the second model: its text is returned and
    the third model is not tried. *)
Example second_model_answers :
  call_openai_metadata
    (named_service
       (λ model, if bool_decide (model = lit "m2")
                 then Returned (Some (lit "metadata"))
                 else Raised (lit "model not found"))
       (λ _, Raised (lit "unused")))
    (lit "00:00 hello") (lit "provided") [] demo_cfg 0
  = (Returned (lit "metadata"), 2,
     [ Attempt Responses (lit "m1") (Raised (lit "model not found"));
       Attempt Responses (lit "m2") (Returned (Some (lit "metadata"))) ]).
Proof. vm_compute. reflexivity. Qed.

(** Every call fails: six calls, then the error with the last message. *)
Example every_call_fails :
  call_openai_metadata
    (named_service (λ _, Raised (lit "rate limit")) (λ _, Returned (Some (lit "  "))))
    (lit "00:00 hello") (lit "provided") [] demo_cfg 0
  = (Raised (request_failed empty_chat_response), 6,
     [ Attempt Responses (lit "m1") (Raised (lit "rate limit"));
       Attempt Responses (lit "m2") (Raised (lit "rate limit"));
       Attempt Responses (lit "m3") (Raised (lit "rate limit"));
       Attempt ChatCompletions (lit "m1") (Returned (Some (lit "  ")));
       Attempt ChatCompletions (lit "m2") (Returned (Some (lit "  ")));
       Attempt ChatCompletions (lit "m3") (Returned (Some (lit "  "))) ]).
Proof. vm_compute. reflexivity. Qed.

(** Without a key no call is made. *)
Example missing_key :
  call_openai_metadata scope_client (lit "00:00 hello") (lit "provided") [] ∅ 0
  = (Raised missing_key_message, 0, []).
Proof. vm_compute. reflexivity. Qed.

(** ** The worker *)

Arguments lit : simpl never.

Lemma update_job_in_lookup jobs id kwargs j :
  jobs !! id = Some j →
  update_job_in jobs id kwargs !! id = Some (dict_update j kwargs).
Proof. intros H. unfold update_job_in. rewrite H. apply lookup_insert_eq. Qed.

Lemma replay_app jobs t1 t2 : replay jobs (t1 ++ t2) = replay (replay jobs t1) t2.
Proof.
  revert jobs. induction t1 as [|ev t1 IH]; intros jobs; [done|].
  destruct ev; simpl; apply IH.
Qed.

Lemma progress_log_app jobs id t1 t2 :
  progress_log jobs id (t1 ++ t2)
  = progress_log jobs id t1 ++ progress_log (replay jobs t1) id t2.
Proof.
  revert jobs. induction t1 as [|ev t1 IH]; intros jobs; [done|].
  destruct ev; simpl; [|apply IH..].
  destruct (update_job_in jobs id0 kwargs !! id); simpl; by rewrite IH.
Qed.

(** The three lines of the canned message. *)
Example hard_stop_message_lines :
  splitlines hard_stop_message
  = [ lit "I can see the uploaded video file.";
      lit "Have you checked the sheet for uploaded video links?";
      lit "Please check the reporting sheet. You can find the uploaded video links from the reporting sheet. Use YouTube channel filters. Then copy and paste all the YouTube links from the sheet." ].
Proof. vm_compute. reflexivity. Qed.

(** C2: with link mode "not_provided" the worker makes one update of the
    job, which stores the canned message of three lines as metadata, an empty
    transcript, [qa_pass] true, progress 100 and [done], and then removes the
    upload; no collaborator is called, neither the generation client nor the
    QA check run, and the service is left as it was. *)
Theorem hard_stop {S} (e : env S) (id uploaded_path links_text : str)
    (w : world S) (j0 : job) :
  jobs w !! id = Some j0 →
  let w' := worker e id uploaded_path (lit "not_provided") links_text w in
  trace w'
  = trace w
    ++ [ EvUpdate id
           [ KwProgress 100; KwStage (lit "Stopped (Hard Stop)."); KwDone true;
             KwTranscript []; KwMetadata hard_stop_message; KwQaPass true;
             KwQaIssues [] ];
         EvCall Unlink ]
  ∧ svc w' = svc w
  ∧ ∃ j, jobs w' !! id = Some j
         ∧ metadata j = hard_stop_message
         ∧ length (splitlines (metadata j)) = 3
         ∧ qa_pass j = Some true
         ∧ qa_issues j = []
         ∧ progress j = 100%Z
         ∧ done j = true
         ∧ transcript j = []
         ∧ error j = error j0.
Proof.
  intros Hj0 w'. subst w'. unfold worker, worker_body.
  rewrite bool_decide_eq_true_2 by done.
  cbn [update_job call fst snd jobs trace svc].
  split_and!.
  - by rewrite <- app_assoc.
  - done.
  - eexists. split; [by apply update_job_in_lookup|].
    split_and!; try reflexivity.
Qed.

Lemma hard_stop_witness :
  let w' := worker demo_env demo_id (lit "tmp_jobs/0123456789.mp4")
              (lit "not_provided") [] demo_world in
  trace w'
  = trace demo_world
    ++ [ EvUpdate demo_id
           [ KwProgress 100; KwStage (lit "Stopped (Hard Stop)."); KwDone true;
             KwTranscript []; KwMetadata hard_stop_message; KwQaPass true;
             KwQaIssues [] ];
         EvCall Unlink ]
  ∧ svc w' = svc demo_world
  ∧ ∃ j, jobs w' !! demo_id = Some j
         ∧ metadata j = hard_stop_message
         ∧ length (splitlines (metadata j)) = 3
         ∧ qa_pass j = Some true
         ∧ qa_issues j = []
         ∧ progress j = 100%Z
         ∧ done j = true
         ∧ transcript j = []
         ∧ error j = error (new_job demo_id).
Proof.
  apply (hard_stop demo_env demo_id (lit "tmp_jobs/0123456789.mp4") []
           demo_world (new_job demo_id)).
  apply lookup_insert_eq.
Defined.

(** A transcript line is never blank: it holds a colon. *)
Lemma transcript_line_colon s : 58%N ∈ transcript_line s.
Proof.
  unfold transcript_line. rewrite !elem_of_app. right. left.
  change (lit ":") with [58%N]. left.
Qed.

Lemma join_first sep l ls c : c ∈ l → c ∈ join sep (l :: ls).
Proof.
  intros H. destruct ls as [|l' ls]; simpl; [done|].
  rewrite elem_of_app. by left.
Qed.

(** The assembled transcript is empty only when there is no segment. *)
Lemma transcript_empty_iff segments :
  strip (join nl (map transcript_line segments)) = [] ↔ segments = [].
Proof.
  split; [|by intros ->].
  destruct segments as [|s segments]; [done|]. intros H.
  assert (58%N ∈ strip (join nl (map transcript_line (s :: segments)))) as Hin.
  { apply strip_keeps; [|done]. apply join_first, transcript_line_colon. }
  rewrite H in Hin. by apply elem_of_nil in Hin.
Qed.

(** C8: the link mode is not the hard stop, the stages before the
    transcription go through, and the transcription ends without a fault
    having yielded no segment (segments that assemble to an empty transcript
    are the same case).  Then the worker ends in the handler: the job has an
    error, [done] and progress 100; metadata, transcript and [qa_pass] are as
    they were, and neither link validation nor generation nor the QA check has
    run.  The error is "Transcript is empty..." when the temporary directory
    is removed without a fault, and the fault of the removal otherwise. *)
Theorem empty_transcript_fails {S} (e : env S)
    (id uploaded_path link_mode links_text : str) (w : world S) (j0 : job)
    (segments : list segment) :
  jobs w !! id = Some j0 →
  link_mode ≠ lit "not_provided" →
  temporary_directory e = Returned tt →
  copy_upload e = Returned tt →
  extract_audio_wav_16k_mono e = Returned tt →
  get_whisper e = Returned tt →
  transcribe e = Returned (segments, None) →
  segments = [] ∨ strip (join nl (map transcript_line segments)) = [] →
  let w' := worker e id uploaded_path link_mode links_text w in
  let err := match cleanup e with
             | Returned _ => empty_transcript_message
             | Raised msg => msg
             end in
  trace w'
  = trace w
    ++ [ EvUpdate id [KwProgress 5; KwStage (lit "Extracting audio" ++ [ellipsis])];
         EvCall MakeTempDir;
         EvCall CopyUpload; EvCall ExtractAudio; EvCall ProbeDuration;
         EvUpdate id
           [ KwProgress 15;
             KwStage (lit "Loading speech model" ++ [ellipsis]
                      ++ lit " (first run may take time)") ];
         EvCall LoadWhisper;
         EvUpdate id [KwProgress 20; KwStage transcribing];
         EvCall Transcribe;
         EvCall CleanupTempDir;
         EvUpdate id
           [ KwDone true; KwError err; KwStage (lit "Error"); KwProgress 100 ];
         EvCall Unlink ]
  ∧ svc w' = svc w
  ∧ ∃ j, jobs w' !! id = Some j
         ∧ error j = Some err
         ∧ done j = true
         ∧ progress j = 100%Z
         ∧ stage j = lit "Error"
         ∧ metadata j = metadata j0
         ∧ transcript j = transcript j0
         ∧ qa_pass j = qa_pass j0.
Proof.
  intros Hj0 Hmode Htemp Hcopy Hextract Hwhisper Htranscribe Hempty w' err.
  assert (segments = []) as ->.
  { destruct Hempty as [?|?%transcript_empty_iff]; done. }
  subst w' err.
  unfold worker, worker_body, with_temporary_directory, in_temporary_directory.
  rewrite bool_decide_eq_false_2 by done.
  rewrite Htemp, Hcopy, Hextract, Hwhisper, Htranscribe.
  unfold bind, call, update_job.
  cbn [fst snd jobs trace svc transcribe_loop ret raise join strip rstrip
       lstrip rev app].
  destruct (cleanup e) as [[]|msg]; cbn [fst snd jobs trace svc].
  - split_and!.
    + rewrite <- !app_assoc. reflexivity.
    + reflexivity.
    + eexists. split.
      * do 4 (apply update_job_in_lookup). exact Hj0.
      * split_and!; reflexivity.
  - split_and!.
    + rewrite <- !app_assoc. reflexivity.
    + reflexivity.
    + eexists. split.
      * do 4 (apply update_job_in_lookup). exact Hj0.
      * split_and!; reflexivity.
Qed.

Lemma empty_transcript_fails_witness :
  let w' := worker demo_env demo_id (lit "tmp_jobs/0123456789.mp4")
              (lit "provided") (lit "https://example.org") demo_world in
  let err := match cleanup demo_env with
             | Returned _ => empty_transcript_message
             | Raised msg => msg
             end in
  trace w'
  = trace demo_world
    ++ [ EvUpdate demo_id
           [KwProgress 5; KwStage (lit "Extracting audio" ++ [ellipsis])];
         EvCall MakeTempDir;
         EvCall CopyUpload; EvCall ExtractAudio; EvCall ProbeDuration;
         EvUpdate demo_id
           [ KwProgress 15;
             KwStage (lit "Loading speech model" ++ [ellipsis]
                      ++ lit " (first run may take time)") ];
         EvCall LoadWhisper;
         EvUpdate demo_id [KwProgress 20; KwStage transcribing];
         EvCall Transcribe;
         EvCall CleanupTempDir;
         EvUpdate demo_id
           [ KwDone true; KwError err; KwStage (lit "Error"); KwProgress 100 ];
         EvCall Unlink ]
  ∧ svc w' = svc demo_world
  ∧ ∃ j, jobs w' !! demo_id = Some j
         ∧ error j = Some err
         ∧ done j = true
         ∧ progress j = 100%Z
         ∧ stage j = lit "Error"
         ∧ metadata j = metadata (new_job demo_id)
         ∧ transcript j = transcript (new_job demo_id)
         ∧ qa_pass j = qa_pass (new_job demo_id).
Proof.
  apply (empty_transcript_fails demo_env demo_id (lit "tmp_jobs/0123456789.mp4")
           (lit "provided") (lit "https://example.org") demo_world
           (new_job demo_id) []).
  - apply lookup_insert_eq.
  - vm_compute. discriminate.
  - reflexivity.
  - reflexivity.
  - reflexivity.
  - reflexivity.
  - reflexivity.
  - left. reflexivity.
Defined.

(** C8 as stated fails when the temporary directory cannot be removed: the
    transcription yields no segment, and the error recorded is that of the
    removal, not "Transcript is empty...". *)
Lemma empty_transcript_other_error :
  let w' := worker cleanup_fails_env demo_id (lit "tmp_jobs/0123456789.mp4")
              (lit "checked_no_links") [] demo_world in
  transcribe cleanup_fails_env = Returned ([], None)
  ∧ (error <$> jobs w' !! demo_id) = Some (Some (lit "[Errno 16] Device or resource busy"))
  ∧ (error <$> jobs w' !! demo_id) ≠ Some (Some empty_transcript_message)
  ∧ (done <$> jobs w' !! demo_id) = Some true
  ∧ (metadata <$> jobs w' !! demo_id) = Some [].
Proof.
  vm_compute. split_and!; try reflexivity. discriminate.
Qed.

(** ** Progress *)

Lemma int_of_Q_le (x : Q) (n : Z) :
  (x <= inject_Z n)%Q → (0 ≤ n)%Z → (int_of_Q x ≤ n)%Z.
Proof.
  unfold Qle, int_of_Q. destruct x as [num den]. simpl. intros H Hn.
  destruct (Z.lt_ge_cases num 0) as [Hneg|Hpos].
  - replace num with (- (- num))%Z by lia. rewrite Z.quot_opp_l by lia.
    pose proof (Z.quot_pos (- num) (Z.pos den)). lia.
  - rewrite Z.quot_div_nonneg by lia.
    apply Z.div_le_upper_bound; lia.
Qed.

(** The progress computed from a segment never exceeds 75. *)
Lemma segment_progress_le dur s : (segment_progress dur s ≤ 75)%Z.
Proof.
  unfold segment_progress.
  set (ratio := (seg_end s / dur)%Q).
  assert (((if Qlt_le_dec ratio 1 then ratio else 1%Q) <= 1)%Q) as Hcov.
  { destruct (Qlt_le_dec ratio 1); [by apply Qlt_le_weak|apply Qle_refl]. }
  set (covered := if Qlt_le_dec ratio 1 then ratio else 1%Q) in *.
  assert (int_of_Q (55 * covered) ≤ 55)%Z; [|lia].
  apply int_of_Q_le; [|lia].
  destruct covered as [num den]. unfold Qle in *. simpl in *. lia.
Qed.

Lemma ascending_snoc lo l p :
  ascending lo (l ++ [p]) ↔ ascending lo l ∧ (default lo (last l) ≤ p)%Z.
Proof.
  revert lo. induction l as [|q l IH]; intros lo; simpl.
  - tauto.
  - rewrite IH, last_cons. destruct (last l); simpl; tauto.
Qed.

Lemma ascending_last lo l : ascending lo l → (lo ≤ default lo (last l))%Z.
Proof.
  revert lo. induction l as [|q l IH]; intros lo; simpl; [lia|].
  intros [Hq Hl]. apply IH in Hl. rewrite last_cons.
  destruct (last l); simpl in *; lia.
Qed.

Lemma ascending_adjacent lo l i p q :
  ascending lo l → (lo :: l) !! i = Some p → (lo :: l) !! S i = Some q →
  (p ≤ q)%Z.
Proof.
  revert lo i. induction l as [|x l IH]; intros lo i Hasc Hp Hq.
  - destruct i; done.
  - destruct Hasc as [Hx Hl]. destruct i as [|i].
    + simpl in Hp, Hq. congruence.
    + by apply (IH x i).
Qed.

Lemma ascending_bounds lo l p :
  ascending lo l → In p (lo :: l) → (lo ≤ p ≤ default lo (last l))%Z.
Proof.
  revert lo. induction l as [|x l IH]; intros lo Hasc Hin.
  - destruct Hin as [<-|[]]. simpl. lia.
  - destruct Hasc as [Hx Hl]. rewrite last_cons.
    pose proof (ascending_last _ _ Hl) as Hlast.
    assert (default lo (match last l with Some y => Some y | None => Some x end)
            = default x (last l)) as -> by by destruct (last l).
    destruct Hin as [<-|Hin]; [lia|].
    apply (IH x Hl) in Hin. lia.
Qed.

Section Progress.
Context {S : Type} (jobs0 : gmap str job) (id : str) (j0 : job).

Local Abbreviation tracked := (tracked (S:=S) jobs0 id j0).
Local Abbreviation hoare := (hoare (S:=S) jobs0 id j0).

Lemma tracked_weaken lo hi lo' hi' w :
  tracked lo hi w → (lo' ≤ lo)%Z → (hi ≤ hi')%Z → tracked lo' hi' w.
Proof.
  intros (Hre & Hasc & j & Hj & Hp & Hr) ? ?.
  split; [done|]. split; [done|]. exists j. split_and!; [done|done|lia|lia].
Qed.

Lemma tracked_raised lo hi w :
  tracked lo hi w → (hi ≤ 100)%Z → tracked (progress j0) 100 w.
Proof.
  intros (Hre & Hasc & j & Hj & Hp & Hr) ?.
  split; [done|]. split; [done|]. exists j. split_and!; [done|done| |lia].
  rewrite Hp. by apply ascending_last.
Qed.

(** An event that is no update leaves the job as it is. *)
Lemma tracked_silent lo hi w ev s' :
  (∀ i kw, ev ≠ EvUpdate i kw) →
  tracked lo hi w → tracked lo hi (World (jobs w) (trace w ++ [ev]) s').
Proof.
  intros Hev (Hre & Hasc & j & Hj & Hp & Hr). hnf. simpl.
  rewrite replay_app, progress_log_app, <- Hre.
  assert (replay (jobs w) [ev] = jobs w ∧ progress_log (jobs w) id [ev] = [])
    as [-> ->].
  { destruct ev; [by destruct (Hev id0 kwargs)|done|done]. }
  rewrite app_nil_r. split; [done|]. split; [done|]. by exists j.
Qed.

(** An update that writes no progress value below the current one. *)
Lemma tracked_update lo hi w kw lo' hi' :
  tracked lo hi w →
  (∀ j, (lo ≤ progress j ≤ hi)%Z →
        (progress j ≤ progress (dict_update j kw))%Z
        ∧ (lo' ≤ progress (dict_update j kw) ≤ hi')%Z) →
  tracked lo' hi' (update_job id kw w).2.
Proof.
  intros (Hre & Hasc & j & Hj & Hp & Hr) Hkw.
  destruct (Hkw j Hr) as [Hup Hr'].
  pose proof (update_job_in_lookup _ _ kw _ Hj) as Hj'.
  hnf. unfold update_job. simpl.
  rewrite replay_app, progress_log_app, <- Hre. simpl. rewrite Hj'.
  split; [done|]. split.
  - apply ascending_snoc. split; [done|]. by rewrite <- Hp.
  - exists (dict_update j kw). rewrite last_snoc. done.
Qed.

Lemma hoare_ret {A} lo hi (a : A) : hoare lo hi (ret a) lo hi.
Proof. intros w Hw. done. Qed.

Lemma hoare_raise {A} lo hi lo' hi' msg :
  (hi ≤ 100)%Z → hoare lo hi (raise (A:=A) msg) lo' hi'.
Proof. intros Hhi w Hw. simpl. by eapply tracked_raised. Qed.

Lemma hoare_bind {A B} lo hi lo1 hi1 lo' hi' (m : M S A) (k : A → M S B) :
  hoare lo hi m lo1 hi1 → (∀ a, hoare lo1 hi1 (k a) lo' hi') →
  hoare lo hi (bind m k) lo' hi'.
Proof.
  intros Hm Hk w Hw. unfold bind. specialize (Hm w Hw).
  destruct (m w) as [[a|msg] w1]; [|done]. by apply Hk.
Qed.

Lemma hoare_conseq {A} lo hi lo' hi' lo2 hi2 lo2' hi2' (m : M S A) :
  hoare lo hi m lo' hi' →
  (lo ≤ lo2)%Z → (hi2 ≤ hi)%Z → (lo2' ≤ lo')%Z → (hi' ≤ hi2')%Z →
  hoare lo2 hi2 m lo2' hi2'.
Proof.
  intros Hm ? ? ? ? w Hw.
  specialize (Hm w (tracked_weaken _ _ _ _ _ Hw ltac:(done) ltac:(done))).
  destruct (m w) as [[a|msg] w1]; [|done]. by eapply tracked_weaken.
Qed.

Lemma hoare_call {A} lo hi c (r : outcome A) :
  (hi ≤ 100)%Z → hoare lo hi (call c r) lo hi.
Proof.
  intros Hhi w Hw. unfold call.
  assert (tracked lo hi (World (jobs w) (trace w ++ [EvCall c]) (svc w))) as Hw'
    by by apply tracked_silent.
  destruct r; [done|]. by eapply tracked_raised.
Qed.

Lemma hoare_generate lo hi (e : env S) transcript lm vl cfg :
  (hi ≤ 100)%Z → hoare lo hi (generate e transcript lm vl cfg) lo hi.
Proof.
  intros Hhi w Hw. unfold generate.
  destruct (call_openai_metadata _ _ _ _ _ _) as [[r s'] attempts].
  assert (tracked lo hi
            (World (jobs w) (trace w ++ [EvGenerate attempts]) s')) as Hw'
    by by apply tracked_silent.
  destruct r; [done|]. by eapply tracked_raised.
Qed.

Lemma hoare_update_to lo hi kw p :
  (∀ j, progress (dict_update j kw) = p) → (hi ≤ p)%Z →
  hoare lo hi (update_job id kw) p p.
Proof.
  intros Hkw Hhi w Hw. apply (tracked_update lo hi); [done|].
  intros j Hj. rewrite Hkw. lia.
Qed.

Lemma hoare_update_same lo hi kw :
  (∀ j, progress (dict_update j kw) = progress j) →
  hoare lo hi (update_job id kw) lo hi.
Proof.
  intros Hkw w Hw. apply (tracked_update lo hi); [done|].
  intros j Hj. rewrite Hkw. lia.
Qed.
End Progress.

Section WorkerProgress.
Context {S : Type} (e : env S) (jobs0 : gmap str job) (id : str) (j0 : job).

Local Abbreviation hoare := (hoare (S:=S) jobs0 id j0).

Local Ltac field_value :=
  intros; cbn [progress dict_update foldl set_field]; reflexivity.

Local Ltac step_update :=
  eapply hoare_bind; [apply hoare_update_to; [field_value|lia]|intros _].

Local Ltac step_call :=
  eapply hoare_bind; [apply hoare_call; lia|intros ?].

(** The segment loop only writes values above [last_pct] and up to 75. *)
Lemma hoare_transcribe_loop dur segments lines last_pct :
  (20 ≤ last_pct ≤ 75)%Z →
  hoare 20 last_pct (transcribe_loop id dur segments lines last_pct) 20 75.
Proof.
  revert lines last_pct.
  induction segments as [|s segments IH]; intros lines last_pct Hpct.
  - simpl.
    eapply hoare_conseq with (lo := 20%Z) (hi := last_pct) (lo' := 20%Z)
                             (hi' := last_pct); [apply hoare_ret|lia..].
  - cbn [transcribe_loop].
    destruct (Qlt_le_dec 0 dur); [|by apply IH].
    destruct (last_pct <? segment_progress dur s)%Z eqn:Hp; [|by apply IH].
    apply Z.ltb_lt in Hp. pose proof (segment_progress_le dur s).
    eapply hoare_bind.
    + apply hoare_update_to; [field_value|lia].
    + intros _.
      eapply hoare_conseq with (lo := 20%Z) (hi := segment_progress dur s)
                               (lo' := 20%Z) (hi' := 75%Z);
        [apply IH; lia|lia..].
Qed.

(** The [with] block takes the progress from 5 to 100 when it returns. *)
Lemma hoare_in_temporary_directory link_mode links_text :
  hoare 5 5 (in_temporary_directory e id link_mode links_text) 100 100.
Proof.
  unfold in_temporary_directory.
  step_call. step_call. step_call. step_update. step_call.
  step_update.
  eapply hoare_bind; [apply hoare_call; lia|intros yielded].
  eapply hoare_bind; [apply hoare_transcribe_loop; lia|intros lines].
  eapply hoare_bind;
    [destruct (yielded.2); [apply hoare_raise; lia|apply hoare_ret]|intros _].
  eapply hoare_bind;
    [destruct (strip (join nl lines));
       [apply hoare_raise; lia|apply hoare_ret]|intros _].
  step_update.
  eapply hoare_bind.
  { destruct (_ && _); [apply hoare_call; lia|apply hoare_ret]. }
  intros validated.
  step_update. step_call.
  eapply hoare_bind; [apply hoare_generate; lia|intros metadata].
  step_update. step_call.
  eapply hoare_bind;
    [apply hoare_update_same; field_value|intros _].
  apply hoare_update_to; [field_value|lia].
Qed.

(** Making and removing the temporary directory writes no progress. *)
Lemma hoare_with_temporary_directory {A} lo hi lo' hi' (body : M S A) :
  (hi ≤ 100)%Z → (hi' ≤ 100)%Z →
  hoare lo hi body lo' hi' →
  hoare lo hi (with_temporary_directory e body) lo' hi'.
Proof.
  intros Hhi Hhi' Hbody. unfold with_temporary_directory.
  eapply hoare_bind; [apply hoare_call; lia|intros _].
  intros w Hw. specialize (Hbody w Hw).
  destruct (body w) as [r w1]. unfold call.
  destruct r as [a|msg].
  - assert (tracked jobs0 id j0 lo' hi'
              (World (jobs w1) (trace w1 ++ [EvCall CleanupTempDir]) (svc w1)))
      as Hw2 by by apply tracked_silent.
    destruct (cleanup e); [done|]. by eapply tracked_raised.
  - assert (tracked jobs0 id j0 (progress j0) 100
              (World (jobs w1) (trace w1 ++ [EvCall CleanupTempDir]) (svc w1)))
      as Hw2 by by apply tracked_silent.
    by destruct (cleanup e).
Qed.

(** The [try] block takes the progress from 1 to 100 when it returns. *)
Lemma hoare_worker_body uploaded_path link_mode links_text :
  hoare 1 1 (worker_body e id uploaded_path link_mode links_text) 100 100.
Proof.
  unfold worker_body.
  destruct (bool_decide (link_mode = lit "not_provided")).
  { apply hoare_update_to; [field_value|lia]. }
  step_update.
  apply hoare_with_temporary_directory; [lia..|].
  apply hoare_in_temporary_directory.
Qed.

Lemma tracked_worker uploaded_path link_mode links_text s0 :
  jobs0 !! id = Some j0 → progress j0 = 1%Z →
  tracked jobs0 id j0 100 100
    (worker e id uploaded_path link_mode links_text (World jobs0 [] s0)).
Proof.
  intros Hj0 Hp0.
  assert (tracked jobs0 id j0 1 1 (World jobs0 [] s0)) as Hw0.
  { split; [done|]. split; [done|]. exists j0. simpl.
    split; [done|]. split; [done|lia]. }
  pose proof (hoare_worker_body uploaded_path link_mode links_text _ Hw0) as Hbody.
  unfold worker.
  destruct (worker_body e id uploaded_path link_mode links_text (World jobs0 [] s0))
    as [[[]|msg] w1].
  - unfold call. simpl. by apply tracked_silent.
  - unfold call. cbn [snd]. apply tracked_silent; [done|].
    apply (hoare_update_to jobs0 id j0 (progress j0) 100);
      [field_value|lia|done].
Qed.
End WorkerProgress.

(** C9: from the record [api_start] stores, with progress 1, through every
    update the worker makes, the progress of the job never goes down and stays
    between 0 and 100; the last value written is 100.  The registry the
    worker leaves is the one these updates produce. *)
Theorem progress_monotone {S} (e : env S)
    (id uploaded_path link_mode links_text : str)
    (jobs0 : gmap str job) (s0 : S) (j0 : job) :
  jobs0 !! id = Some j0 → progress j0 = 1%Z →
  let w' := worker e id uploaded_path link_mode links_text (World jobs0 [] s0) in
  let values := progress j0 :: progress_log jobs0 id (trace w') in
  jobs w' = replay jobs0 (trace w')
  ∧ (∀ i p q, values !! i = Some p → values !! (i + 1) = Some q → (p ≤ q)%Z)
  ∧ (∀ p, In p values → (0 ≤ p ≤ 100)%Z)
  ∧ last values = Some 100%Z
  ∧ ∃ j, jobs w' !! id = Some j ∧ progress j = 100%Z.
Proof.
  intros Hj0 Hp0 w' values.
  destruct (tracked_worker e jobs0 id j0 uploaded_path link_mode links_text
              s0 Hj0 Hp0) as (Hre & Hasc & j & Hj & Hp & Hr).
  fold w' in Hre, Hasc, Hj, Hp.
  assert (default (progress j0) (last (progress_log jobs0 id (trace w')))
          = 100%Z) as Hlast by lia.
  split; [done|]. split; [|split; [|split]].
  - intros i p q. rewrite Nat.add_1_r. by apply ascending_adjacent.
  - intros p Hin. apply (ascending_bounds _ _ _ Hasc) in Hin. lia.
  - unfold values. rewrite last_cons.
    destruct (last (progress_log jobs0 id (trace w'))); simpl in Hlast; congruence.
  - exists j. split; [done|lia].
Qed.

Lemma progress_monotone_witness :
  let w' := worker talk_env demo_id (lit "tmp_jobs/0123456789.mp4")
              (lit "checked_no_links") [] (World (jobs demo_world) [] 0) in
  let values :=
    progress (new_job demo_id)
    :: progress_log (jobs demo_world) demo_id (trace w') in
  jobs w' = replay (jobs demo_world) (trace w')
  ∧ (∀ i p q, values !! i = Some p → values !! (i + 1) = Some q → (p ≤ q)%Z)
  ∧ (∀ p, In p values → (0 ≤ p ≤ 100)%Z)
  ∧ last values = Some 100%Z
  ∧ ∃ j, jobs w' !! demo_id = Some j ∧ progress j = 100%Z.
Proof.
  apply (progress_monotone talk_env demo_id (lit "tmp_jobs/0123456789.mp4")
           (lit "checked_no_links") [] (jobs demo_world) 0 (new_job demo_id)).
  - apply lookup_insert_eq.
  - reflexivity.
Defined.

(** The progress values of that run, the transcript it assembles and the way
    it ends. *)
Example talk_run :
  let w' := worker talk_env demo_id (lit "tmp_jobs/0123456789.mp4")
              (lit "checked_no_links") [] demo_world in
  progress_log (jobs demo_world) demo_id (trace w')
  = [5; 15; 20; 47; 75; 80; 88; 96; 96; 100]%Z
  ∧ (transcript <$> jobs w' !! demo_id)
    = Some (lit "00:00 Hello." ++ nl ++ lit "00:02 Welcome back." ++ nl
            ++ lit "01:05 Goodbye.")
  ∧ (metadata <$> jobs w' !! demo_id) = Some (lit "a title")
  ∧ (qa_pass <$> jobs w' !! demo_id) = Some (Some false)
  ∧ (error <$> jobs w' !! demo_id) = Some None.
Proof. vm_compute. done. Qed.

(** * Further properties of the validator *)

(** The dash rule: "Contains an em dash/en dash" is reported exactly when one
    of the two characters occurs anywhere in the text. *)
Theorem dash_rule (txt lm : str) (vl : list validated_link) :
  ∃ issues,
    qa_check txt lm vl = Some issues
    ∧ (In (render DashFound) issues ↔ In em_dash txt ∨ In en_dash txt).
Proof.
  destruct (qa_check_in txt lm vl) as (tsi & issues & _ & Heq & _ & Hin).
  exists issues. split; [done|].
  rewrite Hin. cbn [rule_of run_rule qa_run_of run_dash]. unfold dash_issues.
  assert (∀ c, contains [c] txt = true ↔ In c txt) as Hc.
  { intros c. rewrite <- list_elem_of_In. apply contains_singleton. }
  rewrite <- !Hc.
  destruct (contains [em_dash] txt), (contains [en_dash] txt); simpl;
    intuition discriminate.
Qed.

Lemma blank_or_first_text (post : list str) :
  (∀ l, In l post → strip l = [])
  ∨ ∃ gap line post', post = gap ++ line :: post'
                      ∧ (∀ l, In l gap → strip l = []) ∧ strip line ≠ [].
Proof.
  induction post as [|l post IH]; [left; intros ? []|].
  destruct (strip l) as [|c r] eqn:Hl.
  - destruct IH as [Hall|(gap & line & post' & -> & Hgap & Hline)].
    + left. intros l' [<-|Hl']; auto.
    + right. exists (l :: gap), line, post'. split; [done|]. split; [|done].
      intros l' [<-|Hl']; auto.
  - right. exists [], l, post. split; [done|]. split; [intros ? []|].
    rewrite Hl. discriminate.
Qed.

Lemma title_issues_no_text lab pre line post :
  (∀ l, In l pre → strip l ≠ lab) → strip line = lab →
  (∀ l, In l post → strip l = []) →
  title_issues (pre ++ line :: post) lab = [NoTitleText lab].
Proof.
  intros Hpre Hline Hpost. unfold title_issues.
  rewrite (find_index_first _ pre line).
  - assert (drop (length pre + 1) (pre ++ line :: post) = post) as ->.
    { rewrite (cons_middle line), app_assoc.
      replace (length pre + 1) with (length (pre ++ [line]))
        by (rewrite length_app; simpl; lia).
      apply drop_app_length. }
    rewrite skip_blank_all_blank by done.
    rewrite lookup_ge_None_2; [done|].
    rewrite length_app. simpl. lia.
  - intros y Hy. apply bool_decide_eq_false_2. by apply Hpre.
  - by apply bool_decide_eq_true_2.
Qed.

Lemma in_no_title_concat lines labs lab :
  In lab labs →
  In (NoTitleText lab) (concat (map (title_issues lines) labs))
  ↔ In (NoTitleText lab) (title_issues lines lab).
Proof.
  intros Hlab. rewrite in_concat. split.
  - intros (l & (lab' & <- & _)%in_map_iff & Hin).
    destruct (title_issues_shape _ _ _ Hin) as [[= ->]|[L ?]]; done.
  - intros Hin. exists (title_issues lines lab). split; [|done].
    apply in_map_iff. eauto.
Qed.

(** When a label heads a line, "No title text found after" that label is
    reported exactly when every line after the first such line is blank. *)
Theorem no_title_text_rule (txt lm : str) (vl : list validated_link)
    (lab : str) (pre : list str) (line : str) (post : list str) :
  In lab required_labels →
  splitlines txt = pre ++ line :: post →
  (∀ l, In l pre → strip l ≠ lab) → strip line = lab →
  ∃ issues,
    qa_check txt lm vl = Some issues
    ∧ (In (render (NoTitleText lab)) issues ↔ ∀ l, In l post → strip l = []).
Proof.
  intros Hlab Hlines Hpre Hline.
  destruct (qa_check_in txt lm vl) as (tsi & issues & _ & Heq & _ & Hin).
  exists issues. split; [done|].
  rewrite Hin. cbn [rule_of run_rule qa_run_of run_titles].
  rewrite in_no_title_concat, Hlines by done.
  destruct (blank_or_first_text post)
    as [Hall|(gap & tl & post' & -> & Hgap & Htl)].
  - rewrite title_issues_no_text by done. split; [done|]. intros _. by left.
  - rewrite title_issues_found by done. cbn zeta.
    split.
    + destruct (_ || _); simpl; [intros [?|[]]; discriminate|intros []].
    + intros Hall. destruct Htl. apply Hall.
      apply in_app_iff. right. by left.
Qed.

Lemma no_title_text_rule_witness :
  ∃ issues,
    qa_check (lit "intro" ++ nl ++ label1 ++ nl ++ lit "  " ++ nl)
      (lit "provided") [] = Some issues
    ∧ (In (render (NoTitleText label1)) issues
       ↔ ∀ l, In l [lit "  "] → strip l = []).
Proof.
  apply (no_title_text_rule (lit "intro" ++ nl ++ label1 ++ nl ++ lit "  " ++ nl)
           (lit "provided") [] label1 [lit "intro"] label1 [lit "  "]).
  - left. reflexivity.
  - vm_compute. reflexivity.
  - intros l [<-|[]]. vm_compute. discriminate.
  - vm_compute. reflexivity.
Defined.

Lemma title_issues_absent lines lab :
  (∀ l, In l lines → strip l ≠ lab) → title_issues lines lab = [].
Proof.
  intros H. unfold title_issues. rewrite find_index_none; [done|].
  intros l Hl. apply bool_decide_eq_false_2. by apply H.
Qed.

(** A label that heads no line is not checked by the title rule at all:
    neither "No title text found" nor a title length is reported for it,
    also when the label occurs inside a longer line. *)
Theorem title_rule_needs_label_line (txt lm : str) (vl : list validated_link)
    (lab : str) :
  In lab required_labels →
  (∀ l, In l (splitlines txt) → strip l ≠ lab) →
  ∃ issues,
    qa_check txt lm vl = Some issues
    ∧ ¬ In (render (NoTitleText lab)) issues
    ∧ ∀ L, ¬ In (render (TitleLength L lab)) issues.
Proof.
  intros Hlab Hnone.
  destruct (qa_check_in txt lm vl) as (tsi & issues & _ & Heq & _ & Hin).
  exists issues. split; [done|]. split.
  - rewrite Hin. cbn [rule_of run_rule qa_run_of run_titles].
    rewrite in_no_title_concat, title_issues_absent by done. intros [].
  - intros L. rewrite Hin. cbn [rule_of run_rule qa_run_of run_titles].
    rewrite in_title_issues_concat, title_issues_absent by done. intros [].
Qed.

Lemma title_rule_needs_label_line_witness :
  ∃ issues,
    qa_check embedded_label_text (lit "provided") [] = Some issues
    ∧ ¬ In (render (NoTitleText label1)) issues
    ∧ ∀ L, ¬ In (render (TitleLength L label1)) issues.
Proof.
  apply (title_rule_needs_label_line embedded_label_text (lit "provided") []
           label1).
  - left. reflexivity.
  - intros l Hl. vm_compute in Hl. destruct Hl as [<-|[]].
    vm_compute. discriminate.
Defined.

Lemma digit_in_bound blocks c v : digit_in blocks c = Some v → (v ≤ 9)%N.
Proof.
  induction blocks as [|b blocks IH]; simpl; [discriminate|].
  destruct ((b <=? c)%N && (c <? b + 10)%N) eqn:H; [|done].
  apply andb_true_iff in H as [?%N.leb_le ?%N.ltb_lt]. intros [= <-]. lia.
Qed.

Lemma match_timestamp_range s t :
  match_timestamp s = Some t →
  ∃ v, _mmss_to_sec t = Some v ∧ (0 ≤ v ≤ 6039)%Z.
Proof.
  intros (d1 & d2 & d3 & d4 & w & rest & _ & H1 & H2 & H3 & H4 & _ & _ & ->)
    %match_timestamp_spec.
  apply isdigit_value in H1 as (v1 & H1). apply isdigit_value in H2 as (v2 & H2).
  apply isdigit_value in H3 as (v3 & H3). apply isdigit_value in H4 as (v4 & H4).
  erewrite mmss_to_sec_digits by done. eexists. split; [done|].
  apply digit_in_bound in H1, H2, H3, H4. lia.
Qed.

(** The validator never raises: every string the timestamp pattern extracts
    is read by [_mmss_to_sec], as a number of seconds from 0 to 6039. *)
Theorem qa_check_never_raises (txt lm : str) (vl : list validated_link) :
  (∃ issues, qa_check txt lm vl = Some issues)
  ∧ ∀ t, In t (collect_timestamps (splitlines txt)) →
         ∃ v, _mmss_to_sec t = Some v ∧ (0 ≤ v ≤ 6039)%Z.
Proof.
  split.
  - destruct (qa_check_returns txt lm vl) as (tsi & _ & ->). eauto.
  - intros t (s & Hs)%list_elem_of_In%collect_timestamps_matched.
    by eapply match_timestamp_range.
Qed.

Lemma rule_ordered_app k l1 l2 :
  Forall (λ x, rule_of x = k) l1 → Forall (λ x, k ≤ rule_of x) l2 →
  rule_ordered l2 → rule_ordered (l1 ++ l2).
Proof.
  intros H1 H2 Ho i j a b Hij Ha Hb.
  destruct (decide (i < length l1)) as [Hi|Hi].
  - rewrite lookup_app_l in Ha by done.
    pose proof (Forall_lookup_1 _ _ _ _ H1 Ha) as Hka. simpl in Hka.
    destruct (decide (j < length l1)) as [Hj|Hj].
    + rewrite lookup_app_l in Hb by done.
      pose proof (Forall_lookup_1 _ _ _ _ H1 Hb) as Hkb. simpl in Hkb. lia.
    + rewrite lookup_app_r in Hb by lia.
      pose proof (Forall_lookup_1 _ _ _ _ H2 Hb) as Hkb. simpl in Hkb. lia.
  - rewrite lookup_app_r in Ha, Hb by lia.
    apply (Ho (i - length l1) (j - length l1)); [lia|done..].
Qed.

Lemma Forall_rule_ge k k' l :
  k' ≤ k → Forall (λ x, rule_of x = k) l → Forall (λ x, k' ≤ rule_of x) l.
Proof. intros Hk H. eapply Forall_impl; [done|]. intros x Hx. simpl in *. lia. Qed.

(** The violations come out rule by rule, in the order in which the source
    checks them: dashes, missing labels, titles, Watch Next, tags,
    timestamps. *)
Theorem qa_check_order (txt lm : str) (vl : list validated_link) :
  ∃ issues,
    qa_check txt lm vl = Some (map render issues) ∧ rule_ordered issues.
Proof.
  destruct (qa_check_run txt lm vl) as (tsi & _ & Heq & H0 & H1 & H2 & H3 & H4 & H5).
  exists (run_all (qa_run_of txt lm vl tsi)). split; [done|].
  unfold run_all.
  apply (rule_ordered_app 0); [done| |].
  { rewrite !Forall_app. repeat split; (eapply Forall_rule_ge; [|done]; lia). }
  apply (rule_ordered_app 1); [done| |].
  { rewrite !Forall_app. repeat split; (eapply Forall_rule_ge; [|done]; lia). }
  apply (rule_ordered_app 2); [done| |].
  { rewrite !Forall_app. repeat split; (eapply Forall_rule_ge; [|done]; lia). }
  apply (rule_ordered_app 3); [done| |].
  { rewrite !Forall_app. repeat split; (eapply Forall_rule_ge; [|done]; lia). }
  apply (rule_ordered_app 4); [done| |].
  { eapply Forall_rule_ge; [|done]; lia. }
  rewrite <- (app_nil_r (run_timestamps _)).
  apply (rule_ordered_app 5); [done|constructor|].
  intros i j a b _ Ha. done.
Qed.

Lemma find_index_Some {A} (p : A → bool) l i :
  find_index p l = Some i → ∃ x, l !! i = Some x ∧ p x = true.
Proof.
  revert i. induction l as [|y l IH]; intros i; simpl; [discriminate|].
  destruct (p y) eqn:Hy.
  - intros [= <-]. eauto.
  - destruct (find_index p l) as [k|]; simpl; [|discriminate].
    intros [= <-]. destruct (IH k eq_refl) as (x & Hx & Hp). eauto.
Qed.

Lemma title_issues_length lines lab : length (title_issues lines lab) ≤ 1.
Proof.
  unfold title_issues. destruct (find_index _ lines); [|simpl; lia].
  destruct (lines !! _); simpl; [|lia]. destruct (_ || _); simpl; lia.
Qed.

(** A label that heads a line occurs in the text, so one label never gets a
    "missing" and a title violation together. *)
Lemma label_issues_length txt lab :
  length (missing_label_issues txt lab)
  + length (title_issues (splitlines txt) lab) ≤ 1.
Proof.
  pose proof (title_issues_length (splitlines txt) lab) as Hlen.
  unfold missing_label_issues.
  destruct (contains lab txt) eqn:Hc; simpl; [lia|].
  rewrite title_issues_absent; [simpl; lia|].
  intros l Hl Heq. apply list_elem_of_In, line_substring in Hl.
  rewrite Heq in Hl. congruence.
Qed.

Lemma watch_next_issues_length lines lm vl :
  length (watch_next_issues lines lm vl) ≤ 1.
Proof.
  unfold watch_next_issues. rewrite length_app.
  destruct (decide (lm = lit "provided")) as [H|H].
  - rewrite (bool_decide_eq_false_2 (lm ≠ _)) by (intros ?; done). simpl.
    destruct (_ && _); simpl; lia.
  - rewrite (bool_decide_eq_false_2 (lm = _)) by done. simpl.
    destruct (_ && _); simpl; lia.
Qed.

Lemma tags_issues_length ne : length (tags_issues ne) ≤ 1.
Proof.
  unfold tags_issues. destruct (last ne); [|simpl; lia].
  destruct (negb _); [simpl; lia|]. destruct (_ <? _); simpl; lia.
Qed.

Lemma timestamp_issues_length ts l :
  timestamp_issues ts = Some l → length l ≤ 2.
Proof.
  unfold timestamp_issues. destruct ts as [|t ts]; [intros [= <-]; simpl; lia|].
  destruct (mapM _ _) as [secs|]; simpl; [|discriminate].
  intros [= <-]. rewrite length_app.
  destruct (not_increasing _); destruct (_ <? _); simpl; lia.
Qed.

(** The validator reports at most eight violations, and never both Watch Next
    messages at once. *)
Theorem qa_check_bounds (txt lm : str) (vl : list validated_link) :
  ∃ issues,
    qa_check txt lm vl = Some issues
    ∧ length issues ≤ 8
    ∧ ¬ (In (render WatchNextNotProvided) issues
         ∧ In (render WatchNextNoValidLinks) issues).
Proof.
  destruct (qa_check_in txt lm vl) as (tsi & issues & Htsi & Heq & -> & Hin).
  eexists. split; [done|]. split.
  - rewrite length_map. unfold run_all, qa_run_of.
    cbn [run_dash run_missing run_titles run_watch run_tags run_timestamps].
    rewrite !length_app.
    assert (length (dash_issues txt) ≤ 1)
      by (unfold dash_issues; destruct (_ || _); simpl; lia).
    pose proof (watch_next_issues_length (splitlines txt) lm vl).
    pose proof (tags_issues_length (non_empty_lines txt)).
    pose proof (timestamp_issues_length _ _ Htsi).
    unfold required_labels. cbn [map concat]. rewrite !length_app. simpl length.
    pose proof (label_issues_length txt (lit "Option 1 (Highest SEO Reach)")).
    pose proof (label_issues_length txt (lit "Option 2 (Parent High-Intent)")).
    pose proof (label_issues_length txt (lit "Option 3 (Authority Explainer)")).
    lia.
  - rewrite !Hin. cbn [rule_of run_rule qa_run_of run_watch].
    intros [H1 H2].
    pose proof (watch_next_issues_length (splitlines txt) lm vl) as Hlen.
    destruct (watch_next_issues (splitlines txt) lm vl) as [|a [|b l]];
      simpl in *; [tauto| |lia].
    destruct H1 as [->|[]], H2 as [H2|[]]. discriminate H2.
Qed.

(** A text without a Watch Next line gets the same result whatever the link
    mode and the validated links are. *)
Theorem qa_check_ignores_links (txt lm lm' : str)
    (vl vl' : list validated_link) :
  (∀ l, In l (splitlines txt)
        → ¬ starts_ignoring_case (lit "watch next") (strip l)) →
  qa_check txt lm vl = qa_check txt lm' vl'.
Proof.
  intros Hno.
  assert (has_watch_next (splitlines txt) = false) as Hw.
  { apply not_true_is_false. intros (l & Hl & Hs)%has_watch_next_spec.
    by apply (Hno l). }
  destruct (qa_check_returns txt lm vl) as (tsi & Htsi & ->).
  destruct (qa_check_returns txt lm' vl') as (tsi' & Htsi' & ->).
  assert (tsi' = tsi) as -> by congruence.
  unfold watch_next_issues. rewrite Hw, !andb_false_r. done.
Qed.

Lemma qa_check_ignores_links_witness :
  qa_check (titled_text 60) (lit "provided") []
  = qa_check (titled_text 60) (lit "not_available")
      [ValidatedLink (lit "https://example.org") true [] []].
Proof.
  apply (qa_check_ignores_links (titled_text 60)).
  intros l Hl H. apply (startswith_lower _ _ plain_watch_next) in H.
  vm_compute in Hl.
  destruct Hl as [<-|[<-|[<-|[<-|[]]]]]; vm_compute in H; discriminate.
Defined.

(** Without a line that begins with "type" no timestamp is read, and no
    timestamp violation is reported, whatever timestamps the text holds. *)
Theorem timestamps_need_type_line (txt lm : str) (vl : list validated_link) :
  (∀ l, In l (splitlines txt) → ¬ starts_ignoring_case (lit "type") (strip l)) →
  ∃ issues,
    qa_check txt lm vl = Some issues
    ∧ ¬ In (render TimestampsNotIncreasing) issues
    ∧ ∀ n, ¬ In (render (TooManyTimestamps n)) issues.
Proof.
  intros Hno.
  destruct (qa_check_in txt lm vl) as (tsi & issues & Htsi & Heq & _ & Hin).
  exists issues. split; [done|].
  assert (tsi = []) as ->.
  { unfold collect_timestamps in Htsi. rewrite find_index_none in Htsi.
    - simpl in Htsi. congruence.
    - intros l Hl. apply not_true_is_false. intros H.
      apply (Hno l Hl). by apply (startswith_lower _ _ plain_type). }
  split; [|intros n]; rewrite Hin; cbn [rule_of run_rule qa_run_of run_timestamps];
    intros [].
Qed.

Lemma timestamps_need_type_line_witness :
  ∃ issues,
    qa_check (lit "00:10 first" ++ nl ++ lit "00:09 second" ++ nl ++ lit "a, b")
      (lit "provided") [] = Some issues
    ∧ ¬ In (render TimestampsNotIncreasing) issues
    ∧ ∀ n, ¬ In (render (TooManyTimestamps n)) issues.
Proof.
  apply (timestamps_need_type_line
           (lit "00:10 first" ++ nl ++ lit "00:09 second" ++ nl ++ lit "a, b")).
  intros l Hl H. apply (startswith_lower _ _ plain_type) in H.
  vm_compute in Hl.
  destruct Hl as [<-|[<-|[<-|[]]]]; vm_compute in H; discriminate.
Defined.

(** * Further properties of strings and links *)

Lemma lstrip_id s :
  (∀ c r, s = c :: r → isspace c = false) → lstrip s = s.
Proof.
  destruct s as [|c r]; [done|]. intros H. simpl. by rewrite (H c r).
Qed.

(** A string without blanks at its ends is left as it is by [strip]. *)
Lemma strip_id s :
  (∀ c r, s = c :: r → isspace c = false) →
  (∀ c r, rev s = c :: r → isspace c = false) →
  strip s = s.
Proof.
  intros Hhead Hlast. unfold strip, rstrip.
  rewrite (lstrip_id s Hhead), (lstrip_id (rev s) Hlast).
  apply rev_involutive.
Qed.

Lemma strip_ends s :
  (∀ c r, strip s = c :: r → isspace c = false)
  ∧ (∀ c r, rev (strip s) = c :: r → isspace c = false).
Proof.
  unfold strip, rstrip. set (t := lstrip s).
  destruct (lstrip_suffix (rev t)) as (ws & Hrev & _).
  set (u := lstrip (rev t)) in *.
  split.
  - intros c r Hc.
    apply (f_equal (@rev _)) in Hrev. rewrite rev_involutive, rev_app_distr in Hrev.
    rewrite Hc in Hrev. simpl in Hrev.
    by apply (lstrip_head_not_space s c (r ++ rev ws)).
  - intros c r. rewrite rev_involutive. apply lstrip_head_not_space.
Qed.

Lemma strip_idemp s : strip (strip s) = strip s.
Proof. destruct (strip_ends s). by apply strip_id. Qed.

Lemma parse_links_unfold text :
  parse_links text
  = filter (λ l, startswith (lit "http://") l || startswith (lit "https://") l = true)
      (filter (λ l, l ≠ []) (map strip (splitlines text))).
Proof. done. Qed.

(** The links read from a text are the lines that, blanks at the ends
    removed, begin with "http://" or "https://"; they come in the order of
    the lines, and every other line is dropped. *)
Theorem parse_links_spec (text : str) :
  (∀ l, In l (parse_links text)
        ↔ ∃ line, In line (splitlines text) ∧ l = strip line
                  ∧ ((∃ r, l = lit "http://" ++ r) ∨ (∃ r, l = lit "https://" ++ r)))
  ∧ parse_links text `sublist_of` map strip (splitlines text).
Proof.
  rewrite parse_links_unfold. split.
  - intros l. rewrite <- list_elem_of_In, !list_elem_of_filter, list_elem_of_In.
    rewrite in_map_iff, orb_true_iff, !startswith_spec. split.
    + intros (Hhttp & Hne & line & <- & Hline). eauto.
    + intros (line & Hline & -> & Hhttp). split; [done|]. split; [|eauto].
      destruct Hhttp as [[r ->]|[r ->]]; discriminate.
  - etrans; apply sublist_filter.
Qed.

Lemma splitlines_from_line cur l rest :
  (∀ c, c ∈ l → is_linebreak c = false) →
  splitlines_from cur (l ++ rest) = splitlines_from (rev l ++ cur) rest.
Proof.
  revert cur. induction l as [|c l IH]; intros cur Hl; [done|].
  cbn [app]. rewrite splitlines_from_cons, (Hl c) by left.
  rewrite IH by (intros d Hd; apply Hl; by right).
  simpl. by rewrite <- app_assoc.
Qed.

(** Lines that are not empty and hold no line boundary are read back from
    their concatenation with line feeds. *)
Lemma splitlines_join ls :
  Forall (λ l, l ≠ [] ∧ ∀ c, c ∈ l → is_linebreak c = false) ls →
  splitlines (join nl ls) = ls.
Proof.
  induction 1 as [|l ls [Hne Hl] Hls IH]; [done|].
  unfold splitlines. destruct ls as [|l' ls].
  - simpl. rewrite <- (app_nil_r l) at 1.
    rewrite splitlines_from_line, splitlines_from_nil by done.
    rewrite app_nil_r. destruct (rev l) eqn:Hrev.
    + apply (f_equal (@rev _)) in Hrev. rewrite rev_involutive in Hrev. done.
    + by rewrite <- Hrev, rev_involutive.
  - change (join nl (l :: l' :: ls)) with (l ++ 10%N :: join nl (l' :: ls)).
    rewrite splitlines_from_line by done.
    rewrite splitlines_from_cons. simpl is_linebreak. cbv iota.
    rewrite app_nil_r, rev_involutive. f_equal.
    assert (after_break 10%N (join nl (l' :: ls)) = join nl (l' :: ls)) as ->
      by (by destruct (join nl (l' :: ls))).
    apply IH.
Qed.

Lemma filter_id {A} (P : A → Prop) `{∀ x, Decision (P x)} (l : list A) :
  Forall P l → filter P l = l.
Proof.
  induction 1 as [|x l Hx Hl IH]; [done|].
  rewrite filter_cons. destruct (decide (P x)); [by rewrite IH|done].
Qed.

Lemma parse_links_ok text l :
  In l (parse_links text) →
  (l ≠ [] ∧ ∀ c, c ∈ l → is_linebreak c = false)
  ∧ strip l = l
  ∧ startswith (lit "http://") l || startswith (lit "https://") l = true.
Proof.
  rewrite parse_links_unfold, <- list_elem_of_In, !list_elem_of_filter.
  rewrite list_elem_of_In, in_map_iff.
  intros (Hhttp & Hne & line & <- & Hline). split_and!; [done| |apply strip_idemp|done].
  intros c Hc%strip_subset.
  eapply splitlines_no_break; [by apply list_elem_of_In|done].
Qed.

(** Writing the links read from a text one per line and reading them again
    gives the same links. *)
Theorem parse_links_round_trip (text : str) :
  parse_links (join nl (parse_links text)) = parse_links text.
Proof.
  set (ls := parse_links text).
  assert (Forall (λ l, In l (parse_links text)) ls) as Hls
    by (apply Forall_forall; intros l; apply list_elem_of_In).
  rewrite parse_links_unfold, splitlines_join.
  - assert (map strip ls = ls) as ->.
    { rewrite <- (map_id ls) at 2. apply map_ext_in. intros l Hl.
      by apply (parse_links_ok text). }
    rewrite (filter_id (λ l : str, l ≠ [])) by (eapply Forall_impl; [done|]; intros l Hl; by apply (parse_links_ok text)).
    apply filter_id. eapply Forall_impl; [done|].
    intros l Hl. by apply (parse_links_ok text).
  - eapply Forall_impl; [done|]. intros l Hl. by apply (parse_links_ok text).
Qed.

(** * Transcript lines and timestamps *)

Lemma two_digit_all : forallb two_digit_ok (seq 0 100) = true.
Proof. vm_compute. reflexivity. Qed.

Lemma format_02d_two_digits (n : Z) :
  (0 ≤ n < 100)%Z →
  ∃ a b, format_02d n = [a; b]
         ∧ digit_value a = Some (Z.to_N (n / 10))
         ∧ digit_value b = Some (Z.to_N (n mod 10)).
Proof.
  intros Hn. pose proof two_digit_all as Hall.
  rewrite forallb_forall in Hall.
  specialize (Hall (Z.to_nat n)). unfold two_digit_ok in Hall.
  rewrite Z2Nat.id in Hall by lia.
  destruct (format_02d n) as [|a [|b [|c r]]];
    try (by (exfalso; apply Hall; [apply in_seq; lia|])).
  - discriminate Hall. apply in_seq. lia.
  - discriminate Hall. apply in_seq. lia.
  - exists a, b. split; [done|].
    apply bool_decide_eq_true in Hall as [Ha Hb]; [|apply in_seq; lia].
    rewrite Ha, Hb. split; f_equal.
    + rewrite <- (Z2Nat.id n) at 2 by lia.
      rewrite <- (Nat2Z.inj_div _ 10), <- nat_N_Z. by rewrite N2Z.id.
    + rewrite <- (Z2Nat.id n) at 2 by lia.
      rewrite <- (Nat2Z.inj_mod _ 10), <- nat_N_Z. by rewrite N2Z.id.
  - discriminate Hall. apply in_seq. lia.
Qed.

(** Minutes and seconds of a time that is not negative, as the worker
    computes them. *)
Lemma minutes_seconds (x : Q) :
  (0 <= x)%Q →
  Qfloor (x / 60) = (Qfloor x / 60)%Z
  ∧ int_of_Q (x - 60 * inject_Z (Qfloor (x / 60))) = (Qfloor x mod 60)%Z.
Proof.
  destruct x as [p q]. intros Hp.
  assert (0 ≤ p)%Z as Hp' by (unfold Qle in Hp; simpl in Hp; lia). clear Hp.
  assert (Qfloor ((p # q) / 60)%Q = (p / Z.pos q / 60)%Z) as Hm.
  { unfold Qdiv, Qmult, Qinv, Qfloor. simpl.
    rewrite Z.mul_1_r, Pos2Z.inj_mul, Z.div_div by lia. done. }
  split; [done|]. rewrite Hm.
  unfold int_of_Q, Qminus, Qplus, Qopp, Qmult, inject_Z, Qfloor.
  cbn [Qnum Qden].
  set (f := (p / Z.pos q)%Z).
  rewrite !Pos.mul_1_r, Z.mul_1_r.
  assert (0 ≤ f)%Z by (apply Z.div_pos; lia).
  assert (0 ≤ p + - (60 * (f / 60)) * Z.pos q)%Z.
  { pose proof (Z.mul_div_le f 60). pose proof (Z.mul_div_le p (Z.pos q)).
    fold f in H1. nia. }
  rewrite Z.quot_div_nonneg by lia.
  rewrite Z.div_add by lia. fold f.
  rewrite (Z.mod_eq f 60) by lia. lia.
Qed.

Lemma isspace_cases c :
  isspace c = true →
  In c [9; 10; 11; 12; 13; 28; 29; 30; 31; 32; 0x85; 0xa0; 0x1680; 0x2000;
        0x2001; 0x2002; 0x2003; 0x2004; 0x2005; 0x2006; 0x2007; 0x2008;
        0x2009; 0x200a; 0x2028; 0x2029; 0x202f; 0x205f; 0x3000]%N.
Proof.
  unfold isspace.
  rewrite !orb_true_iff, !andb_true_iff, !N.leb_le, !N.eqb_eq. simpl. lia.
Qed.

Lemma digit_not_space c v : digit_value c = Some v → isspace c = false.
Proof.
  intros Hv. destruct (isspace c) eqn:Hsp; [|done].
  apply isspace_cases in Hsp. simpl in Hsp.
  repeat (destruct Hsp as [<-|Hsp]; [vm_compute in Hv; discriminate|]).
  done.
Qed.

(** The line the worker writes for a segment is read back by the timestamp
    pattern of the validator, and [_mmss_to_sec] gives the start of the
    segment in whole seconds: this for starts under 100 minutes and a text
    that is not blank. *)
Theorem transcript_line_timestamp (s : segment) :
  (0 <= seg_start s)%Q → (seg_start s < 6000)%Q → strip (seg_text s) ≠ [] →
  strip (transcript_line s) = transcript_line s
  ∧ ∃ t, match_timestamp (transcript_line s) = Some t
         ∧ _mmss_to_sec t = Some (Qfloor (seg_start s)).
Proof.
  intros Hpos Hlt Htext.
  destruct (minutes_seconds _ Hpos) as [Hm Hs].
  assert (0 ≤ Qfloor (seg_start s) < 6000)%Z as HF.
  { split.
    - change 0%Z with (Qfloor 0). by apply Qfloor_resp_le.
    - pose proof (Qfloor_le (seg_start s)) as Hle.
      pose proof (Qle_lt_trans _ _ _ Hle Hlt) as H.
      unfold Qlt in H. simpl in H. lia. }
  set (F := Qfloor (seg_start s)) in *.
  destruct (format_02d_two_digits (F / 60)) as (a & b & Hab & Ha & Hb).
  { split; [apply Z.div_pos; lia|apply Z.div_lt_upper_bound; lia]. }
  destruct (format_02d_two_digits (F mod 60)) as (c & d & Hcd & Hc & Hd).
  { pose proof (Z.mod_pos_bound F 60). lia. }
  assert (transcript_line s
          = a :: b :: 58%N :: c :: d :: 32%N :: strip (seg_text s)) as Hline.
  { unfold transcript_line. cbv zeta. rewrite Hs, Hm, Hab, Hcd. reflexivity. }
  destruct (strip (seg_text s)) as [|x r] eqn:Hx; [done|].
  assert (isspace x = false) as Hxs
    by (by apply (proj1 (strip_ends (seg_text s)) x r)).
  assert (∀ c v, digit_value c = Some v → isdigit c = true) as Hdig
    by (intros ? ? H; unfold isdigit; by rewrite H).
  split.
  - rewrite Hline. apply strip_id.
    + intros c0 r0 [= <- _]. by eapply digit_not_space.
    + intros c0 r0 Hrev.
      pose proof (proj2 (strip_ends (seg_text s)) c0) as Hend.
      rewrite Hx in Hend.
      change (a :: b :: 58%N :: c :: d :: 32%N :: x :: r)
        with ([a; b; 58%N; c; d; 32%N] ++ x :: r) in Hrev.
      rewrite rev_app_distr in Hrev.
      destruct (rev (x :: r)) as [|y r1] eqn:Hr.
      { apply (f_equal (@rev _)) in Hr. rewrite rev_involutive in Hr. done. }
      simpl in Hrev. injection Hrev as <- _. by eapply Hend.
  - exists [a; b; 58%N; c; d]. rewrite Hline. split.
    + unfold match_timestamp.
      rewrite (Hdig _ _ Ha), (Hdig _ _ Hb), (Hdig _ _ Hc), (Hdig _ _ Hd).
      assert (re_ws_star_any_plus (x :: r) = true) as ->; [|done].
      simpl. destruct (N.eqb_spec x 10) as [->|]; [discriminate Hxs|done].
    + erewrite mmss_to_sec_digits by done. f_equal.
      assert (0 ≤ F / 60)%Z by (apply Z.div_pos; lia).
      pose proof (Z.mod_pos_bound F 60).
      assert (0 ≤ F / 60 / 10)%Z by (apply Z.div_pos; lia).
      assert (0 ≤ F mod 60 / 10)%Z by (apply Z.div_pos; lia).
      pose proof (Z.mod_pos_bound (F / 60) 10).
      pose proof (Z.mod_pos_bound (F mod 60) 10).
      rewrite !Z2N.id by lia.
      pose proof (Z.div_mod (F / 60) 10). pose proof (Z.div_mod (F mod 60) 10).
      pose proof (Z.div_mod F 60). lia.
Qed.

Lemma transcript_line_timestamp_witness :
  strip (transcript_line (Segment (131 # 2) 70 (lit " Goodbye. ")))
  = transcript_line (Segment (131 # 2) 70 (lit " Goodbye. "))
  ∧ ∃ t, match_timestamp (transcript_line (Segment (131 # 2) 70 (lit " Goodbye. ")))
         = Some t
         ∧ _mmss_to_sec t = Some (Qfloor (seg_start (Segment (131 # 2) 70 (lit " Goodbye. ")))).
Proof.
  apply (transcript_line_timestamp (Segment (131 # 2) 70 (lit " Goodbye. "))).
  - vm_compute. discriminate.
  - vm_compute. reflexivity.
  - vm_compute. discriminate.
Defined.

(** * Further properties of the generation client *)

Lemma split_from_no_sep sep cur s piece :
  (∀ c, c ∈ cur → c ≠ sep) →
  piece ∈ split_from sep cur s → ∀ c, c ∈ piece → c ≠ sep.
Proof.
  revert cur. induction s as [|d s IH]; intros cur Hcur Hin c Hc.
  - simpl in Hin. apply list_elem_of_singleton in Hin as ->.
    apply Hcur. by apply elem_of_rev_iff.
  - simpl in Hin. destruct (N.eqb_spec d sep) as [->|Hd].
    + apply elem_of_cons in Hin as [->|Hin].
      * apply Hcur. by apply elem_of_rev_iff.
      * apply (IH []); [intros ? ?%elem_of_nil; done|done..].
    + apply (IH (d :: cur)); [|done..].
      intros x [->|Hx]%elem_of_cons; auto.
Qed.

(** The model list is never empty: it starts with the primary model, which
    does not come again; every model after it is a piece of the fallback
    setting between commas, without blanks at its ends and not empty.  With
    no fallback setting the primary model stands alone. *)
Theorem models_to_try_shape (cfg : gmap str str) :
  ∃ primary rest,
    models_to_try cfg = primary :: rest
    ∧ primary = strip (default (lit "gpt-5.2-thinking") (cfg !! lit "OPENAI_MODEL"))
    ∧ ¬ In primary rest
    ∧ (∀ m, In m rest →
            m ≠ [] ∧ strip m = m ∧ ¬ In comma m
            ∧ ∃ piece, In piece (split comma
                                   (default [] (cfg !! lit "OPENAI_FALLBACK_MODELS")))
                       ∧ m = strip piece)
    ∧ (default [] (cfg !! lit "OPENAI_FALLBACK_MODELS") = [] → rest = []).
Proof.
  unfold models_to_try. eexists _, _. split; [reflexivity|]. split; [done|].
  split; [|split].
  - rewrite <- list_elem_of_In, list_elem_of_filter. tauto.
  - intros m. rewrite <- list_elem_of_In, !list_elem_of_filter, list_elem_of_In.
    rewrite in_map_iff. intros (_ & Hne & piece & <- & Hpiece).
    split; [done|]. split; [apply strip_idemp|]. split; [|eauto].
    intros Hc%list_elem_of_In%strip_subset.
    apply list_elem_of_In in Hpiece.
    by apply (split_from_no_sep comma [] _ piece
                ltac:(intros ? ?%elem_of_nil; done) Hpiece comma).
  - intros ->. reflexivity.
Qed.

(** Only two errors leave the client, the missing key and "OpenAI request
    failed": an exception of the service is never passed on as it is.  Without
    a key no call is made and the service is left alone; with one, at most
    two calls are made per model. *)
Theorem generation_errors {S} (cl : service S) (transcript lm : str)
    (vl : list validated_link) (cfg : gmap str str) (s : S)
    (res : outcome str) (s' : S) (log : list attempt) :
  call_openai_metadata cl transcript lm vl cfg s = (res, s', log) →
  length log ≤ 2 * length (models_to_try cfg)
  ∧ (strip (default [] (cfg !! lit "OPENAI_API_KEY")) = [] →
     res = Raised missing_key_message ∧ log = [] ∧ s' = s)
  ∧ (∀ err, res = Raised err →
            (err = missing_key_message ∧ log = [])
            ∨ err = request_failed (last_error [] log)).
Proof.
  intros Hcall.
  destruct (strip (default [] (cfg !! lit "OPENAI_API_KEY"))) as [|k key] eqn:Hkey.
  - unfold call_openai_metadata in Hcall. rewrite Hkey in Hcall.
    injection Hcall as <- <- <-. split; [simpl; lia|]. split; [done|].
    intros err [= <-]. by left.
  - assert (strip (default [] (cfg !! lit "OPENAI_API_KEY")) ≠ []) as Hne
      by by rewrite Hkey.
    destruct (call_openai_metadata_passes cl _ _ _ _ _ _ _ _ Hne Hcall)
      as (log1 & log2 & -> & _ & Hn1 & Hn2 & _ & _ & Hcases).
    split; [rewrite length_app; lia|]. split; [done|].
    intros err ->. right.
    destruct Hcases as [(? & ? & ? & _ & _ & _ & _ & ?)|[_ [(? & ? & ? & _ & _ & _ & ?)|(_ & _ & ?)]]];
      congruence.
Qed.

Lemma generation_errors_witness :
  length (@nil attempt) ≤ 2 * length (models_to_try ∅)
  ∧ (strip (default [] ((∅ : gmap str str) !! lit "OPENAI_API_KEY")) = [] →
     Raised missing_key_message = (Raised missing_key_message : outcome str)
     ∧ @nil attempt = [] ∧ 7 = 7)
  ∧ (∀ err, (Raised missing_key_message : outcome str) = Raised err →
            (err = missing_key_message ∧ @nil attempt = [])
            ∨ err = request_failed (last_error [] [])).
Proof.
  apply (generation_errors scope_client (lit "00:00 hello") (lit "provided")
           [] ∅ 7 (Raised missing_key_message) 7 []).
  reflexivity.
Defined.

(** A text the client returns has no blanks at its ends, and it is empty only
    when the first protocol answered. *)
Theorem generation_returns_trimmed {S} (cl : service S) (transcript lm : str)
    (vl : list validated_link) (cfg : gmap str str) (s : S)
    (t : str) (s' : S) (log : list attempt) :
  call_openai_metadata cl transcript lm vl cfg s = (Returned t, s', log) →
  strip t = t
  ∧ (t = [] → ∃ a, last log = Some a ∧ att_protocol a = Responses).
Proof.
  intros Hcall.
  destruct (strip (default [] (cfg !! lit "OPENAI_API_KEY"))) as [|k key] eqn:Hkey.
  { unfold call_openai_metadata in Hcall. rewrite Hkey in Hcall. discriminate. }
  assert (strip (default [] (cfg !! lit "OPENAI_API_KEY")) ≠ []) as Hne
    by by rewrite Hkey.
  destruct (call_openai_metadata_passes cl _ _ _ _ _ _ _ _ Hne Hcall)
    as (log1 & log2 & -> & _ & _ & _ & Hk1 & Hk2 & Hcases).
  assert (∀ a, attempt_text a = Some t →
               strip t = t ∧ (t = [] → att_protocol a = Responses)) as Htext.
  { intros a. unfold attempt_text. destruct (att_result a) as [x|e]; [|done].
    cbv zeta. destruct (att_protocol a), (strip (default [] x)) eqn:Hx;
      intros [= <-]; (split; [|done]); rewrite <- Hx; apply strip_idemp. }
  destruct Hcases as [(pre & a & t' & -> & _ & Ha & -> & [= ->])
                     |[_ [(pre & a & t' & -> & _ & Ha & [= ->])|(_ & _ & ?)]]];
    [| |done].
  - destruct (Htext a Ha) as [Hs Hp]. split; [done|]. intros Ht.
    exists a. rewrite app_nil_r, last_snoc. auto.
  - destruct (Htext a Ha) as [Hs Hp]. split; [done|]. intros Ht.
    exists a. rewrite app_assoc, last_snoc. auto.
Qed.

Lemma generation_returns_trimmed_witness :
  strip (lit "a title") = lit "a title"
  ∧ (lit "a title" = [] → ∃ a, last scope_log = Some a ∧ att_protocol a = Responses).
Proof.
  apply (generation_returns_trimmed scope_client (lit "00:00 hello")
           (lit "provided") [] demo_cfg 0 (lit "a title") 3 scope_log).
  vm_compute. reflexivity.
Defined.

(** When the primary model answers under the first protocol, that one call
    is all the client makes and its text is returned, also when the answer
    is empty or missing: no fallback model and no second protocol then. *)
Theorem primary_answer_is_final {S} (cl : service S) (transcript lm : str)
    (vl : list validated_link) (cfg : gmap str str) (s s1 : S)
    (x : option str) :
  strip (default [] (cfg !! lit "OPENAI_API_KEY")) ≠ [] →
  responses_create cl (hd [] (models_to_try cfg)) (Payload lm vl transcript)
    (reasoning_effort cfg) s = (Returned x, s1) →
  call_openai_metadata cl transcript lm vl cfg s
  = (Returned (strip (default [] x)), s1,
     [Attempt Responses (hd [] (models_to_try cfg)) (Returned x)]).
Proof.
  intros Hkey Hcall. unfold call_openai_metadata.
  destruct (strip (default [] (cfg !! lit "OPENAI_API_KEY"))); [done|].
  unfold models_to_try in *. cbn [hd] in Hcall. cbn [responses_pass].
  by rewrite Hcall.
Qed.

Lemma primary_answer_is_final_witness :
  call_openai_metadata
    (named_service (λ _, Returned None) (λ _, Returned (Some (lit "unused"))))
    (lit "00:00 hello") (lit "provided") [] demo_cfg 0
  = (Returned (strip (default [] None)), 1,
     [Attempt Responses (hd [] (models_to_try demo_cfg)) (Returned None)]).
Proof.
  apply (primary_answer_is_final
           (named_service (λ _, Returned None) (λ _, Returned (Some (lit "unused"))))
           (lit "00:00 hello") (lit "provided") [] demo_cfg 0 1 None).
  - vm_compute. discriminate.
  - reflexivity.
Defined.

(** * Further properties of the worker *)

(** The steps of the [try] block keep every property [I] of the world that
    the calls and the updates of progress and stage keep; when the block
    returns, the world is the one its last updates leave. *)
Section BodyInvariant.
Context {S : Type} (e : env S) (id uploaded_path link_mode links_text : str).
Context (I Qret : world S → Prop).
Hypothesis Hcall : ∀ w c, c ≠ ValidateLinks → I w →
  I (World (jobs w) (trace w ++ [EvCall c]) (svc w)).
Hypothesis Hval : link_mode = lit "provided" → parse_links links_text ≠ [] →
  ∀ w, I w → I (World (jobs w) (trace w ++ [EvCall ValidateLinks]) (svc w)).
Hypothesis Hgen : ∀ w attempts s', I w →
  I (World (jobs w) (trace w ++ [EvGenerate attempts]) s').
Hypothesis Hlight : ∀ w p st, I w → I (update_job id [KwProgress p; KwStage st] w).2.
Hypothesis Hhard : link_mode = lit "not_provided" →
  ∀ w, I w → Qret (update_job id hard_stop_kwargs w).2.
Hypothesis Htail : link_mode ≠ lit "not_provided" →
  ∀ w issues transcript metadata, I w →
    Qret (update_job id (done_kwargs transcript metadata)
            (update_job id (qa_kwargs issues) w).2).2.
Hypothesis Hcleanup : ∀ w, Qret w →
  Qret (World (jobs w) (trace w ++ [EvCall CleanupTempDir]) (svc w)).

Lemma keeps_bind {A B} (m : M S A) (k : A → M S B) :
  keeps I m → (∀ a, keeps I (k a)) → keeps I (bind m k).
Proof.
  intros Hm Hk w Hw. unfold bind. specialize (Hm w Hw).
  destruct (m w) as [[a|msg] w1]; [by apply Hk|done].
Qed.

Lemma keeps_call {A} c (r : outcome A) : c ≠ ValidateLinks → keeps I (call c r).
Proof using Hcall. intros Hc w Hw. by apply Hcall. Qed.

Lemma keeps_light p st : keeps I (update_job id [KwProgress p; KwStage st]).
Proof using Hlight. intros w Hw. by apply Hlight. Qed.

Lemma keeps_ret {A} (a : A) : keeps I (ret a).
Proof. intros w Hw. done. Qed.

Lemma keeps_raise {A} msg : keeps I (raise (A:=A) msg).
Proof. intros w Hw. done. Qed.

Lemma keeps_generate transcript validated cfg :
  keeps I (generate e transcript link_mode validated cfg).
Proof using Hgen.
  intros w Hw. unfold generate.
  destruct (call_openai_metadata _ _ _ _ _ _) as [[r s'] attempts]. by apply Hgen.
Qed.

Lemma keeps_transcribe_loop dur segments lines last_pct :
  keeps I (transcribe_loop id dur segments lines last_pct).
Proof using Hlight.
  revert lines last_pct. induction segments as [|s segments IH];
    intros lines last_pct; [apply keeps_ret|].
  cbn [transcribe_loop]. destruct (Qlt_le_dec 0 dur); [|apply IH].
  destruct (_ <? _)%Z; [|apply IH].
  apply keeps_bind; [apply keeps_light|intros _; apply IH].
Qed.

(** A computation that keeps [I] followed by one that ends as wanted. *)
Lemma ends_bind {A B} (m : M S A) (k : A → M S B) :
  keeps I m →
  (∀ a w, I w → match k a w with
                | (Returned _, w') => Qret w'
                | (Raised _, w') => I w'
                end) →
  ∀ w, I w → match bind m k w with
             | (Returned _, w') => Qret w'
             | (Raised _, w') => I w'
             end.
Proof.
  intros Hm Hk w Hw. unfold bind. specialize (Hm w Hw).
  destruct (m w) as [[a|msg] w1]; [by apply Hk|done].
Qed.

Lemma block_invariant w :
  link_mode ≠ lit "not_provided" →
  I w →
  match in_temporary_directory e id link_mode links_text w with
  | (Returned _, w') => Qret w'
  | (Raised _, w') => I w'
  end.
Proof using Hcall Hval Hgen Hlight Htail.
  intros Hm. unfold in_temporary_directory. revert w.
  apply ends_bind; [by apply keeps_call|intros _].
  apply ends_bind; [by apply keeps_call|intros _].
  apply ends_bind; [by apply keeps_call|intros dur].
  apply ends_bind; [apply keeps_light|intros _].
  apply ends_bind; [by apply keeps_call|intros _].
  apply ends_bind; [apply keeps_light|intros _].
  apply ends_bind; [by apply keeps_call|intros yielded].
  apply ends_bind; [apply keeps_transcribe_loop|intros lines].
  apply ends_bind;
    [destruct (yielded.2); [apply keeps_raise|apply keeps_ret]|intros _].
  apply ends_bind;
    [destruct (strip (join nl lines)); [apply keeps_raise|apply keeps_ret]
    |intros _].
  apply ends_bind; [apply keeps_light|intros _].
  apply ends_bind.
  { destruct (decide (link_mode = lit "provided")) as [Hp|Hp];
      [|rewrite (bool_decide_eq_false_2 _ Hp); apply keeps_ret].
    destruct (decide (parse_links links_text ≠ [])) as [Hu|Hu];
      [|rewrite (bool_decide_eq_false_2 _ Hu), andb_false_r; apply keeps_ret].
    rewrite !bool_decide_eq_true_2 by done. simpl.
    intros w Hw. by apply Hval. }
  intros validated.
  apply ends_bind; [apply keeps_light|intros _].
  apply ends_bind; [by apply keeps_call|intros cfg].
  apply ends_bind; [apply keeps_generate|intros metadata].
  apply ends_bind; [apply keeps_light|intros _].
  apply ends_bind; [by apply keeps_call|intros issues].
  intros w Hw. unfold bind. by apply Htail.
Qed.

(** The [try] block: when it raises, either [I] still holds, or the [with]
    block had come to its end and the temporary directory could not be
    removed. *)
Lemma body_invariant w :
  I w →
  match worker_body e id uploaded_path link_mode links_text w with
  | (Returned _, w') => Qret w'
  | (Raised _, w') => I w' ∨ Qret w'
  end.
Proof using All.
  unfold worker_body.
  destruct (decide (link_mode = lit "not_provided")) as [Hm|Hm].
  { rewrite bool_decide_eq_true_2 by done. intros Hw. by apply Hhard. }
  rewrite bool_decide_eq_false_2 by done. intros Hw.
  pose proof (keeps_light 5 (lit "Extracting audio" ++ [ellipsis]) w Hw) as Hw0.
  unfold bind at 1.
  destruct (update_job id _ w) as [[[]|?] w0]; [|by left].
  cbn [snd] in Hw0. unfold with_temporary_directory, bind.
  pose proof (keeps_call MakeTempDir (temporary_directory e) ltac:(done) w0 Hw0)
    as Hw1.
  destruct (call MakeTempDir (temporary_directory e) w0) as [[[]|?] w1];
    [|by left].
  cbn [snd] in Hw1. pose proof (block_invariant w1 Hm Hw1) as Hblock.
  destruct (in_temporary_directory e id link_mode links_text w1) as [[[]|msg] w2].
  - apply Hcleanup in Hblock. unfold call. destruct (cleanup e); [done|by right].
  - apply (Hcall _ CleanupTempDir) in Hblock; [|done].
    unfold call. destruct (cleanup e); by left.
Qed.
End BodyInvariant.

(** The same for the whole of [worker], with the handler and the removal of
    the upload. *)
Lemma worker_invariant {S} (e : env S) (id uploaded_path link_mode links_text : str)
    (I Qret : world S → Prop) :
  (∀ w c, c ≠ ValidateLinks → I w →
     I (World (jobs w) (trace w ++ [EvCall c]) (svc w))) →
  (link_mode = lit "provided" → parse_links links_text ≠ [] →
     ∀ w, I w → I (World (jobs w) (trace w ++ [EvCall ValidateLinks]) (svc w))) →
  (∀ w attempts s', I w →
     I (World (jobs w) (trace w ++ [EvGenerate attempts]) s')) →
  (∀ w p st, I w → I (update_job id [KwProgress p; KwStage st] w).2) →
  (link_mode = lit "not_provided" →
     ∀ w, I w → Qret (update_job id hard_stop_kwargs w).2) →
  (link_mode ≠ lit "not_provided" →
     ∀ w issues transcript metadata, I w →
       Qret (update_job id (done_kwargs transcript metadata)
               (update_job id (qa_kwargs issues) w).2).2) →
  (link_mode ≠ lit "not_provided" →
     ∀ w msg, I w ∨ Qret w → Qret (update_job id (error_kwargs msg) w).2) →
  (∀ w c, c ≠ ValidateLinks → Qret w →
     Qret (World (jobs w) (trace w ++ [EvCall c]) (svc w))) →
  ∀ w, I w → Qret (worker e id uploaded_path link_mode links_text w).
Proof.
  intros Hcall Hval Hgen Hlight Hhard Htail Herr Hsilent w Hw.
  pose proof (body_invariant e id uploaded_path link_mode links_text I Qret
                Hcall Hval Hgen Hlight Hhard Htail
                (λ w, Hsilent w CleanupTempDir ltac:(done)) w Hw) as Hbody.
  unfold worker.
  destruct (decide (link_mode = lit "not_provided")) as [Hm|Hm].
  - revert Hbody. unfold worker_body. rewrite bool_decide_eq_true_2 by done.
    intros Hbody. by apply Hsilent.
  - destruct (worker_body _ _ _ _ _ _) as [[[]|msg] w1].
    + by apply Hsilent.
    + apply Hsilent; [done|]. by apply Herr.
Qed.

Lemma update_job_in_other jobs id id' kwargs :
  id' ≠ id → update_job_in jobs id kwargs !! id' = jobs !! id'.
Proof.
  intros H. unfold update_job_in. destruct (jobs !! id); [|done].
  by rewrite lookup_insert_ne.
Qed.

Lemma update_job_in_dom jobs id kwargs :
  dom (update_job_in jobs id kwargs) = dom jobs.
Proof.
  unfold update_job_in. destruct (jobs !! id) eqn:E; [|done].
  apply dom_insert_lookup_L. by rewrite E.
Qed.

Lemma worker_finishes {S} (e : env S)
    (id uploaded_path link_mode links_text : str) (w : world S) (j0 : job) :
  jobs w !! id = Some j0 →
  ∃ j, jobs (worker e id uploaded_path link_mode links_text w) !! id = Some j
       ∧ done j = true ∧ progress j = 100%Z ∧ job_id j = job_id j0.
Proof.
  intros H0.
  apply (worker_invariant e id uploaded_path link_mode links_text
           (λ w, ∃ j, jobs w !! id = Some j ∧ job_id j = job_id j0)
           (λ w, ∃ j, jobs w !! id = Some j ∧ done j = true
                      ∧ progress j = 100%Z ∧ job_id j = job_id j0));
    try done.
  - intros w1 p st (j & Hj & Hid). simpl.
    rewrite (update_job_in_lookup _ _ _ _ Hj). by eexists.
  - intros _ w1 (j & Hj & Hid). simpl. rewrite (update_job_in_lookup _ _ _ _ Hj).
    by eexists.
  - intros _ w1 issues tr md (j & Hj & Hid). simpl.
    rewrite (update_job_in_lookup _ _ _ _ (update_job_in_lookup _ _ _ _ Hj)).
    by eexists.
  - intros _ w1 msg [(j & Hj & Hid)|(j & Hj & _ & _ & Hid)]; simpl;
      rewrite (update_job_in_lookup _ _ _ _ Hj); by eexists.
  - by exists j0.
Qed.

(** Whatever the collaborators do, a job that is in the registry is finished
    when [worker] returns: [done] is set and [progress] is 100. *)
Theorem worker_terminal {S} (e : env S)
    (id uploaded_path link_mode links_text : str) (w : world S) (j0 : job) :
  jobs w !! id = Some j0 →
  ∃ j, jobs (worker e id uploaded_path link_mode links_text w) !! id = Some j
       ∧ done j = true ∧ progress j = 100%Z.
Proof.
  intros H0.
  destruct (worker_finishes e id uploaded_path link_mode links_text w j0 H0)
    as (j & Hj & Hdone & Hp & _).
  by exists j.
Qed.

Lemma worker_terminal_witness :
  ∃ j, jobs (worker talk_env demo_id (lit "tmp_jobs/0123456789.mp4")
               (lit "provided") (lit "https://youtu.be/a") demo_world)
         !! demo_id = Some j
       ∧ done j = true ∧ progress j = 100%Z.
Proof.
  apply (worker_terminal talk_env demo_id _ _ _ demo_world (new_job demo_id)).
  reflexivity.
Defined.

Lemma worker_frame {S} (e : env S)
    (id uploaded_path link_mode links_text : str) (w : world S) :
  let w' := worker e id uploaded_path link_mode links_text w in
  (∀ id', id' ≠ id → jobs w' !! id' = jobs w !! id')
  ∧ dom (jobs w') = dom (jobs w).
Proof.
  set (I := λ w1 : world S,
    (∀ id', id' ≠ id → jobs w1 !! id' = jobs w !! id')
    ∧ dom (jobs w1) = dom (jobs w)).
  assert (∀ w1 kw, I w1 → I (update_job id kw w1).2) as Hupd.
  { intros w1 kw [H1 H2]. split; simpl.
    - intros id' Hne. rewrite update_job_in_other by done. by apply H1.
    - by rewrite update_job_in_dom. }
  apply (worker_invariant e id uploaded_path link_mode links_text I I);
    try done; intros; try by repeat apply Hupd.
  match goal with H : _ ∨ _ |- _ => destruct H end; by apply Hupd.
Qed.

(** [worker] touches no job but its own: every other record is the one it
    was, no key is added or removed, and with an unknown job id the registry
    is left as it was. *)
Theorem worker_isolation {S} (e : env S)
    (id uploaded_path link_mode links_text : str) (w : world S) :
  let w' := worker e id uploaded_path link_mode links_text w in
  (∀ id', id' ≠ id → jobs w' !! id' = jobs w !! id')
  ∧ dom (jobs w') = dom (jobs w)
  ∧ (jobs w !! id = None → jobs w' = jobs w).
Proof.
  destruct (worker_frame e id uploaded_path link_mode links_text w) as [H1 H2].
  simpl. split_and!; [done|done|]. intros Hnone. apply map_eq. intros k.
  destruct (decide (k = id)) as [->|Hne]; [|by apply H1].
  rewrite Hnone. apply not_elem_of_dom. rewrite H2. by apply not_elem_of_dom.
Qed.

(** The links are fetched only in the link mode "provided" and with at least
    one URL among the pasted lines. *)
Theorem validation_only_when_provided {S} (e : env S)
    (id uploaded_path link_mode links_text : str) (w : world S) :
  EvCall ValidateLinks ∉ trace w →
  EvCall ValidateLinks ∈ trace (worker e id uploaded_path link_mode links_text w) →
  link_mode = lit "provided" ∧ parse_links links_text ≠ [].
Proof.
  intros H0.
  set (I := λ w1 : world S,
    EvCall ValidateLinks ∈ trace w1 →
    link_mode = lit "provided" ∧ parse_links links_text ≠ []).
  assert (∀ w1 ev s' g, ev ≠ EvCall ValidateLinks →
            I w1 → I (World g (trace w1 ++ [ev]) s')) as Hev.
  { intros w1 ev s' g Hne Hw1. unfold I. simpl.
    rewrite elem_of_app, list_elem_of_singleton. intros [?|?]; [auto|].
    by subst. }
  apply (worker_invariant e id uploaded_path link_mode links_text I I);
    try (intros; (apply Hev || (do 2 apply Hev)); [..|done]; congruence).
  - intros Hp Hu w1 _ _. done.
  - intros _ w1 issues tr md Hw1.
    apply (Hev (update_job id (qa_kwargs issues) w1).2); [done|].
    by apply (Hev w1).
  - intros _ w1 msg [Hw1|Hw1]; by apply (Hev w1).
  - done.
Qed.

Lemma validation_only_when_provided_witness :
  lit "provided" = lit "provided" ∧ parse_links (lit "https://youtu.be/a") ≠ [].
Proof.
  apply (validation_only_when_provided talk_env demo_id
           (lit "tmp_jobs/0123456789.mp4") (lit "provided")
           (lit "https://youtu.be/a") demo_world).
  - vm_compute. by intros ?%elem_of_nil.
  - vm_compute. repeat first [apply list_elem_of_here | apply list_elem_of_further].
Defined.

Lemma same_results_refl j : same_results j j.
Proof. by repeat split. Qed.

Lemma same_results_light j j' p st :
  same_results j j' → same_results j (dict_update j' [KwProgress p; KwStage st]).
Proof. intros H. exact H. Qed.

Lemma running_light {S} id j0 (w : world S) p st :
  running id j0 w → running id j0 (update_job id [KwProgress p; KwStage st] w).2.
Proof.
  intros (j & Hj & Hs). exists (dict_update j [KwProgress p; KwStage st]).
  split; [|done]. by apply (update_job_in_lookup (jobs w)).
Qed.

Lemma bind_returned {S A B} (m : M S A) (k : A → M S B) w b w' :
  bind m k w = (Returned b, w') →
  ∃ a w1, m w = (Returned a, w1) ∧ k a w1 = (Returned b, w').
Proof.
  unfold bind. destruct (m w) as [[a|msg] w1]; [|done]. intros H. by exists a, w1.
Qed.

Lemma call_returned {S A} c (r : outcome A) (w : world S) a w' :
  call c r w = (Returned a, w') →
  r = Returned a ∧ jobs w' = jobs w ∧ svc w' = svc w.
Proof. unfold call. by intros [= -> <-]. Qed.

Lemma light_returned {S} id j0 p st (w : world S) u w' :
  update_job id [KwProgress p; KwStage st] w = (Returned u, w') →
  running id j0 w → running id j0 w' ∧ svc w' = svc w.
Proof.
  intros H Hw. pose proof (running_light id j0 w p st Hw) as Hr.
  rewrite H in Hr. split; [done|]. unfold update_job in H. by simplify_eq.
Qed.

(** The loop over the segments never raises: it returns one line for each
    segment, in order, and changes nothing of the job but progress and
    stage. *)
Lemma transcribe_loop_returns {S} id dur segments lines last_pct (w : world S) :
  ∃ w', transcribe_loop id dur segments lines last_pct w
        = (Returned (lines ++ map transcript_line segments), w')
        ∧ svc w' = svc w
        ∧ ∀ j0, running id j0 w → running id j0 w'.
Proof.
  revert lines last_pct w. induction segments as [|s segments IH];
    intros lines last_pct w.
  { exists w. simpl. by rewrite app_nil_r. }
  cbn [transcribe_loop map].
  replace (lines ++ transcript_line s :: map transcript_line segments)
    with ((lines ++ [transcript_line s]) ++ map transcript_line segments)
    by (by rewrite <- app_assoc).
  destruct (Qlt_le_dec 0 dur); [|apply IH].
  destruct (_ <? _)%Z; [|apply IH].
  unfold bind at 1. cbn [update_job].
  destruct (IH (lines ++ [transcript_line s]) (segment_progress dur s)
              (update_job id [KwProgress (segment_progress dur s);
                              KwStage transcribing] w).2)
    as (w' & Hrun & Hsvc & Hjob).
  exists w'. split; [exact Hrun|]. split; [done|].
  intros j0 Hj0. by apply Hjob, running_light.
Qed.

Lemma generate_returned {S} (e : env S) t lm vl cfg (w : world S) md w' :
  generate e t lm vl cfg w = (Returned md, w') →
  jobs w' = jobs w
  ∧ ∃ attempts,
      call_openai_metadata (client e) t lm vl cfg (svc w)
      = (Returned md, svc w', attempts).
Proof.
  unfold generate.
  destruct (call_openai_metadata _ _ _ _ _ _) as [[r s'] attempts].
  intros [= -> <-]. split; [done|]. by exists attempts.
Qed.

Lemma running_jobs {S} id j0 (w w' : world S) :
  jobs w' = jobs w → running id j0 w → running id j0 w'.
Proof. unfold running. by intros ->. Qed.

Ltac light_step H Hr Hs :=
  let wa := fresh "w" in
  let Ha := fresh "Ha" in
  let Hr2 := fresh "Hr" in
  let Hs2 := fresh "Hs" in
  apply bind_returned in H as (? & wa & Ha & H); cbv beta in H;
  eapply light_returned in Ha as [Hr2 Hs2]; [|exact Hr];
  rewrite Hs in Hs2; clear Hr Hs; rename Hr2 into Hr; rename Hs2 into Hs.

Ltac call_step H Hr Hs a Hres :=
  let wa := fresh "w" in
  let Ha := fresh "Ha" in
  let Hj := fresh "Hj" in
  let Hs2 := fresh "Hs" in
  apply bind_returned in H as (a & wa & Ha & H); cbv beta in H;
  apply call_returned in Ha as (Hres & Hj & Hs2);
  apply (running_jobs _ _ _ _ Hj) in Hr;
  rewrite Hs in Hs2; clear Hs Hj; rename Hs2 into Hs.

(** What a [with] block that returns has done. *)
Lemma block_returned {S} (e : env S)
    (id link_mode links_text : str) (w w1 : world S) (j0 : job) :
  running id j0 w →
  in_temporary_directory e id link_mode links_text w = (Returned tt, w1) →
  ∃ segments validated cfg attempts metadata issues j1,
    transcribe e = Returned (segments, None)
    ∧ (if bool_decide (link_mode = lit "provided")
          && bool_decide (parse_links links_text ≠ [])
       then fetch_links e (parse_links links_text) = Returned validated
       else validated = [])
    ∧ load_runtime_config e = Returned cfg
    ∧ call_openai_metadata (client e)
        (strip (join nl (map transcript_line segments)))
        link_mode validated cfg (svc w)
      = (Returned metadata, svc w1, attempts)
    ∧ qa_check metadata link_mode validated = Some issues
    ∧ same_results j0 j1
    ∧ jobs w1 !! id
      = Some (dict_update (dict_update j1 (qa_kwargs issues))
                (done_kwargs (strip (join nl (map transcript_line segments)))
                   metadata)).
Proof.
  intros Hr0 H. unfold in_temporary_directory in H.
  pose (w0 := w).
  assert (running id j0 w0) as Hr by done.
  assert (svc w0 = svc w) as Hs by done.
  change w with w0 in H. clearbody w0. clear Hr0.
  call_step H Hr Hs u1 Hcopy.
  call_step H Hr Hs u2 Hextract.
  call_step H Hr Hs dur Hdur.
  light_step H Hr Hs.
  call_step H Hr Hs u3 Hwhisper.
  light_step H Hr Hs.
  call_step H Hr Hs yielded Hyield.
  apply bind_returned in H as (lines & wl & Hloop & H); cbv beta in H.
  match type of Hloop with
  | transcribe_loop _ _ _ _ _ ?wx = _ =>
      destruct (transcribe_loop_returns id dur yielded.1 [] 20 wx)
        as (wl' & Hloop' & Hsl & Hjl)
  end.
  rewrite Hloop' in Hloop. injection Hloop as <- <-.
  apply Hjl in Hr. rewrite Hs in Hsl. clear Hs Hjl Hloop'. rename Hsl into Hs.
  destruct yielded as [segments [msg|]]; [done|]. cbn [fst snd] in H.
  apply bind_returned in H as (? & wr & Hret & H); cbv beta in H.
  injection Hret as _ <-.
  apply bind_returned in H as (? & wt & Hret & H); cbv beta in H.
  assert (wt = wl') as ->.
  { destruct (strip _); [done|]. by injection Hret as _ <-. }
  clear Hret.
  light_step H Hr Hs.
  apply bind_returned in H as (validated & wv & Hval & H); cbv beta in H.
  assert ((if bool_decide (link_mode = lit "provided")
              && bool_decide (parse_links links_text ≠ [])
           then fetch_links e (parse_links links_text) = Returned validated
           else validated = [])
          ∧ running id j0 wv ∧ svc wv = svc w) as (Hvalidated & Hr' & Hsv).
  { rewrite <- Hs. destruct (bool_decide (link_mode = lit "provided")
              && bool_decide (parse_links links_text ≠ [])) eqn:Hc.
    - apply andb_prop in Hc as [_ Hu%bool_decide_eq_true_1].
      apply call_returned in Hval as (Hf & Hj & ?).
      apply (running_jobs _ _ _ _ Hj) in Hr.
      by destruct (parse_links links_text).
    - by injection Hval as <- <-. }
  clear Hs Hr Hval. rename Hsv into Hs. rename Hr' into Hr.
  light_step H Hr Hs.
  call_step H Hr Hs cfg Hcfg.
  apply bind_returned in H as (metadata & wg & Hgen & H); cbv beta in H.
  apply generate_returned in Hgen as (Hj & attempts & Hgen).
  apply (running_jobs _ _ _ _ Hj) in Hr. rewrite Hs in Hgen. clear Hs Hj.
  remember (svc wg) as sg eqn:Hs. symmetry in Hs.
  light_step H Hr Hs.
  call_step H Hr Hs issues Hissues.
  destruct Hr as (j1 & Hj1 & Hsame).
  unfold bind, update_job in H. injection H as <-. cbn [svc jobs].
  exists segments, validated, cfg, attempts, metadata, issues, j1.
  split_and!; try done.
  - by rewrite Hs.
  - by destruct (qa_check metadata link_mode validated); simplify_eq.
  - apply (update_job_in_lookup (update_job_in _ _ _)).
    by apply update_job_in_lookup.
Qed.

Lemma block_raised {S} (e : env S)
    (id link_mode links_text : str) (w w1 : world S) (j0 : job) msg :
  link_mode ≠ lit "not_provided" →
  running id j0 w →
  in_temporary_directory e id link_mode links_text w = (Raised msg, w1) →
  running id j0 w1.
Proof.
  intros Hm H0 H.
  cut (match in_temporary_directory e id link_mode links_text w with
       | (Returned _, _) => True
       | (Raised _, w') => running id j0 w'
       end); [by rewrite H|].
  apply (block_invariant e id link_mode links_text
           (running id j0) (λ _, True)); try done.
  intros w2 p st. apply running_light.
Qed.

(** What the [try] block has done: it has raised with the results of the job
    as they were, or the [with] block has come to its end and stored its
    results, after which the removal of the temporary directory has gone
    through or raised. *)
Lemma worker_body_outcome {S} (e : env S)
    (id uploaded_path link_mode links_text : str) (w w1 : world S) (j0 : job)
    (r : outcome unit) :
  link_mode ≠ lit "not_provided" →
  jobs w !! id = Some j0 →
  worker_body e id uploaded_path link_mode links_text w = (r, w1) →
  (∃ msg, r = Raised msg ∧ running id j0 w1)
  ∨ ∃ segments validated cfg attempts metadata issues j1,
      transcribe e = Returned (segments, None)
      ∧ (if bool_decide (link_mode = lit "provided")
            && bool_decide (parse_links links_text ≠ [])
         then fetch_links e (parse_links links_text) = Returned validated
         else validated = [])
      ∧ load_runtime_config e = Returned cfg
      ∧ call_openai_metadata (client e)
          (strip (join nl (map transcript_line segments)))
          link_mode validated cfg (svc w)
        = (Returned metadata, svc w1, attempts)
      ∧ qa_check metadata link_mode validated = Some issues
      ∧ same_results j0 j1
      ∧ jobs w1 !! id
        = Some (dict_update (dict_update j1 (qa_kwargs issues))
                  (done_kwargs (strip (join nl (map transcript_line segments)))
                     metadata))
      ∧ ((r = Returned tt ∧ cleanup e = Returned tt)
         ∨ ∃ msg, r = Raised msg ∧ cleanup e = Raised msg).
Proof.
  intros Hm H0 H. unfold worker_body in H.
  rewrite bool_decide_eq_false_2 in H by done.
  assert (running id j0 w) as Hr
    by (exists j0; split; [done|apply same_results_refl]).
  apply (running_light id j0 w 5 (lit "Extracting audio" ++ [ellipsis])) in Hr.
  unfold bind at 1 in H. unfold update_job at 1 in H. unfold update_job in Hr.
  cbn [snd] in Hr.
  set (wa := World _ _ _) in H, Hr.
  assert (svc wa = svc w) as Hsa by done.
  assert (running id j0 wa) as Hra by exact Hr.
  clearbody wa. clear Hr.
  unfold with_temporary_directory, bind in H.
  pose proof (call_returned MakeTempDir (temporary_directory e) wa) as Hmake.
  destruct (call MakeTempDir (temporary_directory e) wa) as [[[]|msg] wb] eqn:Hcall.
  2: { left. injection H as <- <-. exists msg. split; [done|].
       unfold call in Hcall. injection Hcall as _ <-. exact Hra. }
  destruct (Hmake tt wb eq_refl) as (_ & Hjb & Hsb). clear Hmake Hcall.
  apply (running_jobs _ _ _ _ Hjb) in Hra. rewrite Hsa in Hsb. clear Hjb Hsa.
  destruct (in_temporary_directory e id link_mode links_text wb)
    as [[[]|msg] wc] eqn:Hblock.
  - right.
    destruct (block_returned e id link_mode links_text wb wc j0 Hra Hblock)
      as (segments & validated & cfg & attempts & md & issues & j1
          & Hseg & Hval & Hcfg & Hgen & Hqa & Hsame & Hj).
    rewrite Hsb in Hgen.
    exists segments, validated, cfg, attempts, md, issues, j1.
    unfold call in H.
    destruct (cleanup e) as [[]|msg]; injection H as <- <-; cbn [jobs svc];
      split_and!; try done; [by left|right; by exists msg].
  - left. pose proof (block_raised e id link_mode links_text wb wc j0 msg
                        Hm Hra Hblock) as Hrc.
    unfold call in H.
    destruct (cleanup e) as [[]|msg']; injection H as <- <-.
    + exists msg. split; [done|]. exact Hrc.
    + exists msg'. split; [done|]. exact Hrc.
Qed.

Lemma stage_error_not_done : lit "Error" ≠ lit "Done.".
Proof. vm_compute. discriminate. Qed.

Lemma length_eqb_nil {A} (l : list A) : (length l =? 0) = bool_decide (l = []).
Proof. by destruct l. Qed.

(** A run that ends in the stage "Done." has stored what the pipeline
    computed: the transcript is the lines of the segments joined and
    stripped, the metadata is the text the generation client returned for
    that transcript, the links of the run and the loaded settings, the
    issues are those of [qa_check] on that metadata, and the verdict says
    whether there are none.  No error is recorded. *)
Theorem worker_success {S} (e : env S)
    (id uploaded_path link_mode links_text : str) (w : world S) (j0 j : job) :
  jobs w !! id = Some j0 →
  link_mode ≠ lit "not_provided" →
  let w' := worker e id uploaded_path link_mode links_text w in
  jobs w' !! id = Some j →
  stage j = lit "Done." →
  ∃ segments validated cfg attempts,
    transcribe e = Returned (segments, None)
    ∧ transcript j = strip (join nl (map transcript_line segments))
    ∧ (if bool_decide (link_mode = lit "provided")
          && bool_decide (parse_links links_text ≠ [])
       then fetch_links e (parse_links links_text) = Returned validated
       else validated = [])
    ∧ load_runtime_config e = Returned cfg
    ∧ call_openai_metadata (client e) (transcript j) link_mode validated cfg
        (svc w)
      = (Returned (metadata j), svc w', attempts)
    ∧ qa_check (metadata j) link_mode validated = Some (qa_issues j)
    ∧ qa_pass j = Some (bool_decide (qa_issues j = []))
    ∧ error j = error j0 ∧ done j = true ∧ progress j = 100%Z.
Proof.
  intros H0 Hm w'. subst w'. unfold worker.
  destruct (worker_body e id uploaded_path link_mode links_text w)
    as [r w1] eqn:Hbody.
  destruct (worker_body_outcome e id uploaded_path link_mode links_text
              w w1 j0 r Hm H0 Hbody)
    as [(msg & -> & j1 & Hj1 & _)
       |(segments & validated & cfg & attempts & md & issues & j1
         & Hseg & Hval & Hcfg & Hgen & Hqa & Hsame & Hj
         & [[-> _]|(msg & -> & _)])];
    cbn [call update_job snd jobs svc].
  - rewrite (update_job_in_lookup _ _ _ _ Hj1). intros [= <-] Hstage.
    by destruct stage_error_not_done.
  - rewrite Hj. intros [= <-] _.
    exists segments, validated, cfg, attempts.
    destruct Hsame as (_ & _ & Herr & _).
    cbn [dict_update foldl set_field qa_kwargs done_kwargs transcript metadata
         qa_issues qa_pass error done progress].
    split_and!; try done. by rewrite length_eqb_nil.
  - rewrite (update_job_in_lookup _ _ _ _ Hj). intros [= <-] Hstage.
    by destruct stage_error_not_done.
Qed.

Lemma worker_success_witness :
  let w' := worker talk_env demo_id (lit "tmp_jobs/0123456789.mp4")
              (lit "checked_no_links") [] demo_world in
  let j := default (new_job demo_id) (jobs w' !! demo_id) in
  ∃ segments validated cfg attempts,
    transcribe talk_env = Returned (segments, None)
    ∧ transcript j = strip (join nl (map transcript_line segments))
    ∧ (if bool_decide (lit "checked_no_links" = lit "provided")
          && bool_decide (parse_links [] ≠ [])
       then fetch_links talk_env (parse_links []) = Returned validated
       else validated = [])
    ∧ load_runtime_config talk_env = Returned cfg
    ∧ call_openai_metadata (client talk_env) (transcript j)
        (lit "checked_no_links") validated cfg (svc demo_world)
      = (Returned (metadata j), svc w', attempts)
    ∧ qa_check (metadata j) (lit "checked_no_links") validated
      = Some (qa_issues j)
    ∧ qa_pass j = Some (bool_decide (qa_issues j = []))
    ∧ error j = error (new_job demo_id) ∧ done j = true ∧ progress j = 100%Z.
Proof.
  intros w' j.
  apply (worker_success talk_env demo_id (lit "tmp_jobs/0123456789.mp4")
           (lit "checked_no_links") [] demo_world (new_job demo_id) j).
  - reflexivity.
  - vm_compute. discriminate.
  - vm_compute. reflexivity.
  - vm_compute. reflexivity.
Defined.



Lemma climbing_length lo hi ps :
  climbing lo ps → Forall (λ p, (p ≤ hi)%Z) ps →
  length ps ≤ Z.to_nat (hi - lo).
Proof.
  revert lo. induction ps as [|p ps IH]; intros lo; simpl; [lia|].
  intros [Hlt Hc] [Hp Hps]%Forall_cons. specialize (IH p Hc Hps). lia.
Qed.

(** However many segments the recording has, the loop over them writes few
    updates: each one raises the progress, none goes past 75, so that after
    the 20 of the step before there are at most 55 of them; and without a
    known duration there is none. *)
Theorem transcribe_loop_updates {S} (id : str) (dur : Q)
    (segments : list segment) (lines : list str) (last_pct : Z) (w : world S) :
  ∃ ps,
    trace (transcribe_loop id dur segments lines last_pct w).2
    = trace w ++ map (λ p, EvUpdate id [KwProgress p; KwStage transcribing]) ps
    ∧ climbing last_pct ps
    ∧ Forall (λ p, (p ≤ 75)%Z) ps
    ∧ length ps ≤ length segments
    ∧ length ps ≤ Z.to_nat (75 - last_pct)
    ∧ ((dur <= 0)%Q → ps = []).
Proof.
  cut (∃ ps,
    trace (transcribe_loop id dur segments lines last_pct w).2
    = trace w ++ map (λ p, EvUpdate id [KwProgress p; KwStage transcribing]) ps
    ∧ climbing last_pct ps
    ∧ Forall (λ p, (p ≤ 75)%Z) ps
    ∧ length ps ≤ length segments
    ∧ ((dur <= 0)%Q → ps = [])).
  { intros (ps & ? & ? & ? & ? & ?). exists ps. split_and!; try done.
    by apply climbing_length. }
  revert lines last_pct w. induction segments as [|s segments IH];
    intros lines last_pct w.
  { exists []. simpl. by rewrite app_nil_r. }
  cbn [transcribe_loop length].
  destruct (Qlt_le_dec 0 dur) as [Hdur|Hdur].
  - destruct (Z.ltb_spec last_pct (segment_progress dur s)) as [Hlt|Hge].
    + unfold bind at 1. cbn [update_job].
      destruct (IH (lines ++ [transcript_line s]) (segment_progress dur s)
                  (update_job id [KwProgress (segment_progress dur s);
                                  KwStage transcribing] w).2)
        as (ps & Htr & Hc & Hle & Hlen & Hnil).
      exists (segment_progress dur s :: ps). split_and!.
      * etrans; [exact Htr|].
        cbn [update_job snd trace map]. by rewrite <- app_assoc.
      * done.
      * apply Forall_cons. split; [apply segment_progress_le|done].
      * simpl. lia.
      * intros Hd. destruct (Qlt_not_le _ _ Hdur Hd).
    + destruct (IH (lines ++ [transcript_line s]) last_pct w)
        as (ps & Htr & Hc & Hle & Hlen & Hnil).
      exists ps. split_and!; try done. lia.
  - destruct (IH (lines ++ [transcript_line s]) last_pct w)
      as (ps & Htr & Hc & Hle & Hlen & Hnil).
    exists ps. split_and!; try done. lia.
Qed.

(** * Properties of the link validation *)

Lemma until_quote_spec s t :
  Links.until_quote s = Some t →
  (Links.quote ∉ t) ∧ ∃ rest, s = t ++ Links.quote :: rest.
Proof.
  revert t. induction s as [|c s IH]; intros t; simpl; [done|].
  destruct (N.eqb_spec c Links.quote) as [->|Hc].
  - intros [= <-]. split; [apply not_elem_of_nil|]. by exists s.
  - destruct (Links.until_quote s) as [t'|]; [|done]. intros [= <-].
    destruct (IH t' eq_refl) as (Hq & rest & ->). split.
    + rewrite not_elem_of_cons. by split; [congruence|].
    + by exists rest.
Qed.

Lemma og_content_spec s t :
  Links.og_content s = Some t →
  t ≠ [] ∧ (Links.quote ∉ t)
  ∧ ∃ rest, s = Links.og_content_prefix ++ t ++ Links.quote :: rest.
Proof.
  unfold Links.og_content.
  destruct (startswith Links.og_content_prefix s) eqn:Hp; [|done].
  apply startswith_spec in Hp as [rest0 ->].
  rewrite drop_app_length.
  destruct (Links.until_quote rest0) as [[|c t']|] eqn:Hu; [done| |done].
  intros [= <-]. apply until_quote_spec in Hu as (Hq & rest & ->).
  split; [done|]. split; [done|]. by exists rest.
Qed.

Lemma og_ws_star_content_spec s t :
  Links.og_ws_star_content s = Some t →
  t ≠ [] ∧ (Links.quote ∉ t)
  ∧ ∃ ws rest, Forall (λ c, isspace c = true) ws
      ∧ s = ws ++ Links.og_content_prefix ++ t ++ Links.quote :: rest.
Proof.
  revert t. induction s as [|c s IH]; intros t; cbn [Links.og_ws_star_content].
  - intros H. vm_compute in H. discriminate.
  - assert (Links.og_content (c :: s) = Some t →
            t ≠ [] ∧ (Links.quote ∉ t)
            ∧ ∃ ws rest, Forall (λ c, isspace c = true) ws
                ∧ c :: s = ws ++ Links.og_content_prefix ++ t ++ Links.quote :: rest)
      as Hhere.
    { intros (? & ? & rest & ->)%og_content_spec. split; [done|]. split; [done|].
      by exists [], rest. }
    destruct (isspace c) eqn:Hc; [|done].
    destruct (Links.og_ws_star_content s) as [t'|]; [|done].
    intros [= <-]. destruct (IH t' eq_refl) as (? & ? & ws & rest & Hws & ->).
    split; [done|]. split; [done|]. exists (c :: ws), rest.
    split; [by apply Forall_cons|done].
Qed.

(** A match of the pattern: the text matched, with the group in it. *)
Lemma search_og_title_spec html t :
  Links.search_og_title html = Some t →
  t ≠ [] ∧ (Links.quote ∉ t)
  ∧ ∃ before ws rest,
      ws ≠ [] ∧ Forall (λ c, isspace c = true) ws
      ∧ html = before ++ Links.og_title_prefix ++ ws
               ++ Links.og_content_prefix ++ t ++ Links.quote :: rest.
Proof.
  revert t. induction html as [|c html IH]; intros t;
    cbn [Links.search_og_title].
  - by vm_compute.
  - destruct (Links.match_og_title (c :: html)) as [t'|] eqn:Hm.
    + intros [= ->]. unfold Links.match_og_title in Hm.
      destruct (startswith Links.og_title_prefix (c :: html)) eqn:Hp; [|done].
      apply startswith_spec in Hp as [rest0 Hp]. rewrite Hp in Hm |- *.
      rewrite drop_app_length in Hm.
      destruct rest0 as [|w rest0]; [done|].
      destruct (isspace w) eqn:Hw; [|done].
      apply og_ws_star_content_spec in Hm as (? & ? & ws & rest & Hws & ->).
      split; [done|]. split; [done|]. exists [], (w :: ws), rest.
      split; [done|]. split; [by apply Forall_cons|done].
    + intros H. destruct (IH t H) as (? & ? & before & ws & rest & ? & ? & ->).
      split; [done|]. split; [done|]. by exists (c :: before), ws, rest.
Qed.

Lemma check_link_basic (u : str) (r : outcome Links.response) :
  let v := Links.check_link u r in
  url v = u ∧ (ok v = true → reason v = []) ∧ (ok v = false → title v = []).
Proof.
  unfold Links.check_link. destruct r as [[code html]|msg]; [|done].
  cbn [Links.status_code Links.text].
  destruct (bool_decide (code ≠ 200%N)); [done|].
  by destruct (contains _ _ || contains _ _).
Qed.

(** Every result carries its URL.  A link that is accepted has no reason; a
    link that is refused has no title.  The title is text of the page: it
    occurs in it, has no quote in it and no blank at either end. *)
Theorem link_result_shape (u : str) (r : outcome Links.response) :
  let v := Links.check_link u r in
  url v = u
  ∧ (ok v = true → reason v = [])
  ∧ (ok v = false → title v = [])
  ∧ (Links.quote ∉ title v)
  ∧ strip (title v) = title v
  ∧ (∀ resp, r = Returned resp → ∃ a b, Links.text resp = a ++ title v ++ b).
Proof.
  destruct (check_link_basic u r) as (Hu & Hok & Hno). intros v.
  split; [done|]. split; [done|]. split; [done|]. clear Hu Hok Hno. subst v.
  assert (∀ html : str, ∃ a b, html = a ++ [] ++ b) as Hnil
    by (intros html; by exists [], html).
  unfold Links.check_link.
  destruct r as [[code html]|msg]; cbn [Links.status_code Links.text].
  2: { cbn [title]. split_and!; [apply not_elem_of_nil|done|done]. }
  destruct (bool_decide (code ≠ 200%N)).
  { cbn [title]. split_and!; [apply not_elem_of_nil|done|intros ? _; apply Hnil]. }
  destruct (contains _ _ || contains _ _).
  { cbn [title]. split_and!; [apply not_elem_of_nil|done|intros ? _; apply Hnil]. }
  cbn [url ok title reason]. split_and!.
  - destruct (Links.search_og_title html) as [t|] eqn:Ht; [|apply not_elem_of_nil].
    apply search_og_title_spec in Ht as (_ & Hq & _).
    intros Hin. by apply Hq, strip_subset.
  - destruct (Links.search_og_title html); [apply strip_idemp|done].
  - intros resp [= <-]. cbn [Links.text].
    destruct (Links.search_og_title html) as [t|] eqn:Ht; [|apply Hnil].
    apply search_og_title_spec in Ht
      as (_ & _ & before & ws & rest & _ & _ & ->).
    destruct (strip_decompose t) as (ws1 & ws2 & Ht & _).
    exists (before ++ Links.og_title_prefix ++ ws ++ Links.og_content_prefix ++ ws1),
           (ws2 ++ Links.quote :: rest).
    rewrite Ht at 1. by rewrite <- !app_assoc.
Qed.

Lemma check_links_spec {S} (get : str → S → outcome Links.response * S) urls s :
  map url (Links.check_links get urls s).1 = urls
  ∧ Forall (λ v, (ok v = true → reason v = []) ∧ (ok v = false → title v = []))
      (Links.check_links get urls s).1.
Proof.
  revert s. induction urls as [|u urls IH]; intros s; [done|].
  cbn [Links.check_links]. destruct (get u s) as [r s1].
  specialize (IH s1). destruct (Links.check_links get urls s1) as [results s2].
  destruct IH as [IH1 IH2]. destruct (check_link_basic u r) as (Hu & Hok & Hno).
  cbn [fst map]. split.
  - by f_equal.
  - by apply Forall_cons.
Qed.

(** A request that fails never makes [validate_links] raise: the only
    exception that leaves it is that of the construction of the client, and
    only when there is a URL to fetch.  When it returns there is one result
    for each URL, in the order of the URLs, repeated URLs included. *)
Theorem validate_links_results {S} (get : str → S → outcome Links.response * S)
    (open_client : outcome unit) (urls : list str) (s : S) :
  match Links.validate_links get open_client urls s with
  | (Returned results, _) =>
      map url results = urls
      ∧ Forall (λ v, (ok v = true → reason v = [])
                     ∧ (ok v = false → title v = [])) results
  | (Raised msg, s') => open_client = Raised msg ∧ urls ≠ [] ∧ s' = s
  end.
Proof.
  unfold Links.validate_links. destruct urls as [|u urls]; [done|].
  destruct open_client as [[]|msg]; [|done].
  pose proof (check_links_spec get (u :: urls) s) as H.
  by destruct (Links.check_links get (u :: urls) s) as [results s'].
Qed.

Lemma until_quote_app t rest :
  Links.quote ∉ t → Links.until_quote (t ++ Links.quote :: rest) = Some t.
Proof.
  induction t as [|c t IH]; cbn [app Links.until_quote].
  - done.
  - intros [Hc Ht]%not_elem_of_cons.
    destruct (N.eqb_spec c Links.quote) as [->|_]; [done|]. by rewrite IH.
Qed.

Lemma startswith_app p r : startswith p (p ++ r) = true.
Proof. apply startswith_spec. by exists r. Qed.

Lemma og_content_app t rest :
  t ≠ [] → Links.quote ∉ t →
  Links.og_content (Links.og_content_prefix ++ t ++ Links.quote :: rest) = Some t.
Proof.
  intros Hne Hq. unfold Links.og_content.
  rewrite startswith_app, drop_app_length, until_quote_app by done.
  by destruct t.
Qed.

Lemma og_ws_star_content_app ws t rest :
  Forall (λ c, isspace c = true) ws → t ≠ [] → Links.quote ∉ t →
  Links.og_ws_star_content
    (ws ++ Links.og_content_prefix ++ t ++ Links.quote :: rest) = Some t.
Proof.
  intros Hws Hne Hq. induction Hws as [|c ws Hc _ IH].
  - rewrite app_nil_l.
    change (Links.og_content_prefix ++ t ++ Links.quote :: rest)
      with (99%N :: (lit "ontent=" ++ [Links.quote]) ++ t ++ Links.quote :: rest).
    cbn [Links.og_ws_star_content].
    change (isspace 99%N) with false. cbv iota.
    by apply og_content_app.
  - rewrite <- app_comm_cons. cbn [Links.og_ws_star_content]. by rewrite Hc, IH.
Qed.

Lemma match_og_title_app ws t rest :
  ws ≠ [] → Forall (λ c, isspace c = true) ws → t ≠ [] → Links.quote ∉ t →
  Links.match_og_title
    (Links.og_title_prefix ++ ws ++ Links.og_content_prefix
     ++ t ++ Links.quote :: rest) = Some t.
Proof.
  intros Hw Hws Hne Hq. unfold Links.match_og_title.
  rewrite startswith_app, drop_app_length.
  destruct ws as [|w ws]; [done|]. apply Forall_cons in Hws as [Hw1 Hws].
  rewrite <- app_comm_cons, Hw1. by apply og_ws_star_content_app.
Qed.

Lemma startswith_app_short p x y :
  startswith p (x ++ y) = true → length p ≤ length x → startswith p x = true.
Proof.
  intros [r Hr]%startswith_spec Hlen. apply startswith_spec.
  exists (drop (length p) x).
  rewrite <- (take_drop (length p) x) at 1. f_equal.
  assert (take (length p) (x ++ y) = p) as Hp
    by (by rewrite Hr, take_app_length).
  by rewrite take_app_le in Hp.
Qed.

Lemma search_og_title_skip before rest :
  contains Links.og_title_prefix (before ++ removelast Links.og_title_prefix)
  = false →
  Links.search_og_title (before ++ Links.og_title_prefix ++ rest)
  = Links.search_og_title (Links.og_title_prefix ++ rest).
Proof.
  induction before as [|c before IH]; [done|].
  rewrite <- !app_comm_cons. cbn [contains Links.search_og_title].
  intros [Hhere Hlater]%orb_false_elim.
  destruct (Links.match_og_title _) as [t|] eqn:Hm; [|by apply IH].
  exfalso. unfold Links.match_og_title in Hm.
  destruct (startswith Links.og_title_prefix _) eqn:Hp in Hm; [|done].
  assert (startswith Links.og_title_prefix
            (c :: before ++ removelast Links.og_title_prefix) = true);
    [|congruence].
  apply (startswith_app_short _ _ ([Links.quote] ++ rest)).
  - rewrite <- Hp. f_equal. rewrite app_comm_cons, <- !app_assoc. f_equal.
  - rewrite length_cons, length_app.
    change (length Links.og_title_prefix) with 19.
    change (length (removelast Links.og_title_prefix)) with 18. lia.
Qed.

Lemma search_og_title_here s t :
  Links.match_og_title s = Some t → Links.search_og_title s = Some t.
Proof. intros H. destruct s; cbn [Links.search_og_title]; by rewrite H. Qed.

(** A page that answers 200, is not marked unavailable or private, and whose
    first [property=.og:title.] is followed by blanks, [content=.], a text
    without a quote and a quote (the dots are quotes), is accepted with that
    text, stripped, as its title. *)
Theorem og_title_found (u before ws t rest : str) :
  let html := before ++ Links.og_title_prefix ++ ws ++ Links.og_content_prefix
              ++ t ++ Links.quote :: rest in
  contains Links.og_title_prefix (before ++ removelast Links.og_title_prefix)
  = false →
  ws ≠ [] → Forall (λ c, isspace c = true) ws →
  t ≠ [] → Links.quote ∉ t →
  contains (lit "video unavailable") (lower html) = false →
  contains (lit "private video") (lower html) = false →
  Links.check_link u (Returned (Links.Response 200 html))
  = ValidatedLink u true (strip t) [].
Proof.
  intros html Hfirst Hw Hws Hne Hq Hun Hpr. unfold Links.check_link.
  cbn [Links.status_code Links.text]. fold html. rewrite Hun, Hpr.
  rewrite bool_decide_eq_false_2 by (by intros []). cbn [orb].
  unfold html at 1. rewrite search_og_title_skip by done.
  by rewrite (search_og_title_here _ t) by by apply match_og_title_app.
Qed.

Lemma og_title_found_witness :
  Links.check_link (lit "https://youtu.be/a")
    (Returned (Links.Response 200
       (lit "<meta " ++ Links.og_title_prefix ++ lit " " ++ Links.og_content_prefix
        ++ lit " Algebra " ++ Links.quote :: lit ">")))
  = ValidatedLink (lit "https://youtu.be/a") true (strip (lit " Algebra ")) [].
Proof.
  apply (og_title_found (lit "https://youtu.be/a") (lit "<meta ") (lit " ")
           (lit " Algebra ") (lit ">")).
  - vm_compute. reflexivity.
  - vm_compute. discriminate.
  - apply (bool_decide_unpack _). vm_compute. exact I.
  - vm_compute. discriminate.
  - apply (bool_decide_unpack _). vm_compute. exact I.
  - vm_compute. reflexivity.
  - vm_compute. reflexivity.
Defined.

(** * Properties of the stored settings *)

Lemma efforts_stripped e : e ∈ Config.efforts → strip e = e.
Proof.
  unfold Config.efforts. rewrite !elem_of_cons, elem_of_nil.
  intros [->|[->|[->|[]]]]; by vm_compute.
Qed.

Lemma get_or_lookup (a b c d : str) k :
  let m : gmap str str :=
    <[lit "REASONING_EFFORT" := a]>
      (<[lit "OPENAI_FALLBACK_MODELS" := b]>
         (<[lit "OPENAI_MODEL" := c]> (<[lit "OPENAI_API_KEY" := d]> ∅))) in
  m !! k
  = if decide (k = lit "REASONING_EFFORT") then Some a
    else if decide (k = lit "OPENAI_FALLBACK_MODELS") then Some b
    else if decide (k = lit "OPENAI_MODEL") then Some c
    else if decide (k = lit "OPENAI_API_KEY") then Some d
    else None.
Proof.
  intros m. subst m.
  repeat (destruct (decide _) as [->|?];
          [by rewrite ?lookup_insert_eq
          |rewrite lookup_insert_ne by done]).
  apply lookup_empty.
Qed.

(** The settings before the check of the effort: the four keys are there,
    and every value but the effort is free of surrounding blanks. *)
Lemma merged_settings (a b c d : str) (file : Config.config_file) :
  let cfg0 : gmap str str :=
    <[lit "REASONING_EFFORT" := a]>
      (<[lit "OPENAI_FALLBACK_MODELS" := strip b]>
         (<[lit "OPENAI_MODEL" := strip c]>
            (<[lit "OPENAI_API_KEY" := strip d]> ∅))) in
  let cfg : gmap str str :=
    match file with
    | Config.Object data => ((λ v, strip (default [] v)) <$> data) ∪ cfg0
    | _ => cfg0
    end in
  (∀ k, k ∈ [lit "OPENAI_API_KEY"; lit "OPENAI_MODEL";
             lit "OPENAI_FALLBACK_MODELS"; lit "REASONING_EFFORT"] →
        is_Some (cfg !! k))
  ∧ (∀ k v, k ≠ lit "REASONING_EFFORT" → cfg !! k = Some v → strip v = v).
Proof.
  intros cfg0 cfg.
  assert (∀ k, k ∈ [lit "OPENAI_API_KEY"; lit "OPENAI_MODEL";
                    lit "OPENAI_FALLBACK_MODELS"; lit "REASONING_EFFORT"] →
               is_Some (cfg0 !! k)) as Hkeys0.
  { intros k Hk. unfold cfg0. rewrite get_or_lookup.
    rewrite !elem_of_cons, elem_of_nil in Hk.
    destruct Hk as [->|[->|[->|[->|[]]]]];
      repeat (destruct (decide _); [by eexists|]); done. }
  assert (∀ k v, k ≠ lit "REASONING_EFFORT" → cfg0 !! k = Some v → strip v = v)
    as Hstrip0.
  { intros k v Hk. unfold cfg0. rewrite get_or_lookup.
    repeat (destruct (decide _); [intros [= <-]; by try apply strip_idemp|]).
    done. }
  destruct file as [| | |data]; try done. subst cfg. split.
  - intros k Hk. apply lookup_union_is_Some. right. by apply Hkeys0.
  - intros k v Hk [Hv|[_ Hv]]%lookup_union_Some_raw; [|by eapply Hstrip0].
    apply lookup_fmap_Some in Hv as (x & <- & _). apply strip_idemp.
Qed.

(** The settings before and after the check of the effort. *)
Lemma loaded_settings_parts (environ : gmap str str) (file : Config.config_file) :
  ∃ cfg1 e,
    cfg1 !! lit "REASONING_EFFORT" = Some e
    ∧ Config.load_runtime_config environ file
      = Some (if bool_decide (e ∈ Config.efforts) then cfg1
              else <[lit "REASONING_EFFORT" := lit "high"]> cfg1)
    ∧ (∀ k, k ∈ [lit "OPENAI_API_KEY"; lit "OPENAI_MODEL";
                 lit "OPENAI_FALLBACK_MODELS"; lit "REASONING_EFFORT"] →
            is_Some (cfg1 !! k))
    ∧ (∀ k v, k ≠ lit "REASONING_EFFORT" → cfg1 !! k = Some v → strip v = v).
Proof.
  unfold Config.load_runtime_config.
  destruct (merged_settings
              (lower (strip (Config.get_or environ (lit "REASONING_EFFORT") (lit "high"))))
              (Config.get_or environ (lit "OPENAI_FALLBACK_MODELS")
                 (lit "gpt-5-mini,gpt-4o"))
              (Config.get_or environ (lit "OPENAI_MODEL") (lit "gpt-5.2-thinking"))
              (Config.get_or environ (lit "OPENAI_API_KEY") []) file)
    as [Hkeys Hstrip].
  cbv zeta in Hkeys, Hstrip |- *.
  set (cfg := match file with Config.Object _ => _ | _ => _ end) in *.
  destruct (Hkeys (lit "REASONING_EFFORT")) as [e He].
  { repeat first [apply list_elem_of_here | apply list_elem_of_further]. }
  exists cfg, e. rewrite He. by cbn [mbind option_bind].
Qed.

(** [load_runtime_config] returns, and the settings other than the effort
    have no blank at either end. *)
Lemma loaded_settings (environ : gmap str str) (file : Config.config_file) :
  ∃ cfg,
    Config.load_runtime_config environ file = Some cfg
    ∧ ∀ k v, k ≠ lit "REASONING_EFFORT" → cfg !! k = Some v → strip v = v.
Proof.
  destruct (loaded_settings_parts environ file)
    as (cfg1 & e & He & -> & _ & Hstrip).
  eexists. split; [done|]. intros k v Hk.
  destruct (bool_decide (e ∈ Config.efforts)); [by apply Hstrip|].
  rewrite lookup_insert_ne by done. by apply Hstrip.
Qed.

(** Whatever the environment and the file hold, [load_runtime_config]
    returns settings with the four keys, an effort that is one of "low",
    "medium" and "high", and no value with a blank at either end. *)
Theorem load_runtime_config_shape (environ : gmap str str)
    (file : Config.config_file) :
  ∃ cfg,
    Config.load_runtime_config environ file = Some cfg
    ∧ (∀ k, k ∈ [lit "OPENAI_API_KEY"; lit "OPENAI_MODEL";
                 lit "OPENAI_FALLBACK_MODELS"; lit "REASONING_EFFORT"] →
            is_Some (cfg !! k))
    ∧ (∃ e, cfg !! lit "REASONING_EFFORT" = Some e ∧ e ∈ Config.efforts)
    ∧ (∀ k v, cfg !! k = Some v → strip v = v).
Proof.
  destruct (loaded_settings_parts environ file)
    as (cfg & e & He & -> & Hkeys & Hstrip).
  destruct (decide (e ∈ Config.efforts)) as [Hin|Hout].
  - rewrite bool_decide_eq_true_2 by done. exists cfg. split_and!; try done.
    + by exists e.
    + intros k v Hv. destruct (decide (k = lit "REASONING_EFFORT")) as [->|Hk].
      * rewrite He in Hv. injection Hv as <-. by apply efforts_stripped.
      * by apply (Hstrip k).
  - rewrite bool_decide_eq_false_2 by done. eexists. split; [done|].
    split_and!.
    + intros k Hk. destruct (decide (k = lit "REASONING_EFFORT")) as [->|Hne].
      * by rewrite lookup_insert_eq.
      * rewrite lookup_insert_ne by done. by apply Hkeys.
    + exists (lit "high"). rewrite lookup_insert_eq. split; [done|].
      repeat first [apply list_elem_of_here | apply list_elem_of_further].
    + intros k v. destruct (decide (k = lit "REASONING_EFFORT")) as [->|Hne].
      * rewrite lookup_insert_eq. by intros [= <-].
      * rewrite lookup_insert_ne by done. by apply Hstrip.
Qed.

Lemma load_runtime_config_lookup (environ : gmap str str)
    (data : gmap str (option str)) k :
  k ≠ lit "REASONING_EFFORT" →
  ∃ cfg, Config.load_runtime_config environ (Config.Object data) = Some cfg
    ∧ (∀ v, data !! k = Some v → cfg !! k = Some (strip (default [] v)))
    ∧ (data !! k = None →
       cfg !! k
       = (<[lit "OPENAI_FALLBACK_MODELS" :=
              strip (Config.get_or environ (lit "OPENAI_FALLBACK_MODELS")
                       (lit "gpt-5-mini,gpt-4o"))]>
          (<[lit "OPENAI_MODEL" :=
               strip (Config.get_or environ (lit "OPENAI_MODEL")
                        (lit "gpt-5.2-thinking"))]>
           (<[lit "OPENAI_API_KEY" :=
                strip (Config.get_or environ (lit "OPENAI_API_KEY") [])]>
              (∅ : gmap str str)))) !! k).
Proof.
  intros Hk. unfold Config.load_runtime_config.
  destruct (merged_settings
              (lower (strip (Config.get_or environ (lit "REASONING_EFFORT") (lit "high"))))
              (Config.get_or environ (lit "OPENAI_FALLBACK_MODELS")
                 (lit "gpt-5-mini,gpt-4o"))
              (Config.get_or environ (lit "OPENAI_MODEL") (lit "gpt-5.2-thinking"))
              (Config.get_or environ (lit "OPENAI_API_KEY") [])
              (Config.Object data))
    as [Hkeys _].
  cbv zeta in Hkeys |- *.
  set (cfg := _ ∪ _) in *.
  destruct (Hkeys (lit "REASONING_EFFORT")) as [e He].
  { repeat first [apply list_elem_of_here | apply list_elem_of_further]. }
  rewrite He. cbn [mbind option_bind]. eexists. split; [done|].
  assert (∀ m : gmap str str,
            (if bool_decide (e ∈ Config.efforts) then cfg
             else <[lit "REASONING_EFFORT" := lit "high"]> cfg) !! k = cfg !! k)
    as Hsame.
  { intros _. destruct (bool_decide (e ∈ Config.efforts)); [done|].
    by rewrite lookup_insert_ne. }
  rewrite (Hsame ∅). unfold cfg. split.
  - intros v Hv. apply lookup_union_Some_l, lookup_fmap_Some. by exists v.
  - intros Hv. rewrite lookup_union_r.
    + by rewrite lookup_insert_ne.
    + apply eq_None_not_Some. intros [x Hx].
      apply lookup_fmap_Some in Hx as (y & _ & Hy).
      pose proof (eq_trans (eq_sym Hy) Hv) as Hc. discriminate Hc.
Qed.

(** An entry of the file wins over the environment, a null or a blank one
    included: the setting is then empty whatever the environment holds. *)
Theorem file_overrides_environment (environ : gmap str str)
    (data : gmap str (option str)) (k : str) (v : option str) :
  data !! k = Some v →
  k ≠ lit "REASONING_EFFORT" →
  ∃ cfg, Config.load_runtime_config environ (Config.Object data) = Some cfg
    ∧ cfg !! k = Some (strip (default [] v)).
Proof.
  intros Hv Hk.
  destruct (load_runtime_config_lookup environ data k Hk)
    as (cfg & Hload & Hcfg & _).
  exists cfg. split; [done|]. by apply Hcfg.
Qed.

Lemma file_overrides_environment_witness :
  ∃ cfg,
    Config.load_runtime_config
      (<[lit "OPENAI_API_KEY" := lit "sk-env"]> ∅)
      (Config.Object (<[lit "OPENAI_API_KEY" := None]> ∅)) = Some cfg
    ∧ cfg !! lit "OPENAI_API_KEY" = Some (strip (default [] None)).
Proof.
  apply (file_overrides_environment
           (<[lit "OPENAI_API_KEY" := lit "sk-env"]> ∅)
           (<[lit "OPENAI_API_KEY" := None]> ∅) (lit "OPENAI_API_KEY") None).
  - reflexivity.
  - vm_compute. discriminate.
Defined.

Lemma lower_char_ends c :
  isspace c = false →
  ∃ a m b, lower_char c = a :: m ∧ isspace a = false
           ∧ rev (lower_char c) = b :: rev (removelast (lower_char c))
           ∧ isspace b = false.
Proof.
  intros Hc. unfold lower_char.
  destruct ((65 <=? c)%N && (c <=? 90)%N) eqn:Hup.
  - exists (c + 32)%N, [], (c + 32)%N. split; [done|].
    assert (isspace (c + 32)%N = false) as Hs; [|done].
    apply andb_prop in Hup as [H1%N.leb_le H2%N.leb_le].
    apply not_true_is_false. unfold isspace.
    rewrite !orb_true_iff, !andb_true_iff, !N.leb_le, !N.eqb_eq. lia.
  - destruct (c =? 304)%N; [by exists 105%N, [775%N], 775%N|].
    destruct (c =? 8490)%N; [by exists 107%N, [], 107%N|].
    by exists c, [], c.
Qed.

(** Lower-casing puts no blank at the ends of a string that has none. *)
Lemma strip_lower s : strip s = s → strip (lower s) = lower s.
Proof.
  intros Hs. destruct (strip_ends s) as [Hhead Hlast]. rewrite Hs in Hhead, Hlast.
  apply strip_id.
  - intros a r Ha. destruct s as [|c s']; [done|].
    destruct (lower_char_ends c (Hhead c s' eq_refl)) as (a' & m & _ & Hl & Ha' & _).
    unfold lower in Ha. cbn [flat_map] in Ha. rewrite Hl in Ha.
    by injection Ha as <- _.
  - intros b r Hb.
    assert (s = rev (rev s)) as Hs2 by (by rewrite rev_involutive).
    destruct (rev s) as [|c s']; [by rewrite Hs2 in Hb|].
    destruct (lower_char_ends c (Hlast c s' eq_refl))
      as (_ & _ & b' & _ & _ & Hl & Hb').
    rewrite Hs2 in Hb. unfold lower in Hb. cbn [rev] in Hb.
    rewrite flat_map_app, rev_app_distr in Hb. cbn [flat_map] in Hb.
    rewrite app_nil_r, Hl in Hb. by injection Hb as <- _.
Qed.

Lemma form_settings_stripped (form : gmap str str) :
  (λ v : option str, strip (default [] v)) <$> (Some <$> Config.form_settings form)
  = Config.form_settings form.
Proof.
  apply map_eq. intros k. rewrite <- map_fmap_compose, lookup_fmap.
  unfold Config.form_settings. rewrite get_or_lookup.
  repeat (destruct (decide _);
          [cbn; f_equal; first [apply strip_lower, strip_idemp|apply strip_idemp]|]).
  done.
Qed.

(** With a blank key [settings_post] writes nothing.  With a key, a write
    that raises lets the exception leave the handler; after a write that has
    gone through, the answer is "Saved." and what was saved is what
    [load_runtime_config] returns from then on, whatever the environment
    holds; only an effort that is none of the three is read back as
    "high". *)
Theorem saved_settings_are_loaded (form environ : gmap str str)
    (file failed : Config.config_file) (write : outcome unit) :
  let key := strip (Config.get_or form (lit "OPENAI_API_KEY") []) in
  let effort :=
    lower (strip (Config.get_or form (lit "REASONING_EFFORT") (lit "high"))) in
  (key = [] →
   Config.settings_post form file write failed
   = (Returned (lit "API key is required."), file))
  ∧ (key ≠ [] → ∀ msg, write = Raised msg →
     Config.settings_post form file write failed = (Raised msg, failed))
  ∧ (key ≠ [] → write = Returned tt →
     (Config.settings_post form file write failed).1 = Returned (lit "Saved.")
     ∧ Config.load_runtime_config environ
         (Config.settings_post form file write failed).2
       = Some (if bool_decide (effort ∈ Config.efforts)
               then Config.form_settings form
               else <[lit "REASONING_EFFORT" := lit "high"]>
                      (Config.form_settings form))).
Proof.
  intros key effort. unfold Config.settings_post. cbv zeta.
  assert (@lookup str (list char) _ _ (lit "OPENAI_API_KEY")
            (Config.form_settings form) = Some key) as ->.
  { unfold Config.form_settings. by rewrite get_or_lookup. }
  split; [by intros ->|].
  split.
  { intros Hkey msg ->. by destruct key. }
  intros Hkey ->.
  destruct key as [|c key'] eqn:Hk; [done|].
  cbn [Config.save_runtime_config fst snd]. split; [done|].
  unfold Config.load_runtime_config.
  rewrite form_settings_stripped.
  match goal with
  | |- context [Config.form_settings form ∪ ?m] =>
      assert (Config.form_settings form ∪ m = Config.form_settings form) as ->
  end.
  { apply map_eq. intros k.
    destruct (Config.form_settings form !! k) as [v|] eqn:Hv.
    - by apply lookup_union_Some_l.
    - rewrite lookup_union_r by done. revert Hv.
      unfold Config.form_settings. rewrite !get_or_lookup.
      by repeat (destruct (decide _); [done|]). }
  assert (Config.form_settings form !! lit "REASONING_EFFORT" = Some effort) as ->.
  { unfold Config.form_settings. by rewrite get_or_lookup. }
  done.
Qed.

(** * Properties of the routes *)

(** What is known of a request that [api_start] has accepted. *)
Lemma api_start_started (suffix : str → str) (tmp_dir : str) (h : Api.health)
    (environ : gmap str str) (file : Config.config_file)
    (req : Api.start_request) (new_id : str) (save start : outcome unit)
    (jobs jobs' : gmap str job) (id : str) (st : option Api.started) :
  Api.api_start suffix tmp_dir h environ file req new_id save start jobs
  = (Api.JobStarted id, jobs', st) →
  id = new_id
  ∧ jobs' = <[new_id := new_job new_id]> jobs
  ∧ (∃ cfg c key, Config.load_runtime_config environ file = Some cfg
                  ∧ cfg !! lit "OPENAI_API_KEY" = Some (c :: key))
  ∧ ∃ s, st = Some s ∧ Api.started_job_id s = new_id.
Proof.
  unfold Api.api_start.
  destruct (negb (Api.ffmpeg h) || negb (Api.ffprobe h)); [done|].
  destruct (Config.load_runtime_config environ file) as [cfg|]; [|done].
  destruct (cfg !! lit "OPENAI_API_KEY") as [[|c key]|] eqn:Hkey; [done| |done].
  destruct (Api.filename req) as [[|n name]|]; [done| |done].
  cbv zeta. destruct (bool_decide _); [|done].
  destruct save as [[]|msg]; [|done]. destruct start as [[]|msg]; [|done].
  intros [= <- <- <-]. split_and!; try done; [by exists cfg, c, key|].
  by eexists.
Qed.


(** A job that [api_start] has started is reported as queued until the
    thread runs, and as done with progress 100 once the thread has ended,
    whatever happened in between; the status of every other job is the one
    it was before the request. *)
Theorem submitted_job_finishes {S : Type} (suffix : str → str) (tmp_dir : str)
    (h : Api.health) (environ : gmap str str) (file : Config.config_file)
    (req : Api.start_request) (new_id : str) (save start : outcome unit)
    (jobs0 jobs1 : gmap str job) (id : str) (st : Api.started)
    (e : env S) (tr : list event) (s : S) :
  Api.api_start suffix tmp_dir h environ file req new_id save start jobs0
  = (Api.JobStarted id, jobs1, Some st) →
  let w' := worker e (Api.started_job_id st) (Api.uploaded_path st)
              (Api.link_mode st) (Api.links_text st) (World jobs1 tr s) in
  Api.api_status id jobs1 = Api.JobStatus (new_job id)
  ∧ (∃ j, Api.api_status id (jobs w') = Api.JobStatus j
          ∧ done j = true ∧ progress j = 100%Z ∧ job_id j = id)
  ∧ (∀ other, other ≠ id →
       Api.api_status other (jobs w') = Api.api_status other jobs0).
Proof.
  intros Hstart w'. subst w'.
  destruct (api_start_started _ _ _ _ _ _ _ _ _ _ _ _ _ Hstart)
    as (-> & -> & _ & st' & [= <-] & ->).
  clear Hstart. unfold Api.api_status. split_and!.
  - by rewrite lookup_insert_eq.
  - destruct (worker_finishes e new_id (Api.uploaded_path st) (Api.link_mode st)
                (Api.links_text st)
                (World (<[new_id := new_job new_id]> jobs0) tr s)
                (new_job new_id))
      as (j & Hj & Hdone & Hp & Hid).
    { apply lookup_insert_eq. }
    exists j. by rewrite Hj.
  - intros other Hother.
    destruct (worker_frame e new_id (Api.uploaded_path st) (Api.link_mode st)
                (Api.links_text st)
                (World (<[new_id := new_job new_id]> jobs0) tr s))
      as [Hframe _].
    cbv zeta in Hframe. rewrite (Hframe other Hother). cbn [jobs].
    by rewrite lookup_insert_ne.
Qed.

Lemma submitted_job_finishes_witness :
  let st := Api.Started demo_id (lit "/app/tmp_jobs/0123456789.mp4")
              (lit "checked_no_links") [] in
  let jobs1 : gmap str job := <[demo_id := new_job demo_id]> ∅ in
  let w' := worker talk_env (Api.started_job_id st) (Api.uploaded_path st)
              (Api.link_mode st) (Api.links_text st) (World jobs1 [] 0) in
  Api.api_status demo_id jobs1 = Api.JobStatus (new_job demo_id)
  ∧ (∃ j, Api.api_status demo_id (jobs w') = Api.JobStatus j
          ∧ done j = true ∧ progress j = 100%Z ∧ job_id j = demo_id)
  ∧ (∀ other, other ≠ demo_id →
       Api.api_status other (jobs w') = Api.api_status other ∅).
Proof.
  intros st jobs1.
  apply (submitted_job_finishes (λ _, lit ".MP4") (lit "/app/tmp_jobs")
           (Api.Health true true) (<[lit "OPENAI_API_KEY" := lit "sk-test"]> ∅)
           Config.Missing (Api.StartRequest (Some (lit "talk.MP4")) None None)
           demo_id (Returned tt) (Returned tt) ∅ jobs1 demo_id st talk_env [] 0).
  vm_compute. reflexivity.
Defined.

Lemma request_failed_not_missing_key err :
  request_failed err ≠ missing_key_message.
Proof.
  intros H. apply (f_equal (take 2)) in H. vm_compute in H. discriminate.
Qed.

(** A job is started only with settings that the generation client can use:
    with the settings [api_start] has accepted, the client never raises its
    error of the missing key, whatever the service does. *)
Theorem accepted_settings_have_a_key {S : Type} (suffix : str → str)
    (tmp_dir : str) (h : Api.health) (environ : gmap str str)
    (file : Config.config_file) (req : Api.start_request) (new_id : str)
    (save start : outcome unit) (jobs0 jobs1 : gmap str job) (id : str)
    (st : option Api.started)
    (cl : service S) (transcript lm : str) (vl : list validated_link) (s : S) :
  Api.api_start suffix tmp_dir h environ file req new_id save start jobs0
  = (Api.JobStarted id, jobs1, st) →
  ∃ cfg,
    Config.load_runtime_config environ file = Some cfg
    ∧ (call_openai_metadata cl transcript lm vl cfg s).1.1
      ≠ Raised missing_key_message.
Proof.
  intros Hstart.
  destruct (api_start_started _ _ _ _ _ _ _ _ _ _ _ _ _ Hstart)
    as (_ & _ & (cfg & c & key & Hload & Hkey) & _).
  exists cfg. split; [done|].
  destruct (loaded_settings environ file) as (cfg' & Hload' & Hstrip).
  assert (cfg' = cfg) as -> by congruence.
  assert (strip (default [] (cfg !! lit "OPENAI_API_KEY")) ≠ []) as Hne.
  { assert (default [] (cfg !! lit "OPENAI_API_KEY") = c :: key) as ->
      by (by rewrite Hkey).
    rewrite (Hstrip (lit "OPENAI_API_KEY") (c :: key)); [done| |done].
    intros H. vm_compute in H. discriminate. }
  destruct (call_openai_metadata cl transcript lm vl cfg s) as [[res s'] log] eqn:Hcall.
  destruct (call_openai_metadata_passes cl _ _ _ _ _ _ _ _ Hne Hcall)
    as (log1 & log2 & _ & _ & _ & _ & _ & _ & Hres).
  cbn [fst]. intros ->.
  destruct Hres as [(? & ? & ? & _ & _ & _ & _ & ?)
                   |[_ [(? & ? & ? & _ & _ & _ & ?)|(_ & _ & Hr)]]]; [done|done|].
  assert (∀ a b : str, Raised (A:=str) a = Raised b → a = b) as Hinj
    by (intros a b H; by injection H).
  apply Hinj in Hr. symmetry in Hr. by apply request_failed_not_missing_key in Hr.
Qed.

Lemma accepted_settings_have_a_key_witness :
  ∃ cfg,
    Config.load_runtime_config (<[lit "OPENAI_API_KEY" := lit "sk-test"]> ∅)
      Config.Missing = Some cfg
    ∧ (call_openai_metadata scope_client (lit "00:00 hello") (lit "provided")
         [] cfg 0).1.1
      ≠ Raised missing_key_message.
Proof.
  apply (accepted_settings_have_a_key (λ _, lit ".MP4") (lit "/app/tmp_jobs")
           (Api.Health true true) (<[lit "OPENAI_API_KEY" := lit "sk-test"]> ∅)
           Config.Missing (Api.StartRequest (Some (lit "talk.MP4")) None None)
           demo_id (Returned tt) (Returned tt) ∅
           (<[demo_id := new_job demo_id]> ∅) demo_id
           (Some (Api.Started demo_id (lit "/app/tmp_jobs/0123456789.mp4")
                    (lit "checked_no_links") []))
           scope_client (lit "00:00 hello") (lit "provided") [] 0).
  vm_compute. reflexivity.
Defined.
